(** * The confidence-gated cache replacement simulator

    A shallow embedding of the simulator logic of
    [src/components/Diagrams.tsx] ([CacheSimulatorDiagram]): the scoring
    function [predictReuseProb], the event handler [access] and the
    workload switch.

    Conventions of the embedding.
    - The counters [recency] and [frequency] are JavaScript numbers that
      only ever hold the naturals produced by [+= 1], [= 0] and the
      literal [1]; they are modelled as [N].
    - Scores are JavaScript numbers computed from decimal literals with
      [+], [*], [/] and [Math.min].  In the state of the simulator the
      arithmetic is read exactly, over the rationals [Q]: equality of
      scores is [Qeq] where two expressions are compared, and Leibniz
      equality where the code stores the very same expression.  Rounding
      to binary64 changes the last digits of a Friendly score but no
      comparison that the handler makes: see [gate_rounding_free] and
      [hostile_order_rounding_free].  What the value of a score is, is
      stated on the doubles themselves, [predictReuseProb64], in the last
      part of the file; the exact score is within [2 ^ -52] of the
      double ([predictReuseProb64_near_exact]).
    - The React state cells ([cache], [workload], [lastAction],
      [confidence], [decisionMode]) are the fields of one record that the
      handlers take and return.  The block objects shared between the old
      and the new array are never read again through the old array, so a
      handler is modelled as a function from the old record to the new
      one. *)

From Stdlib Require Import QArith Qminmax SpecFloat.
From stdpp Require Import base list strings.

Local Open Scope Q_scope.

(** ** Data model (lines 12-29) *)

Record CacheBlock := mkBlock {
  id : string;
  recency : N;      (* 0 = most recently used *)
  frequency : N;    (* count of accesses *)
  score : Q         (* predicted probability of reuse *)
}.

Inductive WorkloadType := Friendly | Hostile.

Inductive DecisionMode := ML | LRU_FALLBACK | IDLE.

Definition CAPACITY : nat := 4.
Definition CONFIDENCE_THRESHOLD : Q := 0.88.

Record SimState := mkState {
  cache : list CacheBlock;
  workload : WorkloadType;
  lastAction : string;
  confidence : Q;
  decisionMode : DecisionMode
}.

(** The values of the [useState] initialisers. *)
Definition initial : SimState :=
  {| cache := [];
     workload := Hostile;
     lastAction := "System Ready. Select a block to access.";
     confidence := 0;
     decisionMode := IDLE |}.

(** ** JavaScript primitives used by the handlers *)

(** [x < y] on numbers; [x > y] is [Qltb y x]. *)
Definition Qltb (x y : Q) : bool := negb (Qle_bool y x).

(** [Math.max(...xs)]: the running maximum starting from [-Infinity],
    which [None] stands for (it is the result on an empty array only). *)
Definition Math_max (xs : list Q) : option Q :=
  foldl (λ acc x, Some match acc with None => x | Some m => Qmax m x end) None xs.

(** [arr.reduce((acc, b, idx, arr) => pick(b, arr[acc]) ? idx : acc, 0)]:
    the index reduction shared by the two victim searches.  [arr[acc]] is
    always defined when the callback runs; the [None] branch is there for
    totality only. *)
Definition reduce_index (pick : CacheBlock → CacheBlock → bool)
    (arr : list CacheBlock) : nat :=
  foldl (λ acc ib,
           match arr !! acc with
           | Some cur => if pick ib.2 cur then ib.1 else acc
           | None => acc
           end)
        0%nat (imap pair arr).

(** ** The model simulation (lines 35-48) *)

(** The exact reading: the same expressions as the code, over [Q].  The
    binary64 reading of the same lines is [predictReuseProb64] below. *)
Definition predictReuseProb (freq recency : N) (type : WorkloadType) : Q :=
  match type with
  | Friendly =>
      let baseScore := 0.4 + (1 / inject_Z (Z.of_N recency + 1)) * 0.3 in
      Qmin 0.85 baseScore
  | Hostile =>
      if (2 <=? freq)%N then 0.95
      else if (freq =? 1)%N then 0.4
      else 0.1
  end.

(** ** Field updates of a block *)

(** [b.score = predictReuseProb(b.frequency, b.recency, workload)] *)
Definition rescore (w : WorkloadType) (b : CacheBlock) : CacheBlock :=
  {| id := id b; recency := recency b; frequency := frequency b;
     score := predictReuseProb (frequency b) (recency b) w |}.

(** [b.recency += 1] *)
Definition bump (b : CacheBlock) : CacheBlock :=
  {| id := id b; recency := (recency b + 1)%N; frequency := frequency b;
     score := score b |}.

(** [b.frequency += 1; b.recency = 0] (lines 60-61) *)
Definition touch (b : CacheBlock) : CacheBlock :=
  {| id := id b; recency := 0%N; frequency := (frequency b + 1)%N;
     score := score b |}.

(** The body of the [forEach] of the two miss paths (lines 83-86, 91-94). *)
Definition age (w : WorkloadType) (b : CacheBlock) : CacheBlock :=
  rescore w (bump b).

(** The body of the [forEach] of the hit path (lines 63-66). *)
Definition age_except (w : WorkloadType) (hitIndex idx : nat)
    (b : CacheBlock) : CacheBlock :=
  rescore w (if decide (idx ≠ hitIndex) then bump b else b).

(** ** The access handler (lines 50-127) *)

(** The block built on a miss (lines 73-78). *)
Definition newBlock (w : WorkloadType) (blockId : string) : CacheBlock :=
  {| id := blockId; recency := 0%N; frequency := 1%N;
     score := predictReuseProb 1 0 w |}.

(** The ML victim search (lines 105-107). *)
Definition min_score_index (arr : list CacheBlock) : nat :=
  reduce_index (λ b cur, Qltb (score b) (score cur)) arr.

(** The LRU victim search (lines 112-114). *)
Definition max_recency_index (arr : list CacheBlock) : nat :=
  reduce_index (λ b cur, (recency cur <? recency b)%N) arr.

(** What is left of the state when the updater throws: only the
    [setLastAction] of line 51 has happened. *)
Definition thrown (st : SimState) (blockId : string) : SimState :=
  {| cache := cache st; workload := workload st;
     lastAction := "Accessing Block " +:+ blockId +:+ "...";
     confidence := confidence st; decisionMode := decisionMode st |}.

(** The confidence gate (lines 100-117): the victim index, the method
    text and the decision mode, from [maxScore] and the aged array. *)
Definition select_victim (maxScore : Q) (newCache : list CacheBlock)
    : nat * string * DecisionMode :=
  if Qltb CONFIDENCE_THRESHOLD maxScore
  then (min_score_index newCache, "ML (Confidence > 0.88)", ML)
  else (max_recency_index newCache, "LRU Fallback (Confidence Low)",
        LRU_FALLBACK).

(** The eviction branch (lines 90-123), on the copied array. *)
Definition evict (st : SimState) (blockId : string) : SimState :=
  let w := workload st in
  let newCache := age w <$> cache st in
  let scores := score <$> newCache in
  match Math_max scores with
  | None =>
      (* empty array: [newCache[0]] is undefined and [victim.id] throws *)
      thrown st blockId
  | Some maxScore =>
      let '(victimIndex, method, mode) := select_victim maxScore newCache in
      match newCache !! victimIndex with
      | None => thrown st blockId
      | Some victim =>
          {| cache := <[victimIndex := newBlock w blockId]> newCache;
             workload := w;
             lastAction := "Evicted " +:+ id victim +:+ " via " +:+ method
                           +:+ ". Inserted " +:+ blockId +:+ ".";
             confidence := maxScore;
             decisionMode := mode |}
      end
  end.

Definition access (st : SimState) (blockId : string) : SimState :=
  let w := workload st in
  let prevCache := cache st in
  match list_find (λ b, id b = blockId) prevCache with
  | Some (hitIndex, _) =>
      (* HIT *)
      let c1 := alter touch hitIndex prevCache in
      let c2 := imap (age_except w hitIndex) c1 in
      let c3 := alter (rescore w) hitIndex c2 in
      {| cache := c3;
         workload := w;
         lastAction := "HIT on Block " +:+ blockId +:+ ". Updated features.";
         confidence := confidence st;
         decisionMode := IDLE |}
  | None =>
      (* MISS *)
      if decide (length prevCache < CAPACITY)%nat then
        {| cache := (age w <$> prevCache) ++ [newBlock w blockId];
           workload := w;
           lastAction := "MISS. Inserted Block " +:+ blockId +:+ ".";
           confidence := confidence st;
           decisionMode := IDLE |}
      else evict st blockId
  end.

(** The two workload buttons (lines 143, 149): [setWorkload]. *)
Definition setWorkload (w : WorkloadType) (st : SimState) : SimState :=
  {| cache := cache st; workload := w; lastAction := lastAction st;
     confidence := confidence st; decisionMode := decisionMode st |}.

(** ** Runs of user events *)

Inductive Event := Access (blockId : string) | SetWorkload (w : WorkloadType).

Definition step (st : SimState) (e : Event) : SimState :=
  match e with
  | Access blockId => access st blockId
  | SetWorkload w => setWorkload w st
  end.

Definition run (st : SimState) (es : list Event) : SimState := foldl step st es.

Definition accesses (ids : list string) : list Event := Access <$> ids.

(** * Properties *)

(** ** Comparisons and the running maximum *)

Lemma Qltb_lt (x y : Q) : Qltb x y = true ↔ x < y.
Proof.
  unfold Qltb. rewrite negb_true_iff, <- not_true_iff_false, Qle_bool_iff.
  split; [apply Qnot_le_lt | apply Qlt_not_le].
Qed.

Lemma Qltb_ge (x y : Q) : Qltb x y = false ↔ y <= x.
Proof. unfold Qltb. by rewrite negb_false_iff, Qle_bool_iff. Qed.

Lemma Qmax_cases (x y : Q) : (Qmax x y = x ∧ y <= x) ∨ (Qmax x y = y ∧ x <= y).
Proof.
  unfold Qmax, GenericMinMax.gmax.
  destruct (x ?= y) eqn:E.
  - left. split; [done|]. apply Qeq_alt in E. rewrite E. apply Qle_refl.
  - right. split; [done|]. apply Qlt_alt in E. by apply Qlt_le_weak.
  - left. split; [done|]. apply Qgt_alt in E. by apply Qlt_le_weak.
Qed.

(** [m] is a maximum of [xs]: it occurs in [xs] and bounds every entry. *)
Definition is_max (m : Q) (xs : list Q) : Prop :=
  m ∈ xs ∧ ∀ x, x ∈ xs → x <= m.

Lemma Math_max_snoc xs x :
  Math_max (xs ++ [x]) =
  Some match Math_max xs with None => x | Some m => Qmax m x end.
Proof. unfold Math_max. by rewrite foldl_snoc. Qed.

Lemma Math_max_is_max xs : xs ≠ [] → ∃ m, Math_max xs = Some m ∧ is_max m xs.
Proof.
  induction xs as [|x xs IH] using rev_ind; [done|]. intros _.
  rewrite Math_max_snoc. destruct xs as [|y ys _] using rev_ind.
  - exists x. split; [done|]. split; [by apply list_elem_of_singleton|].
    intros z ->%list_elem_of_singleton. apply Qle_refl.
  - destruct IH as (m & -> & Hin & Hub); [by destruct ys|].
    eexists. split; [done|].
    destruct (Qmax_cases m x) as [[-> Hle]|[-> Hle]]; split.
    + apply elem_of_app. by left.
    + intros z [Hz| ->%list_elem_of_singleton]%elem_of_app; auto.
    + apply elem_of_app. right. by apply list_elem_of_singleton.
    + intros z [Hz| ->%list_elem_of_singleton]%elem_of_app;
        [eapply Qle_trans; eauto | apply Qle_refl].
Qed.

Lemma Math_max_None xs : Math_max xs = None ↔ xs = [].
Proof.
  split; [|by intros ->].
  destruct xs as [|x xs _] using rev_ind; [done|]. by rewrite Math_max_snoc.
Qed.

(** ** The index reduction finds the first best entry *)

Section reduce.
Variable pick : CacheBlock → CacheBlock → bool.
Hypothesis pick_irrefl : ∀ a, pick a a = false.
Hypothesis pick_trans :
  ∀ a b c, pick a b = true → pick b c = true → pick a c = true.
Hypothesis pick_negtrans :
  ∀ a b c, pick a b = false → pick b c = false → pick a c = false.

(** [r] indexes an entry that no entry beats and that beats every
    entry before it. *)
Definition first_best (arr : list CacheBlock) (r : nat) : Prop :=
  ∃ v, arr !! r = Some v
     ∧ (∀ j x, arr !! j = Some x → pick x v = false)
     ∧ (∀ j x, (j < r)%nat → arr !! j = Some x → pick v x = true).

(** The same, among the first [k] entries only. *)
Let best_upto (arr : list CacheBlock) (k r : nat) : Prop :=
  ∃ v, (r < k)%nat ∧ arr !! r = Some v
     ∧ (∀ j x, (j < k)%nat → arr !! j = Some x → pick x v = false)
     ∧ (∀ j x, (j < r)%nat → arr !! j = Some x → pick v x = true).

Let body (arr : list CacheBlock) (acc : nat) (ib : nat * CacheBlock) : nat :=
  match arr !! acc with
  | Some cur => if pick ib.2 cur then ib.1 else acc
  | None => acc
  end.

Lemma reduce_body_step arr k acc b :
  arr !! k = Some b →
  (k = 0 ∧ acc = 0)%nat ∨ best_upto arr k acc →
  best_upto arr (S k) (body arr acc (k, b)).
Proof.
  intros Hb [[-> ->]|(v & Hlt & Hv & Hno & Hfirst)]; unfold body; simpl.
  - rewrite Hb, pick_irrefl. exists b. split_and!; [lia|done| |intros; lia].
    intros j x Hj Hx. assert (j = 0)%nat as -> by lia.
    rewrite Hb in Hx. injection Hx as <-. apply pick_irrefl.
  - rewrite Hv. destruct (pick b v) eqn:Hpick.
    + exists b. split_and!; [lia|done| |].
      * intros j x Hj Hx. destruct (decide (j = k)) as [->|Hne].
        { rewrite Hb in Hx. injection Hx as <-. apply pick_irrefl. }
        destruct (pick x b) eqn:Hxb; [|done].
        rewrite <- (Hno j x); [|lia|done]. symmetry. eauto.
      * intros j x Hj Hx.
        destruct (pick b x) eqn:Hbx; [done|].
        rewrite <- Hpick. symmetry. eapply pick_negtrans; [done|].
        apply (Hno j); [lia|done].
    + exists v. split_and!; [lia|done| |done].
      intros j x Hj Hx. destruct (decide (j = k)) as [->|Hne].
      * rewrite Hb in Hx. by injection Hx as <-.
      * apply (Hno j); [lia|done].
Qed.

Lemma reduce_foldl_inv arr suf : ∀ pre acc,
  arr = pre ++ suf →
  (length pre = 0 ∧ acc = 0)%nat ∨ best_upto arr (length pre) acc →
  suf ≠ [] ∨ pre ≠ [] →
  best_upto arr (length arr)
    (foldl (body arr) acc (imap (λ i x, ((length pre + i)%nat, x)) suf)).
Proof.
  induction suf as [|b suf IH]; intros pre acc Harr Hinv Hne.
  - simpl. rewrite app_nil_r in Harr. subst arr.
    destruct Hinv as [[Hlen _]|Hinv]; [|done].
    destruct Hne as [?|?]; [done|]. by destruct pre.
  - rewrite imap_cons. simpl.
    assert (arr !! length pre = Some b) as Hb.
    { rewrite Harr. by rewrite list_lookup_middle. }
    rewrite Nat.add_0_r.
    erewrite imap_ext; [apply (IH (pre ++ [b]))|].
    + by rewrite <- app_assoc.
    + right. rewrite length_app. simpl. rewrite Nat.add_1_r.
      apply reduce_body_step; [done|].
      destruct Hinv as [[? ?]|?]; [by left|by right].
    + right. by destruct pre.
    + intros i x _. simpl. rewrite length_app. simpl. f_equal. lia.
Qed.

Lemma reduce_index_first_best arr :
  arr ≠ [] → first_best arr (reduce_index pick arr).
Proof.
  intros Hne.
  destruct (reduce_foldl_inv arr arr [] 0%nat) as (v & Hlt & Hv & Hno & Hfirst);
    [done|by left|by left|].
  exists v. split_and!; [done| |done].
  intros j x Hx. apply (Hno j); [|done]. by eapply lookup_lt_Some.
Qed.
End reduce.

(** ** The scoring function *)

(** The Friendly base score is [0.4 + 0.3 / (recency + 1)], written as one
    fraction over the positive [recency + 1]. *)
Lemma friendly_base (recency : N) :
  0.4 + (1 / inject_Z (Z.of_N recency + 1)) * 0.3
  == (4 * Z.pos (N.succ_pos recency) + 3) # (10 * N.succ_pos recency).
Proof.
  assert (Z.of_N recency + 1 = Z.pos (N.succ_pos recency))%Z as ->.
  { pose proof (N.succ_pos_spec recency). lia. }
  unfold Qeq, Qdiv, Qinv, Qmult, Qplus, inject_Z. simpl. lia.
Qed.

Lemma friendly_base_div (recency : N) :
  0.4 + (1 / inject_Z (Z.of_N recency + 1)) * 0.3
  == 0.4 + 0.3 / inject_Z (Z.of_N recency + 1).
Proof.
  assert (Z.of_N recency + 1 = Z.pos (N.succ_pos recency))%Z as ->.
  { pose proof (N.succ_pos_spec recency). lia. }
  unfold Qeq, Qdiv, Qinv, Qmult, Qplus, inject_Z. simpl. lia.
Qed.

Lemma friendly_base_bounds (recency : N) :
  0.4 < 0.4 + (1 / inject_Z (Z.of_N recency + 1)) * 0.3 <= 0.7.
Proof.
  rewrite friendly_base. unfold Qlt, Qle. simpl. lia.
Qed.

Lemma friendly_uncapped (freq recency : N) :
  predictReuseProb freq recency Friendly
  == 0.4 + (1 / inject_Z (Z.of_N recency + 1)) * 0.3.
Proof.
  unfold predictReuseProb. apply Q.min_r.
  eapply Qle_trans; [apply friendly_base_bounds|]. by unfold Qle.
Qed.

Lemma hostile_cases (freq recency : N) :
  predictReuseProb freq recency Hostile =
  if decide (2 <= freq)%N then 0.95
  else if decide (freq = 1)%N then 0.4 else 0.1.
Proof.
  unfold predictReuseProb.
  destruct (N.leb_spec 2 freq); [by rewrite decide_True|].
  rewrite decide_False by lia.
  destruct (N.eqb_spec freq 1); [by rewrite decide_True|by rewrite decide_False].
Qed.

(** ** The two victim searches *)

(** [v] indexes [victim], a block of least score, and is the first such
    index. *)
Definition min_score_first (arr : list CacheBlock) (v : nat)
    (victim : CacheBlock) : Prop :=
  arr !! v = Some victim
  ∧ (∀ j x, arr !! j = Some x → score victim <= score x)
  ∧ (∀ j x, (j < v)%nat → arr !! j = Some x → score victim < score x).

(** [v] indexes [victim], a block of greatest recency, and is the first
    such index. *)
Definition max_recency_first (arr : list CacheBlock) (v : nat)
    (victim : CacheBlock) : Prop :=
  arr !! v = Some victim
  ∧ (∀ j x, arr !! j = Some x → (recency x <= recency victim)%N)
  ∧ (∀ j x, (j < v)%nat → arr !! j = Some x → (recency x < recency victim)%N).

Lemma min_score_index_spec arr :
  arr ≠ [] → ∃ victim, min_score_first arr (min_score_index arr) victim.
Proof.
  intros Hne. unfold min_score_index.
  destruct (reduce_index_first_best
              (λ b cur, Qltb (score b) (score cur))) with (arr := arr)
    as (v & Hv & Hno & Hfirst); [| | |done|].
  - intros a. apply Qltb_ge, Qle_refl.
  - intros a b c ?%Qltb_lt ?%Qltb_lt. apply Qltb_lt. by eapply Qlt_trans.
  - intros a b c ?%Qltb_ge ?%Qltb_ge. apply Qltb_ge. by eapply Qle_trans.
  - exists v. split_and!; [done| |].
    + intros j x Hx. by eapply Qltb_ge, Hno.
    + intros j x Hj Hx. by eapply Qltb_lt, Hfirst.
Qed.

Lemma max_recency_index_spec arr :
  arr ≠ [] → ∃ victim, max_recency_first arr (max_recency_index arr) victim.
Proof.
  intros Hne. unfold max_recency_index.
  destruct (reduce_index_first_best
              (λ b cur, (recency cur <? recency b)%N)) with (arr := arr)
    as (v & Hv & Hno & Hfirst); [| | |done|].
  - intros a. apply N.ltb_irrefl.
  - intros a b c ?%N.ltb_lt ?%N.ltb_lt. apply N.ltb_lt. lia.
  - intros a b c ?%N.ltb_ge ?%N.ltb_ge. apply N.ltb_ge. lia.
  - exists v. split_and!; [done| |].
    + intros j x Hx. by eapply N.ltb_ge, Hno.
    + intros j x Hj Hx. by eapply N.ltb_lt, Hfirst.
Qed.

(** ** The three paths of [access] *)

Lemma miss_not_resident (l : list CacheBlock) (blockId : string) :
  list_find (λ b, id b = blockId) l = None ↔ blockId ∉ id <$> l.
Proof.
  rewrite list_find_None, Forall_forall, list_elem_of_fmap. split.
  - intros Hall (b & -> & Hb). by apply (Hall b).
  - intros Hnot b Hb Heq. apply Hnot. by exists b.
Qed.

Lemma hit_resident (l : list CacheBlock) (blockId : string) :
  blockId ∈ id <$> l →
  ∃ hitIndex hit, list_find (λ b, id b = blockId) l = Some (hitIndex, hit).
Proof.
  intros Hin. destruct (list_find _ l) as [[i b]|] eqn:Hfind; [eauto|].
  by apply miss_not_resident in Hfind.
Qed.

Lemma rescore_rescore w b : rescore w (rescore w b) = rescore w b.
Proof. done. Qed.

Lemma access_hit_lookup st blockId hitIndex hit j :
  list_find (λ b, id b = blockId) (cache st) = Some (hitIndex, hit) →
  cache (access st blockId) !! j =
  (λ b, if decide (j = hitIndex) then rescore (workload st) (touch b)
        else age (workload st) b) <$> cache st !! j.
Proof.
  intros Hfind. unfold access. rewrite Hfind. simpl.
  destruct (decide (j = hitIndex)) as [->|Hne].
  - rewrite list_lookup_alter_eq, list_lookup_imap, list_lookup_alter_eq.
    destruct (cache st !! hitIndex) as [b|]; [|done]. simpl.
    unfold age_except. by rewrite decide_False by (intros ?; done).
  - rewrite list_lookup_alter_ne, list_lookup_imap, list_lookup_alter_ne by done.
    destruct (cache st !! j) as [b|]; [|done]. simpl.
    unfold age_except. by rewrite decide_True.
Qed.

Lemma access_hit_length st blockId hitIndex hit :
  list_find (λ b, id b = blockId) (cache st) = Some (hitIndex, hit) →
  length (cache (access st blockId)) = length (cache st).
Proof.
  intros Hfind. unfold access. rewrite Hfind. simpl.
  by rewrite length_alter, length_imap, length_alter.
Qed.

Lemma access_insert st blockId :
  blockId ∉ id <$> cache st → (length (cache st) < CAPACITY)%nat →
  access st blockId =
  {| cache := (age (workload st) <$> cache st) ++ [newBlock (workload st) blockId];
     workload := workload st;
     lastAction := "MISS. Inserted Block " +:+ blockId +:+ ".";
     confidence := confidence st;
     decisionMode := IDLE |}.
Proof.
  intros Hmiss%miss_not_resident Hlt. unfold access.
  by rewrite Hmiss, decide_True.
Qed.

Lemma access_evict st blockId :
  blockId ∉ id <$> cache st → ¬ (length (cache st) < CAPACITY)%nat →
  access st blockId = evict st blockId.
Proof.
  intros Hmiss%miss_not_resident Hlt. unfold access.
  by rewrite Hmiss, decide_False.
Qed.

(** On a non-empty array the eviction branch never throws: it reports the
    maximum score and replaces the block that the gate selected. *)
Lemma evict_defined st blockId :
  cache st ≠ [] →
  let w := workload st in
  let aged := age w <$> cache st in
  ∃ maxScore v method mode victim,
    Math_max (score <$> aged) = Some maxScore
    ∧ is_max maxScore (score <$> aged)
    ∧ select_victim maxScore aged = (v, method, mode)
    ∧ aged !! v = Some victim
    ∧ evict st blockId =
      {| cache := <[v := newBlock w blockId]> aged;
         workload := w;
         lastAction := "Evicted " +:+ id victim +:+ " via " +:+ method
                       +:+ ". Inserted " +:+ blockId +:+ ".";
         confidence := maxScore;
         decisionMode := mode |}.
Proof.
  intros Hne w aged.
  assert (aged ≠ []) as Haged by (subst aged; by destruct (cache st)).
  destruct (Math_max_is_max (score <$> aged)) as (m & Hm & Hmax);
    [by destruct aged|].
  destruct (select_victim m aged) as [[v method] mode] eqn:Hsel.
  assert (∃ victim, aged !! v = Some victim) as [victim Hv].
  { unfold select_victim in Hsel.
    destruct (Qltb CONFIDENCE_THRESHOLD m); injection Hsel as <- _ _.
    - destruct (min_score_index_spec aged Haged) as (x & ? & _); eauto.
    - destruct (max_recency_index_spec aged Haged) as (x & ? & _); eauto. }
  exists m, v, method, mode, victim. split_and!; [done..|].
  unfold evict. fold w. fold aged. by rewrite Hm, Hsel, Hv.
Qed.

Lemma full_nonempty st :
  ¬ (length (cache st) < CAPACITY)%nat → cache st ≠ [].
Proof. intros Hfull Hnil. apply Hfull. rewrite Hnil. unfold CAPACITY. simpl. lia. Qed.

(** The outcome of a miss on a full cache, in one equation. *)
Lemma capacity_miss_outcome st blockId :
  blockId ∉ id <$> cache st →
  ¬ (length (cache st) < CAPACITY)%nat →
  let w := workload st in
  let aged := age w <$> cache st in
  ∃ maxScore v victim,
    is_max maxScore (score <$> aged)
    ∧ aged !! v = Some victim
    ∧ (if Qltb CONFIDENCE_THRESHOLD maxScore
       then min_score_first aged v victim
       else max_recency_first aged v victim)
    ∧ access st blockId =
      {| cache := <[v := newBlock w blockId]> aged;
         workload := w;
         lastAction :=
           "Evicted " +:+ id victim +:+ " via "
           +:+ (if Qltb CONFIDENCE_THRESHOLD maxScore
                then "ML (Confidence > 0.88)"
                else "LRU Fallback (Confidence Low)")
           +:+ ". Inserted " +:+ blockId +:+ ".";
         confidence := maxScore;
         decisionMode :=
           if Qltb CONFIDENCE_THRESHOLD maxScore then ML else LRU_FALLBACK |}.
Proof.
  intros Hmiss Hfull w aged. rewrite access_evict by done.
  destruct (evict_defined st blockId (full_nonempty st Hfull))
    as (m & v & method & mode & victim & _ & Hmax & Hsel & Hv & ->).
  fold w aged in Hmax, Hsel, Hv |- *.
  assert (aged ≠ []) as Hne by (intros Hnil; by rewrite Hnil in Hv).
  exists m, v, victim. unfold select_victim in Hsel.
  destruct (Qltb CONFIDENCE_THRESHOLD m); injection Hsel as <- <- <-;
    (split_and!; [done|done| |done]).
  - destruct (min_score_index_spec aged Hne) as (x & Hx).
    destruct Hx as (Hx & ?). rewrite Hv in Hx. injection Hx as <-.
    by split.
  - destruct (max_recency_index_spec aged Hne) as (x & Hx).
    destruct Hx as (Hx & ?). rewrite Hv in Hx. injection Hx as <-.
    by split.
Qed.

(** ** Frame facts shared by the claims *)

Lemma access_workload st blockId : workload (access st blockId) = workload st.
Proof.
  unfold access. destruct (list_find _ _) as [[i b]|]; [done|].
  destruct (decide _); [done|]. unfold evict.
  destruct (Math_max _); [|done].
  destruct (select_victim _ _) as [[v method] mode].
  by destruct (_ !! v).
Qed.

Lemma age_ids w (l : list CacheBlock) : id <$> (age w <$> l) = id <$> l.
Proof. rewrite <- list_fmap_compose. by apply list_fmap_ext. Qed.

(** A block of the cache after an access carries the score of its own
    counters under the workload of that access. *)
Lemma access_scores_fresh st blockId b :
  b ∈ cache (access st blockId) →
  score b = predictReuseProb (frequency b) (recency b) (workload st).
Proof.
  destruct (list_find (λ b, id b = blockId) (cache st)) as [[i hit]|] eqn:Hfind.
  - intros [j Hj]%list_elem_of_lookup.
    rewrite (access_hit_lookup _ _ _ _ _ Hfind) in Hj.
    destruct (cache st !! j) as [x|]; [|done]. injection Hj as <-.
    by destruct (decide (j = i)).
  - apply miss_not_resident in Hfind.
    destruct (decide (length (cache st) < CAPACITY)%nat) as [Hlt|Hfull].
    + rewrite access_insert by done. simpl.
      intros [(x & -> & _)%list_elem_of_fmap| ->%list_elem_of_singleton]%elem_of_app;
        done.
    + destruct (capacity_miss_outcome st blockId Hfind Hfull)
        as (m & v & victim & _ & _ & _ & ->). simpl.
      intros [j Hj]%list_elem_of_lookup.
      apply list_lookup_insert_Some in Hj as [(_ & <- & _)|[_ Hj]]; [done|].
      apply list_lookup_fmap_Some in Hj as (x & -> & _). done.
Qed.

Lemma access_length_mono st blockId :
  (length (cache st) <= length (cache (access st blockId)))%nat.
Proof.
  destruct (list_find (λ b, id b = blockId) (cache st)) as [[i hit]|] eqn:Hfind.
  - by rewrite (access_hit_length _ _ _ _ Hfind).
  - apply miss_not_resident in Hfind.
    destruct (decide (length (cache st) < CAPACITY)%nat) as [Hlt|Hfull].
    + rewrite access_insert by done. simpl.
      rewrite length_app, length_fmap. simpl. lia.
    + destruct (capacity_miss_outcome st blockId Hfind Hfull)
        as (m & v & victim & _ & _ & _ & ->). simpl.
      by rewrite length_insert, length_fmap.
Qed.

Lemma access_length_bound st blockId :
  (length (cache st) <= CAPACITY)%nat →
  (length (cache (access st blockId)) <= CAPACITY)%nat.
Proof.
  intros Hle.
  destruct (list_find (λ b, id b = blockId) (cache st)) as [[i hit]|] eqn:Hfind.
  - by rewrite (access_hit_length _ _ _ _ Hfind).
  - apply miss_not_resident in Hfind.
    destruct (decide (length (cache st) < CAPACITY)%nat) as [Hlt|Hfull].
    + rewrite access_insert by done. simpl.
      rewrite length_app, length_fmap. simpl. lia.
    + destruct (capacity_miss_outcome st blockId Hfind Hfull)
        as (m & v & victim & _ & _ & _ & ->). simpl.
      by rewrite length_insert, length_fmap.
Qed.

Lemma run_app st es1 es2 : run st (es1 ++ es2) = run (run st es1) es2.
Proof. apply foldl_app. Qed.

Lemma run_length_bound es : ∀ st,
  (length (cache st) <= CAPACITY)%nat →
  (length (cache (run st es)) <= CAPACITY)%nat.
Proof.
  induction es as [|e es IH]; intros st Hle; [done|].
  apply IH. destruct e as [blockId|w]; [|done]. by apply access_length_bound.
Qed.

Lemma run_length_mono es : ∀ st,
  (length (cache st) <= length (cache (run st es)))%nat.
Proof.
  induction es as [|e es IH]; intros st; [done|].
  etrans; [|apply IH]. destruct e as [blockId|w]; [|done].
  apply access_length_mono.
Qed.

Lemma access_hit_ids st blockId :
  blockId ∈ id <$> cache st →
  id <$> cache (access st blockId) = id <$> cache st.
Proof.
  intros (i & hit & Hfind)%hit_resident. apply list_eq. intros j.
  rewrite !list_lookup_fmap, (access_hit_lookup _ _ _ _ _ Hfind).
  destruct (cache st !! j) as [x|]; [|done]. simpl.
  by destruct (decide (j = i)).
Qed.

Lemma access_evict_ids st blockId :
  blockId ∉ id <$> cache st →
  ¬ (length (cache st) < CAPACITY)%nat →
  ∃ v, (v < length (cache st))%nat
     ∧ id <$> cache (access st blockId) = <[v := blockId]> (id <$> cache st).
Proof.
  intros Hmiss Hfull.
  destruct (capacity_miss_outcome st blockId Hmiss Hfull)
    as (m & v & victim & _ & Hv & _ & ->).
  exists v. split.
  - apply lookup_lt_Some in Hv. by rewrite length_fmap in Hv.
  - simpl. by rewrite list_fmap_insert, age_ids.
Qed.

(** The ids of the resident blocks stay pairwise distinct, so "the block
    with a given id" is one block in every state that a run reaches. *)
Lemma access_ids_unique st blockId :
  NoDup (id <$> cache st) → NoDup (id <$> cache (access st blockId)).
Proof.
  intros Hnd.
  destruct (decide (blockId ∈ id <$> cache st)) as [Hhit|Hmiss].
  { by rewrite access_hit_ids. }
  destruct (decide (length (cache st) < CAPACITY)%nat) as [Hlt|Hfull].
  - rewrite access_insert by done. simpl.
    rewrite fmap_app, age_ids. apply NoDup_app. split_and!; [done| |].
    + intros x Hx ->%list_elem_of_singleton. done.
    + apply NoDup_singleton.
  - destruct (access_evict_ids st blockId Hmiss Hfull) as (v & Hv & ->).
    apply NoDup_alt. intros i j x Hi Hj.
    apply list_lookup_insert_Some in Hi as [(<- & <- & _)|[Hvi Hi]];
      apply list_lookup_insert_Some in Hj as [(<- & Hx & _)|[Hvj Hj]].
    + done.
    + destruct Hmiss. eapply list_elem_of_lookup_2, Hj.
    + subst x. destruct Hmiss. eapply list_elem_of_lookup_2, Hi.
    + eapply NoDup_lookup; eauto.
Qed.

Lemma run_ids_unique es : NoDup (id <$> cache (run initial es)).
Proof.
  assert (∀ st, NoDup (id <$> cache st) → NoDup (id <$> cache (run st es)))
    as Hrun.
  { induction es as [|e es IH]; intros st Hnd; [done|].
    apply IH. destruct e as [blockId|w]; [|done]. by apply access_ids_unique. }
  apply Hrun. apply NoDup_nil_2.
Qed.

(** ** The stored scores are never read *)

(** The state with another array in the [cache] cell. *)
Definition with_cache (c : list CacheBlock) (st : SimState) : SimState :=
  {| cache := c; workload := workload st; lastAction := lastAction st;
     confidence := confidence st; decisionMode := decisionMode st |}.

(** A block with its stored score blanked. *)
Definition strip (b : CacheBlock) : CacheBlock :=
  {| id := id b; recency := recency b; frequency := frequency b; score := 0 |}.

Lemma age_strip w (l : list CacheBlock) : age w <$> (strip <$> l) = age w <$> l.
Proof. rewrite <- list_fmap_compose. by apply list_fmap_ext. Qed.

Lemma strip_ids (l : list CacheBlock) : id <$> (strip <$> l) = id <$> l.
Proof. rewrite <- list_fmap_compose. by apply list_fmap_ext. Qed.

Lemma list_find_strip (l : list CacheBlock) blockId i hit :
  list_find (λ b, id b = blockId) l = Some (i, hit) →
  list_find (λ b, id b = blockId) (strip <$> l) = Some (i, strip hit).
Proof.
  rewrite !list_find_Some. intros (Hi & Hid & Hfirst). split_and!.
  - by rewrite list_lookup_fmap, Hi.
  - done.
  - intros j y (x & -> & Hx)%list_lookup_fmap_Some Hj. by apply (Hfirst j x).
Qed.

Lemma access_hit st blockId hitIndex hit :
  list_find (λ b, id b = blockId) (cache st) = Some (hitIndex, hit) →
  access st blockId =
  {| cache := cache (access st blockId);
     workload := workload st;
     lastAction := "HIT on Block " +:+ blockId +:+ ". Updated features.";
     confidence := confidence st;
     decisionMode := IDLE |}.
Proof. intros Hfind. unfold access. by rewrite Hfind. Qed.

(** Blanking every stored score before an access changes nothing of its
    result. *)
Lemma access_ignores_scores st blockId :
  access (with_cache (strip <$> cache st) st) blockId = access st blockId.
Proof.
  destruct (list_find (λ b, id b = blockId) (cache st)) as [[i hit]|] eqn:Hfind.
  - pose proof (list_find_strip _ _ _ _ Hfind) as Hfind0.
    rewrite (access_hit st _ _ _ Hfind).
    rewrite (access_hit (with_cache _ st) _ _ _ Hfind0). simpl. f_equal.
    apply list_eq. intros j.
    rewrite (access_hit_lookup st _ _ _ _ Hfind).
    rewrite (access_hit_lookup (with_cache _ st) _ _ _ _ Hfind0). simpl.
    rewrite list_lookup_fmap. by destruct (cache st !! j).
  - apply miss_not_resident in Hfind.
    assert (blockId ∉ id <$> cache (with_cache (strip <$> cache st) st))
      as Hfind0 by (simpl; by rewrite strip_ids).
    assert (length (cache (with_cache (strip <$> cache st) st))
            = length (cache st)) as Hlen0 by apply length_fmap.
    destruct (decide (length (cache st) < CAPACITY)%nat) as [Hlt|Hfull].
    + rewrite (access_insert st) by done.
      rewrite (access_insert (with_cache _ st)) by (done || lia).
      simpl. by rewrite age_strip.
    + rewrite (access_evict st) by done.
      rewrite (access_evict (with_cache _ st)) by (done || lia).
      destruct (evict_defined st blockId (full_nonempty st Hfull))
        as (m & v & method & mode & victim & Hm & _ & Hsel & Hv & ->).
      unfold evict. simpl. rewrite age_strip. by rewrite Hm, Hsel, Hv.
Qed.

Lemma access_hit_find st blockId hitIndex hit :
  list_find (λ b, id b = blockId) (cache st) = Some (hitIndex, hit) →
  list_find (λ b, id b = blockId) (cache (access st blockId))
  = Some (hitIndex, rescore (workload st) (touch hit)).
Proof.
  intros Hfind. pose proof Hfind as (Hi & Hid & Hfirst)%list_find_Some.
  apply list_find_Some. split_and!.
  - rewrite (access_hit_lookup _ _ _ _ _ Hfind), Hi. simpl.
    by rewrite decide_True.
  - done.
  - intros j y Hy Hj. rewrite (access_hit_lookup _ _ _ _ _ Hfind) in Hy.
    destruct (cache st !! j) as [x|] eqn:Hx; [|done]. injection Hy as <-.
    rewrite decide_False by lia. by apply (Hfirst j x).
Qed.

(** ** Binary64 reading of the score comparisons

    The handler compares scores in three places: inside [Math.max], at
    the gate ([maxScore > 0.88]) and in the ML victim search
    ([b.score < arr[minIdx].score]).  The scoring function is embedded
    once more below over IEEE-754 binary64 ([53] bits of precision,
    [emax = 1024], round to nearest even), to show that the gate and the
    ML search compare binary64 scores exactly as they compare the exact
    rationals: rounding never changes a decision. *)

(** A natural number as a double. *)
Definition b64_of_N (n : N) : spec_float :=
  binary_normalize 53 1024 (Z.of_N n) 0 false.

(** The double that a decimal literal [num/den] denotes. *)
Definition b64_lit (num den : N) : spec_float :=
  SFdiv 53 1024 (b64_of_N num) (b64_of_N den).

(** [Math.min(x, y)] on doubles: [NaN] if either is, [-0] below [+0]. *)
Definition Math_min64 (x y : spec_float) : spec_float :=
  match SFcompare x y with
  | None => S754_nan
  | Some Gt => y
  | Some Lt => x
  | Some Eq => match y with S754_zero true => y | _ => x end
  end.

(** [predictReuseProb] (lines 35-48) over doubles. *)
Definition predictReuseProb64 (freq recency : N) (type : WorkloadType)
    : spec_float :=
  match type with
  | Friendly =>
      let baseScore :=
        SFadd 53 1024 (b64_lit 4 10)
          (SFmul 53 1024
             (SFdiv 53 1024 (b64_of_N 1)
                (SFadd 53 1024 (b64_of_N recency) (b64_of_N 1)))
             (b64_lit 3 10)) in
      Math_min64 (b64_lit 85 100) baseScore
  | Hostile =>
      if (2 <=? freq)%N then b64_lit 95 100
      else if (freq =? 1)%N then b64_lit 4 10
      else b64_lit 1 10
  end.

Lemma b64_lit_085 : b64_lit 85 100 = S754_finite false 7656119366529843 (-53).
Proof. by vm_compute. Qed.

Lemma b64_lit_088 : b64_lit 88 100 = S754_finite false 7926335344172073 (-53).
Proof. by vm_compute. Qed.

(** Whatever [x] is, [Math.min(0.85, x) > 0.88] is false. *)
Lemma Math_min64_cap (x : spec_float) :
  SFltb (b64_lit 88 100) (Math_min64 (b64_lit 85 100) x) = false.
Proof.
  rewrite b64_lit_085, b64_lit_088.
  destruct x as [[|]|[|]| |[|] m e]; try reflexivity.
  unfold Math_min64, SFltb, SFcompare.
  change (Pos.compare_cont Eq) with Pos.compare.
  destruct (Z.compare_spec (-53) e) as [<-|Hlt|Hgt].
  - destruct (Pos.compare_spec 7656119366529843 m) as [<-|Hm|Hm];
      [reflexivity|reflexivity|].
    rewrite Z.compare_refl.
    assert ((7926335344172073 ?= m)%positive = Gt) as ->; [|reflexivity].
    apply Pos.compare_gt_iff, (Pos.lt_trans _ _ _ Hm). reflexivity.
  - reflexivity.
  - assert ((-53 ?= e)%Z = Gt) as ->; [|reflexivity].
    apply Z.compare_gt_iff. exact Hgt.
Qed.

(** The gate decides the same on a binary64 score as on the exact one. *)
Lemma gate_rounding_free (freq recency : N) (type : WorkloadType) :
  SFltb (b64_lit 88 100) (predictReuseProb64 freq recency type)
  = Qltb CONFIDENCE_THRESHOLD (predictReuseProb freq recency type).
Proof.
  destruct type.
  - unfold predictReuseProb64. rewrite Math_min64_cap. symmetry.
    apply Qltb_ge. eapply Qle_trans; [apply Q.le_min_l|]. by unfold Qle.
  - unfold predictReuseProb64, predictReuseProb.
    destruct (2 <=? freq)%N; [by vm_compute|].
    destruct (freq =? 1)%N; by vm_compute.
Qed.

(** The ML victim search runs on Hostile scores only (the Friendly gate
    is never open), and orders binary64 scores as it orders the exact
    ones. *)
Lemma hostile_order_rounding_free (f1 r1 f2 r2 : N) :
  SFltb (predictReuseProb64 f1 r1 Hostile) (predictReuseProb64 f2 r2 Hostile)
  = Qltb (predictReuseProb f1 r1 Hostile) (predictReuseProb f2 r2 Hostile).
Proof.
  unfold predictReuseProb64, predictReuseProb.
  destruct (2 <=? f1)%N, (2 <=? f2)%N, (f1 =? 1)%N, (f2 =? 1)%N; by vm_compute.
Qed.

(** ** Two full caches used as concrete inputs *)

(** The cache after [A,B,C,D,A,A] from the initial state (Hostile). *)
Definition full_hostile : SimState :=
  run initial (accesses ["A"; "B"; "C"; "D"; "A"; "A"]).

(** The cache after [A,B,C,D] once the Friendly button was pressed. *)
Definition full_friendly : SimState :=
  run initial (SetWorkload Friendly :: accesses ["A"; "B"; "C"; "D"]).

Lemma full_hostile_misses_E : "E" ∉ id <$> cache full_hostile.
Proof. apply miss_not_resident. by vm_compute. Qed.

Lemma full_friendly_misses_E : "E" ∉ id <$> cache full_friendly.
Proof. apply miss_not_resident. by vm_compute. Qed.

(** The same miss under the Friendly workload falls back to LRU and
    evicts A, the least recently used block. *)
Example friendly_fallback :
  let st := access full_friendly "E" in
  decisionMode st = LRU_FALLBACK
  ∧ max_recency_index (age Friendly <$> cache full_friendly) = 0%nat
  ∧ lastAction st = "Evicted A via LRU Fallback (Confidence Low). Inserted E."
  ∧ id <$> cache st = ["E"; "B"; "C"; "D"]
  ∧ confidence st == 0.55.
Proof. by vm_compute. Qed.

(** * The claims *)

(** The counters as rationals. *)
Definition N2Q (n : N) : Q := inject_Z (Z.of_N n).

Lemma N2Q_succ (n : N) : N2Q n + 1 == inject_Z (Z.of_N n + 1).
Proof. unfold N2Q. by rewrite inject_Z_plus. Qed.

(* The two claims about the value of the score, C3 and C9, are settled on
   the doubles that the code returns: see [predictReuseProb64_variants]
   and [friendly_score64_shape] in the last part. *)

(** C1. On an access of an absent block id when the resident count
    equals CAPACITY, every resident block first gets the recency bump and
    the rescore; the maximum score over the residents is reported as the
    confidence; if it is strictly greater than 0.88 the victim is the
    first resident block of minimum score and the method is ML-guided,
    otherwise the victim is the first resident block of maximum recency
    and the method is the LRU fallback; a maximum score exactly equal to
    0.88 takes the LRU fallback branch of the gate. *)
Theorem confidence_gated_eviction (st : SimState) (blockId : string) :
  blockId ∉ id <$> cache st →
  length (cache st) = CAPACITY →
  let w := workload st in
  let aged :=
    (λ b, {| id := id b; recency := (recency b + 1)%N;
             frequency := frequency b;
             score := predictReuseProb (frequency b) (recency b + 1) w |})
    <$> cache st in
  let st' := access st blockId in
  (∃ maxScore v victim,
     is_max maxScore (score <$> aged)
     ∧ confidence st' = maxScore
     ∧ aged !! v = Some victim
     ∧ cache st' = <[v := newBlock w blockId]> aged
     ∧ (CONFIDENCE_THRESHOLD < maxScore →
          min_score_first aged v victim
          ∧ decisionMode st' = ML
          ∧ lastAction st' =
            "Evicted " +:+ id victim +:+ " via ML (Confidence > 0.88). Inserted "
            +:+ blockId +:+ ".")
     ∧ (¬ CONFIDENCE_THRESHOLD < maxScore →
          max_recency_first aged v victim
          ∧ decisionMode st' = LRU_FALLBACK
          ∧ lastAction st' =
            "Evicted " +:+ id victim
            +:+ " via LRU Fallback (Confidence Low). Inserted "
            +:+ blockId +:+ "."))
  ∧ (∀ maxScore arr, maxScore == 0.88 →
       select_victim maxScore arr =
       (max_recency_index arr, "LRU Fallback (Confidence Low)", LRU_FALLBACK)).
Proof.
  intros Hmiss Hlen w aged st'. split.
  - destruct (capacity_miss_outcome st blockId Hmiss)
      as (m & v & victim & Hmax & Hv & Hsel & Hacc); [lia|].
    change (age (workload st) <$> cache st) with aged in *. fold w in Hacc.
    exists m, v, victim. subst st'. rewrite Hacc. simpl.
    split_and!; [done..| |].
    + intros Hgt%Qltb_lt. by rewrite Hgt in Hsel |- *.
    + intros Hle%Qnot_lt_le%Qltb_ge. by rewrite Hle in Hsel |- *.
  - intros m arr Heq. unfold select_victim.
    assert (Qltb CONFIDENCE_THRESHOLD m = false) as ->; [|done].
    apply Qltb_ge. rewrite Heq. by unfold Qle.
Qed.

Lemma confidence_gated_eviction_witness :
  ("E" ∉ id <$> cache full_hostile)
  ∧ length (cache full_hostile) = CAPACITY
  ∧ ∃ maxScore v victim,
      confidence (access full_hostile "E") = maxScore
      ∧ (age Hostile <$> cache full_hostile) !! v = Some victim
      ∧ cache (access full_hostile "E")
        = <[v := newBlock Hostile "E"]> (age Hostile <$> cache full_hostile).
Proof.
  split; [exact full_hostile_misses_E|]. split; [reflexivity|].
  destruct (confidence_gated_eviction full_hostile "E"
              full_hostile_misses_E eq_refl)
    as [(m & v & victim & _ & Hconf & Hv & Hcache & _) _].
  exists m, v, victim. split_and!; [exact Hconf|exact Hv|exact Hcache].
Defined.

(** C5. While the workload is Friendly at a capacity miss, the maximum
    score that the gate reads never exceeds 0.88 (Friendly scores are
    capped at 0.85), so the eviction uses the LRU fallback and never the
    ML-guided method. *)
Theorem friendly_eviction_is_lru (st : SimState) (blockId : string) :
  workload st = Friendly →
  blockId ∉ id <$> cache st →
  length (cache st) = CAPACITY →
  let st' := access st blockId in
  is_max (confidence st') (score <$> (age Friendly <$> cache st))
  ∧ confidence st' <= 0.85
  ∧ ¬ CONFIDENCE_THRESHOLD < confidence st'
  ∧ decisionMode st' = LRU_FALLBACK
  ∧ decisionMode st' ≠ ML.
Proof.
  intros Hw Hmiss Hlen st'.
  destruct (capacity_miss_outcome st blockId Hmiss)
    as (m & v & victim & Hmax & Hv & Hsel & Hacc); [lia|].
  rewrite Hw in *. subst st'. rewrite Hacc. simpl.
  assert (m <= 0.85) as Hcap.
  { destruct Hmax as [Hin _].
    apply list_elem_of_fmap in Hin as (b & -> & Hb).
    apply list_elem_of_fmap in Hb as (b0 & -> & _). simpl.
    unfold predictReuseProb. apply Q.le_min_l. }
  assert (Qltb CONFIDENCE_THRESHOLD m = false) as Hgate.
  { apply Qltb_ge. eapply Qle_trans; [exact Hcap|]. by unfold Qle. }
  rewrite Hgate. split_and!; [done|done| |done|done].
  by apply Qle_not_lt, Qltb_ge.
Qed.

Lemma friendly_eviction_is_lru_witness :
  workload full_friendly = Friendly
  ∧ ("E" ∉ id <$> cache full_friendly)
  ∧ length (cache full_friendly) = CAPACITY
  ∧ decisionMode (access full_friendly "E") = LRU_FALLBACK.
Proof.
  split; [reflexivity|]. split; [exact full_friendly_misses_E|].
  split; [reflexivity|].
  apply (friendly_eviction_is_lru full_friendly "E" eq_refl
           full_friendly_misses_E eq_refl).
Defined.

(** C10. Under Hostile mode a capacity miss takes the ML-guided branch
    if and only if, after the recency bump and rescore, some resident
    block has frequency >= 2; and it takes the LRU fallback exactly when
    every resident block has frequency <= 1.  The only Hostile score
    above 0.88 is 0.95, reached exactly when the frequency is >= 2. *)
Theorem hostile_gate_by_frequency (st : SimState) (blockId : string) :
  workload st = Hostile →
  blockId ∉ id <$> cache st →
  length (cache st) = CAPACITY →
  let aged := age Hostile <$> cache st in
  let st' := access st blockId in
  (decisionMode st' = ML ↔ ∃ b, b ∈ aged ∧ (2 <= frequency b)%N)
  ∧ (decisionMode st' = LRU_FALLBACK ↔ ∀ b, b ∈ aged → (frequency b <= 1)%N)
  ∧ (∀ freq recency,
       (CONFIDENCE_THRESHOLD < predictReuseProb freq recency Hostile
        ↔ (2 <= freq)%N)
       ∧ (CONFIDENCE_THRESHOLD < predictReuseProb freq recency Hostile →
          predictReuseProb freq recency Hostile = 0.95)).
Proof.
  intros Hw Hmiss Hlen aged st'.
  assert (∀ freq recency,
            (CONFIDENCE_THRESHOLD < predictReuseProb freq recency Hostile
             ↔ (2 <= freq)%N)
            ∧ (CONFIDENCE_THRESHOLD < predictReuseProb freq recency Hostile →
               predictReuseProb freq recency Hostile = 0.95)) as Hscores.
  { intros freq recency. rewrite hostile_cases.
    destruct (decide (2 <= freq)%N); [done|].
    by destruct (decide (freq = 1%N)). }
  enough ((decisionMode st' = ML ↔ ∃ b, b ∈ aged ∧ (2 <= frequency b)%N)
          ∧ (decisionMode st' = LRU_FALLBACK
             ↔ ∀ b, b ∈ aged → (frequency b <= 1)%N)) as [? ?]
    by (by split_and!).
  destruct (capacity_miss_outcome st blockId Hmiss)
    as (m & v & victim & Hmax & Hv & Hsel & Hacc); [lia|].
  rewrite Hw in *. fold aged in Hmax, Hv, Hsel, Hacc.
  assert (∀ b, b ∈ aged →
            score b = if decide (2 <= frequency b)%N then 0.95
                      else if decide (frequency b = 1)%N then 0.4 else 0.1)
    as Hscore.
  { intros b (b0 & -> & _)%list_elem_of_fmap. apply hostile_cases. }
  assert (Qltb CONFIDENCE_THRESHOLD m = true
          ↔ ∃ b, b ∈ aged ∧ (2 <= frequency b)%N) as Hgate.
  { destruct Hmax as [Hin Hub]. split.
    - intros Hgt. apply list_elem_of_fmap in Hin as (b & -> & Hb).
      exists b. split; [done|]. rewrite (Hscore b Hb) in Hgt.
      destruct (decide (2 <= frequency b)%N); [done|].
      by destruct (decide (frequency b = 1%N)).
    - intros (b & Hb & Hfreq). apply Qltb_lt.
      eapply Qlt_le_trans; [|apply Hub, list_elem_of_fmap; eauto].
      rewrite (Hscore b Hb), decide_True by done. by unfold Qlt. }
  subst st'. rewrite Hacc. simpl.
  destruct (Qltb CONFIDENCE_THRESHOLD m) eqn:Hg; split.
  - split; [intros _; by apply Hgate|done].
  - split; [done|]. intros Hall.
    destruct (proj1 Hgate eq_refl) as (b & Hb & Hfreq).
    specialize (Hall b Hb). lia.
  - split; [done|]. intros Hex. by apply Hgate in Hex.
  - split; [|done]. intros _ b Hb.
    destruct (decide (2 <= frequency b)%N) as [Hge|]; [|lia].
    assert (false = true); [|done]. apply Hgate. eauto.
Qed.

Lemma hostile_gate_by_frequency_witness :
  workload full_hostile = Hostile
  ∧ ("E" ∉ id <$> cache full_hostile)
  ∧ length (cache full_hostile) = CAPACITY
  ∧ (decisionMode (access full_hostile "E") = ML
     ↔ ∃ b, b ∈ age Hostile <$> cache full_hostile ∧ (2 <= frequency b)%N).
Proof.
  split; [reflexivity|]. split; [exact full_hostile_misses_E|].
  split; [reflexivity|].
  apply (hostile_gate_by_frequency full_hostile "E" eq_refl
           full_hostile_misses_E eq_refl).
Defined.

(** C2. Along every run from the empty cache the number of resident
    blocks never exceeds CAPACITY, and once it equals CAPACITY it stays
    there; a hit changes no residency and a capacity miss replaces the
    victim in place. *)
Theorem capacity_invariant (es : list Event) :
  (length (cache (run initial es)) <= CAPACITY)%nat
  ∧ (∀ es', length (cache (run initial es)) = CAPACITY →
            length (cache (run initial (es ++ es'))) = CAPACITY)
  ∧ (∀ es', (length (cache (run initial es))
             <= length (cache (run initial (es ++ es'))))%nat)
  ∧ (∀ st blockId, blockId ∈ id <$> cache st →
       id <$> cache (access st blockId) = id <$> cache st)
  ∧ (∀ st blockId, blockId ∉ id <$> cache st →
       length (cache st) = CAPACITY →
       ∃ v, (v < CAPACITY)%nat
          ∧ id <$> cache (access st blockId) = <[v := blockId]> (id <$> cache st)).
Proof.
  assert (∀ l, (length (cache (run initial l)) <= CAPACITY)%nat) as Hbound.
  { intros l. apply run_length_bound. simpl. lia. }
  split_and!.
  - apply Hbound.
  - intros es' Hfull. apply Nat.le_antisymm; [apply Hbound|].
    rewrite <- Hfull, run_app. apply run_length_mono.
  - intros es'. rewrite run_app. apply run_length_mono.
  - apply access_hit_ids.
  - intros st blockId Hmiss Hlen.
    destruct (access_evict_ids st blockId Hmiss) as (v & Hv & Hids); [lia|].
    exists v. split; [lia|done].
Qed.

(** C4. Immediately after every access (hit, insert or eviction) the
    score of every resident block is [predictReuseProb] of that block's
    current frequency and recency and of the active workload; and the
    result of an access, its eviction decision included, does not depend
    on the scores that were stored before it, so no decision reads a
    stale score. *)
Theorem score_freshness (st : SimState) (blockId : string) :
  let st' := access st blockId in
  (∀ b, b ∈ cache st' →
     score b = predictReuseProb (frequency b) (recency b) (workload st'))
  ∧ (∀ c0, strip <$> c0 = strip <$> cache st →
       access (with_cache c0 st) blockId = st').
Proof.
  intros st'. split.
  - intros b Hb. subst st'. rewrite access_workload.
    by apply (access_scores_fresh st blockId).
  - intros c0 Hc0. subst st'.
    rewrite <- (access_ignores_scores st blockId).
    rewrite <- (access_ignores_scores (with_cache c0 st) blockId). simpl.
    by rewrite Hc0.
Qed.

(** C7. When a block id is resident, accessing it twice in a row leaves
    the resident count unchanged, raises the frequency of its block (the
    one [findIndex] returns, before and after) by exactly 2 and leaves
    its recency at 0. *)
Theorem hit_twice (st : SimState) (blockId : string) :
  blockId ∈ id <$> cache st →
  let st2 := access (access st blockId) blockId in
  length (cache st2) = length (cache st)
  ∧ ∃ hitIndex hit hit2,
      list_find (λ b, id b = blockId) (cache st) = Some (hitIndex, hit)
      ∧ list_find (λ b, id b = blockId) (cache st2) = Some (hitIndex, hit2)
      ∧ frequency hit2 = (frequency hit + 2)%N
      ∧ recency hit2 = 0%N.
Proof.
  intros (hitIndex & hit & Hfind)%hit_resident st2.
  pose proof (access_hit_find _ _ _ _ Hfind) as Hfind1.
  pose proof (access_hit_find _ _ _ _ Hfind1) as Hfind2.
  split.
  - subst st2. rewrite (access_hit_length _ _ _ _ Hfind1).
    apply (access_hit_length _ _ _ _ Hfind).
  - eexists hitIndex, hit, _. split_and!; [done|exact Hfind2| |done].
    simpl. lia.
Qed.

Lemma hit_twice_witness :
  ("B" ∈ id <$> cache full_hostile)
  ∧ length (cache (access (access full_hostile "B") "B"))
    = length (cache full_hostile)
  ∧ ∃ hitIndex hit hit2,
      list_find (λ b, id b = "B") (cache full_hostile) = Some (hitIndex, hit)
      ∧ list_find (λ b, id b = "B")
          (cache (access (access full_hostile "B") "B"))
        = Some (hitIndex, hit2)
      ∧ frequency hit2 = (frequency hit + 2)%N
      ∧ recency hit2 = 0%N.
Proof.
  assert ("B" ∈ id <$> cache full_hostile) as Hres.
  { apply list_elem_of_lookup. by exists 1%nat. }
  split; [exact Hres|].
  apply (hit_twice full_hostile "B" Hres).
Defined.

(** C8. Switching the workload changes no block of the cache (no
    recency, frequency or score), so a stored score may disagree with
    the new mode right after the switch; the rescoring against the new
    mode happens in the next access: after it every score is the one of
    the new mode, and on a capacity miss the confidence that the gate
    reads is the maximum of the scores recomputed under the new mode,
    whatever scores were stored at the switch. *)
Theorem workload_switch_is_lazy (st : SimState) (w : WorkloadType) :
  cache (setWorkload w st) = cache st
  ∧ workload (setWorkload w st) = w
  ∧ (∃ b, b ∈ cache (setWorkload Friendly full_hostile)
        ∧ ¬ score b == predictReuseProb (frequency b) (recency b) Friendly)
  ∧ (∀ blockId b, b ∈ cache (access (setWorkload w st) blockId) →
       score b = predictReuseProb (frequency b) (recency b) w)
  ∧ (∀ blockId,
       access (setWorkload w (with_cache (strip <$> cache st) st)) blockId
       = access (setWorkload w st) blockId)
  ∧ (∀ blockId, blockId ∉ id <$> cache st → length (cache st) = CAPACITY →
       let st' := access (setWorkload w st) blockId in
       is_max (confidence st')
         ((λ b, predictReuseProb (frequency b) (recency b + 1) w) <$> cache st)
       ∧ decisionMode st' =
         if Qltb CONFIDENCE_THRESHOLD (confidence st') then ML else LRU_FALLBACK).
Proof.
  split_and!; [done|done| | | |].
  - exists {| id := "A"; recency := 0; frequency := 3; score := 0.95 |}.
    split; [apply list_elem_of_lookup; by exists 0%nat|]. by vm_compute.
  - intros blockId b Hb. by apply (access_scores_fresh _ blockId) in Hb.
  - intros blockId.
    by rewrite <- (access_ignores_scores (setWorkload w st) blockId).
  - intros blockId Hmiss Hlen st'.
    destruct (capacity_miss_outcome (setWorkload w st) blockId)
      as (m & v & victim & Hmax & _ & _ & Hacc); [done|simpl; lia|].
    subst st'. rewrite Hacc. simpl in *. split; [|done].
    by rewrite <- list_fmap_compose in Hmax.
Qed.

(** ** The end-to-end Hostile scenario *)

(** C6 (as amended). From the empty cache with CAPACITY = 4 under the
    Hostile workload, after the six accesses A,B,C,D,A,A block A has
    frequency 3, recency 0 and score 0.95; the seventh access, E, misses
    on the full cache, reports the ML-guided method with confidence 0.95
    and evicts B, the first block of minimum score; after it A still has
    frequency 3 and score 0.95, and its recency is 1. *)
Theorem hostile_scenario :
  let st7 := run initial (accesses ["A"; "B"; "C"; "D"; "A"; "A"; "E"]) in
  length (cache initial) = 0%nat
  ∧ CAPACITY = 4%nat
  ∧ workload initial = Hostile
  ∧ cache full_hostile =
    [ {| id := "A"; recency := 0; frequency := 3; score := 0.95 |};
      {| id := "B"; recency := 4; frequency := 1; score := 0.4 |};
      {| id := "C"; recency := 3; frequency := 1; score := 0.4 |};
      {| id := "D"; recency := 2; frequency := 1; score := 0.4 |} ]
  ∧ st7 = access full_hostile "E"
  ∧ min_score_index (age Hostile <$> cache full_hostile) = 1%nat
  ∧ decisionMode st7 = ML
  ∧ confidence st7 = 0.95
  ∧ lastAction st7 = "Evicted B via ML (Confidence > 0.88). Inserted E."
  ∧ cache st7 =
    [ {| id := "A"; recency := 1; frequency := 3; score := 0.95 |};
      {| id := "E"; recency := 0; frequency := 1; score := 0.4 |};
      {| id := "C"; recency := 4; frequency := 1; score := 0.4 |};
      {| id := "D"; recency := 3; frequency := 1; score := 0.4 |} ].
Proof. by vm_compute. Qed.

(** C6 (as stated) fails: after the whole sequence A,B,C,D,A,A,E no
    resident block named A has recency 0, since the miss on E aged it. *)
Lemma hostile_scenario_recency_counterexample :
  ¬ ∃ a, a ∈ cache (run initial (accesses ["A"; "B"; "C"; "D"; "A"; "A"; "E"]))
       ∧ id a = "A" ∧ frequency a = 3%N ∧ recency a = 0%N ∧ score a == 0.95.
Proof.
  intros (a & Hin & Hid & _ & Hrec & _).
  assert (cache (run initial (accesses ["A"; "B"; "C"; "D"; "A"; "A"; "E"]))
          = [ {| id := "A"; recency := 1; frequency := 3; score := 0.95 |};
              {| id := "E"; recency := 0; frequency := 1; score := 0.4 |};
              {| id := "C"; recency := 4; frequency := 1; score := 0.4 |};
              {| id := "D"; recency := 3; frequency := 1; score := 0.4 |} ])
    as Hcache by (by vm_compute).
  rewrite Hcache in Hin. clear Hcache.
  apply elem_of_cons in Hin as [-> | Hin]; [discriminate Hrec|].
  apply elem_of_cons in Hin as [-> | Hin]; [discriminate Hid|].
  apply elem_of_cons in Hin as [-> | Hin]; [discriminate Hid|].
  apply elem_of_cons in Hin as [-> | Hin]; [discriminate Hid|].
  by apply elem_of_nil in Hin.
Qed.

(** * Further properties of the simulator

    What [access] (lines 50-127) does to the three columns of the cache
    (ids, recencies, frequencies), and what every run from the initial
    state keeps. *)

(** ** The columns after an access *)

Lemma found_resident (l : list CacheBlock) (blockId : string) :
  list_find (λ b, id b = blockId) l ≠ None → blockId ∈ id <$> l.
Proof.
  intros Hfind. destruct (decide (blockId ∈ id <$> l)) as [|Hmiss]; [done|].
  by apply miss_not_resident in Hmiss.
Qed.

Lemma access_hit_recencies st blockId hitIndex hit :
  list_find (λ b, id b = blockId) (cache st) = Some (hitIndex, hit) →
  recency <$> cache (access st blockId)
  = <[hitIndex := 0%N]> ((λ r, (r + 1)%N) <$> (recency <$> cache st)).
Proof.
  intros Hfind. pose proof Hfind as (Hi & _)%list_find_Some.
  apply lookup_lt_Some in Hi. apply list_eq. intros j.
  rewrite list_lookup_fmap, (access_hit_lookup _ _ _ _ _ Hfind).
  rewrite list_lookup_insert, !length_fmap, !list_lookup_fmap.
  destruct (cache st !! j) as [b|] eqn:Hb; simpl.
  - destruct (decide (j = hitIndex)) as [->|Hne].
    + by rewrite decide_True.
    + by rewrite decide_False by (intros [? _]; done).
  - rewrite decide_False; [done|]. intros [-> _].
    apply lookup_ge_None in Hb. lia.
Qed.

Lemma access_hit_frequencies st blockId hitIndex hit :
  list_find (λ b, id b = blockId) (cache st) = Some (hitIndex, hit) →
  frequency <$> cache (access st blockId)
  = alter (λ f, (f + 1)%N) hitIndex (frequency <$> cache st).
Proof.
  intros Hfind. apply list_eq. intros j.
  rewrite list_lookup_fmap, (access_hit_lookup _ _ _ _ _ Hfind).
  rewrite list_lookup_alter, !list_lookup_fmap.
  destruct (decide (hitIndex = j)) as [->|Hne].
  - destruct (cache st !! j) as [b|]; [|done]. simpl. by rewrite decide_True.
  - destruct (cache st !! j) as [b|]; [|done]. simpl.
    by rewrite decide_False by done.
Qed.

Lemma age_recencies w (l : list CacheBlock) :
  recency <$> (age w <$> l) = (λ r, (r + 1)%N) <$> (recency <$> l).
Proof. rewrite <- !list_fmap_compose. by apply list_fmap_ext. Qed.

Lemma age_frequencies w (l : list CacheBlock) :
  frequency <$> (age w <$> l) = frequency <$> l.
Proof. rewrite <- list_fmap_compose. by apply list_fmap_ext. Qed.

(** X1. Every access is one global tick.  On a hit at index [i] the
    recency column becomes "everyone plus one, slot [i] reset to 0" and
    the frequency column gains one at slot [i]; confidence is kept and
    the mode returns to IDLE.  A miss with free capacity appends the new
    block (recency 0, frequency 1) behind the aged ones.  A miss on a
    full cache overwrites one slot [v] with the new block and ages all
    the others. *)
Theorem access_is_a_global_tick (st : SimState) (blockId : string) :
  let ids := id <$> cache st in
  let recs := recency <$> cache st in
  let freqs := frequency <$> cache st in
  let st' := access st blockId in
  (∀ i hit, list_find (λ b, id b = blockId) (cache st) = Some (i, hit) →
     id <$> cache st' = ids
     ∧ recency <$> cache st' = <[i := 0%N]> ((λ r, (r + 1)%N) <$> recs)
     ∧ frequency <$> cache st' = alter (λ f, (f + 1)%N) i freqs
     ∧ confidence st' = confidence st
     ∧ decisionMode st' = IDLE)
  ∧ (blockId ∉ ids → (length (cache st) < CAPACITY)%nat →
     id <$> cache st' = ids ++ [blockId]
     ∧ recency <$> cache st' = ((λ r, (r + 1)%N) <$> recs) ++ [0%N]
     ∧ frequency <$> cache st' = freqs ++ [1%N]
     ∧ confidence st' = confidence st
     ∧ decisionMode st' = IDLE)
  ∧ (blockId ∉ ids → ¬ (length (cache st) < CAPACITY)%nat →
     ∃ v, (v < length (cache st))%nat
        ∧ id <$> cache st' = <[v := blockId]> ids
        ∧ recency <$> cache st' = <[v := 0%N]> ((λ r, (r + 1)%N) <$> recs)
        ∧ frequency <$> cache st' = <[v := 1%N]> freqs
        ∧ decisionMode st' ≠ IDLE).
Proof.
  intros ids recs freqs st'. split_and!.
  - intros i hit Hfind. split_and!.
    + apply access_hit_ids, found_resident. by rewrite Hfind.
    + by apply (access_hit_recencies _ _ _ hit).
    + by apply (access_hit_frequencies _ _ _ hit).
    + subst st'. by rewrite (access_hit _ _ _ _ Hfind).
    + subst st'. by rewrite (access_hit _ _ _ _ Hfind).
  - intros Hmiss Hlt. subst st'. rewrite access_insert by done. simpl.
    by rewrite !fmap_app, age_ids, age_recencies, age_frequencies.
  - intros Hmiss Hfull.
    destruct (capacity_miss_outcome st blockId Hmiss Hfull)
      as (m & v & victim & _ & Hv & _ & Hacc).
    exists v. subst st'. rewrite Hacc. simpl.
    rewrite !list_fmap_insert, age_ids, age_recencies, age_frequencies.
    split_and!; try done.
    + apply lookup_lt_Some in Hv. by rewrite length_fmap in Hv.
    + by destruct (Qltb _ _).
Qed.

(** X2. After any access the accessed id is resident: [findIndex] finds
    its block, that block has recency 0, its frequency is 1 after a miss
    and one more than before after a hit (at the same index). *)
Theorem accessed_block_becomes_mru (st : SimState) (blockId : string) :
  ∃ i b,
    list_find (λ b, id b = blockId) (cache (access st blockId)) = Some (i, b)
    ∧ recency b = 0%N
    ∧ (blockId ∉ id <$> cache st → frequency b = 1%N)
    ∧ (∀ j hit, list_find (λ b, id b = blockId) (cache st) = Some (j, hit) →
         i = j ∧ frequency b = (frequency hit + 1)%N).
Proof.
  destruct (list_find (λ b, id b = blockId) (cache st)) as [[j hit]|] eqn:Hfind.
  - exists j, (rescore (workload st) (touch hit)).
    split_and!; [by apply access_hit_find|done| |].
    + intros Hmiss%miss_not_resident. by rewrite Hmiss in Hfind.
    + by intros j' hit' [= <- <-].
  - apply miss_not_resident in Hfind.
    assert (∀ j y, (age (workload st) <$> cache st) !! j = Some y →
              id y ≠ blockId) as Hother.
    { intros j y (x & -> & Hx)%list_lookup_fmap_Some Heq. apply Hfind.
      apply list_elem_of_fmap. exists x. split; [done|].
      by eapply list_elem_of_lookup_2. }
    destruct (decide (length (cache st) < CAPACITY)%nat) as [Hlt|Hfull].
    + exists (length (age (workload st) <$> cache st)), (newBlock (workload st) blockId).
      rewrite access_insert by done. simpl. split_and!; [|done|done|done].
      apply list_find_Some. split_and!; [by apply list_lookup_middle|done|].
      intros j y Hy Hj. rewrite lookup_app_l in Hy by done. by eapply Hother.
    + destruct (capacity_miss_outcome st blockId Hfind Hfull)
        as (m & v & victim & _ & Hv & _ & ->). simpl.
      exists v, (newBlock (workload st) blockId).
      split_and!; [|done|done|done].
      apply list_find_Some. split_and!; [|done|].
      * apply list_lookup_insert_eq. by eapply lookup_lt_Some.
      * intros j y Hy Hj. rewrite list_lookup_insert_ne in Hy by lia.
        by eapply Hother.
Qed.

(** ** What every run keeps *)

(** X3. In every state that a run reaches, two slots never hold the same
    id: the block that [findIndex] returns is the only one with its id. *)
Theorem resident_ids_identify_blocks (es : list Event) (i j : nat)
    (b b' : CacheBlock) :
  cache (run initial es) !! i = Some b →
  cache (run initial es) !! j = Some b' →
  id b = id b' →
  i = j.
Proof.
  intros Hi Hj Hid. eapply NoDup_lookup; [apply (run_ids_unique es)| |].
  - by rewrite list_lookup_fmap, Hi.
  - by rewrite list_lookup_fmap, Hj, Hid.
Qed.

Lemma resident_ids_identify_blocks_witness :
  cache full_hostile !! 2%nat
  = Some {| id := "C"; recency := 3; frequency := 1; score := 0.4 |}
  ∧ 2%nat = 2%nat.
Proof.
  split; [reflexivity|].
  apply (resident_ids_identify_blocks
           (accesses ["A"; "B"; "C"; "D"; "A"; "A"]) 2 2
           {| id := "C"; recency := 3; frequency := 1; score := 0.4 |}
           {| id := "C"; recency := 3; frequency := 1; score := 0.4 |});
    reflexivity.
Defined.

Lemma NoDup_tick_insert (l : list N) (i : nat) :
  NoDup l → NoDup (<[i := 0%N]> ((λ r, (r + 1)%N) <$> l)).
Proof.
  intros Hnd. apply NoDup_alt. intros j k x Hj Hk.
  apply list_lookup_insert_Some in Hj as [(<- & <- & _)|[Hij Hj]];
    apply list_lookup_insert_Some in Hk as [(<- & Hx & _)|[Hik Hk]];
    try done.
  - apply list_lookup_fmap_Some in Hk as (r & ? & _). lia.
  - apply list_lookup_fmap_Some in Hj as (r & ? & _). lia.
  - apply list_lookup_fmap_Some in Hj as (r & -> & Hr).
    apply list_lookup_fmap_Some in Hk as (r' & Heq & Hr').
    assert (r = r') as <- by lia. by eapply NoDup_lookup.
Qed.

Lemma NoDup_tick_snoc (l : list N) :
  NoDup l → NoDup (((λ r, (r + 1)%N) <$> l) ++ [0%N]).
Proof.
  intros Hnd. apply NoDup_app. split_and!.
  - apply NoDup_fmap_2_strong; [|done]. intros; lia.
  - intros x (r & -> & _)%list_elem_of_fmap ?%list_elem_of_singleton. lia.
  - apply NoDup_singleton.
Qed.

Lemma access_recencies_distinct st blockId :
  NoDup (recency <$> cache st) →
  NoDup (recency <$> cache (access st blockId)).
Proof.
  intros Hnd.
  destruct (list_find (λ b, id b = blockId) (cache st)) as [[i hit]|] eqn:Hfind.
  - rewrite (access_hit_recencies _ _ _ _ Hfind). by apply NoDup_tick_insert.
  - apply miss_not_resident in Hfind.
    destruct (decide (length (cache st) < CAPACITY)%nat) as [Hlt|Hfull].
    + rewrite access_insert by done. simpl.
      rewrite fmap_app, age_recencies. by apply NoDup_tick_snoc.
    + destruct (capacity_miss_outcome st blockId Hfind Hfull)
        as (m & v & victim & _ & _ & _ & ->). simpl.
      rewrite list_fmap_insert, age_recencies. by apply NoDup_tick_insert.
Qed.

Lemma run_invariant (P : SimState → Prop) :
  P initial →
  (∀ st blockId, P st → P (access st blockId)) →
  (∀ st w, P st → P (setWorkload w st)) →
  ∀ es, P (run initial es).
Proof.
  intros Hinit Hacc Hset es.
  induction es as [|e es IH] using rev_ind; [done|].
  rewrite run_app. destruct e as [blockId|w]; [apply Hacc|apply Hset]; done.
Qed.

Lemma resident_recencies_distinct_aux (es : list Event) :
  NoDup (recency <$> cache (run initial es)).
Proof.
  apply (run_invariant (λ st, NoDup (recency <$> cache st))).
  - apply NoDup_nil_2.
  - intros st blockId. apply access_recencies_distinct.
  - done.
Qed.

(** X4. In every state that a run reaches the recencies of the resident
    blocks are pairwise distinct: the blocks are totally ordered by age
    and the LRU search never meets a tie. *)
Theorem resident_recencies_distinct (es : list Event) :
  NoDup (recency <$> cache (run initial es))
  ∧ ∀ i j b b', cache (run initial es) !! i = Some b →
      cache (run initial es) !! j = Some b' →
      recency b = recency b' → i = j.
Proof.
  pose proof (resident_recencies_distinct_aux es) as Hnd.
  split; [done|]. intros i j b b' Hi Hj Heq.
  eapply NoDup_lookup; [exact Hnd| |].
  - by rewrite list_lookup_fmap, Hi.
  - by rewrite list_lookup_fmap, Hj, Heq.
Qed.

(** X5. When a run from the initial state ends in a miss on the full
    cache that falls back to LRU, the evicted block is strictly less
    recently used than every other resident block. *)
Theorem lru_fallback_evicts_the_oldest (es : list Event) (blockId : string) :
  let st := run initial es in
  blockId ∉ id <$> cache st →
  length (cache st) = CAPACITY →
  decisionMode (access st blockId) = LRU_FALLBACK →
  ∃ v victim,
    cache st !! v = Some victim
    ∧ id <$> cache (access st blockId) = <[v := blockId]> (id <$> cache st)
    ∧ ∀ j x, cache st !! j = Some x → j ≠ v →
        (recency x < recency victim)%N.
Proof.
  intros st Hmiss Hlen Hmode.
  destruct (capacity_miss_outcome st blockId Hmiss)
    as (m & v & victim & _ & Hv & Hsel & Hacc); [lia|].
  rewrite Hacc in Hmode |- *. simpl in Hmode |- *.
  destruct (Qltb CONFIDENCE_THRESHOLD m); [done|].
  destruct Hsel as (_ & Hmax & _).
  apply list_lookup_fmap_Some in Hv as (victim0 & -> & Hv0).
  exists v, victim0. split_and!; [done|by rewrite list_fmap_insert, age_ids|].
  intros j x Hx Hne.
  assert (recency x ≠ recency victim0) as Hdiff.
  { intros Heq. apply Hne.
    eapply NoDup_lookup; [apply (resident_recencies_distinct_aux es)| |].
    - fold st. by rewrite list_lookup_fmap, Hx.
    - fold st. by rewrite list_lookup_fmap, Hv0, Heq. }
  specialize (Hmax j (age (workload st) x)).
  rewrite list_lookup_fmap, Hx in Hmax. specialize (Hmax eq_refl).
  simpl in Hmax. lia.
Qed.

Lemma lru_fallback_evicts_the_oldest_witness :
  decisionMode (access full_friendly "E") = LRU_FALLBACK
  ∧ ∃ v victim,
      cache full_friendly !! v = Some victim
      ∧ id <$> cache (access full_friendly "E")
        = <[v := "E"]> (id <$> cache full_friendly)
      ∧ ∀ j x, cache full_friendly !! j = Some x → j ≠ v →
          (recency x < recency victim)%N.
Proof.
  split; [reflexivity|].
  apply (lru_fallback_evicts_the_oldest
           (SetWorkload Friendly :: accesses ["A"; "B"; "C"; "D"]) "E"
           full_friendly_misses_E eq_refl eq_refl).
Defined.

(** Comparisons of rational literals. *)
Ltac qcompare :=
  solve [ reflexivity
        | unfold CONFIDENCE_THRESHOLD, Qle, Qlt; simpl; lia
        | unfold CONFIDENCE_THRESHOLD, Qlt; simpl; lia ].

Lemma access_frequency_positive st blockId :
  Forall (λ b, (1 <= frequency b)%N) (cache st) →
  Forall (λ b, (1 <= frequency b)%N) (cache (access st blockId)).
Proof.
  rewrite !Forall_forall. intros Hpos b'.
  destruct (list_find (λ b, id b = blockId) (cache st)) as [[i hit]|] eqn:Hfind.
  - intros [j Hj]%list_elem_of_lookup.
    rewrite (access_hit_lookup _ _ _ _ _ Hfind) in Hj.
    destruct (cache st !! j) as [x|] eqn:Hx; [|done]. injection Hj as <-.
    apply list_elem_of_lookup_2, Hpos in Hx.
    destruct (decide (j = i)); simpl; lia.
  - apply miss_not_resident in Hfind.
    destruct (decide (length (cache st) < CAPACITY)%nat) as [Hlt|Hfull].
    + rewrite access_insert by done. simpl.
      intros [(x & -> & Hx)%list_elem_of_fmap| ->%list_elem_of_singleton]%elem_of_app.
      * by apply (Hpos x).
      * simpl. lia.
    + destruct (capacity_miss_outcome st blockId Hfind Hfull)
        as (m & v & victim & _ & _ & _ & ->). simpl.
      intros [j Hj]%list_elem_of_lookup.
      apply list_lookup_insert_Some in Hj as [(_ & <- & _)|[_ Hj]];
        [simpl; lia|].
      apply list_lookup_fmap_Some in Hj as (x & -> & Hx).
      by apply list_elem_of_lookup_2, Hpos in Hx.
Qed.

(** A score computed from a frequency of at least 1. *)
Lemma score_bounds (freq recency : N) (w : WorkloadType) :
  (1 <= freq)%N →
  (w = Friendly ∧ 0.4 < predictReuseProb freq recency w <= 0.7)
  ∨ (w = Hostile ∧ predictReuseProb freq recency w = 0.4)
  ∨ (w = Hostile ∧ predictReuseProb freq recency w = 0.95).
Proof.
  intros Hpos. destruct w.
  - left. split; [done|]. rewrite friendly_uncapped.
    apply friendly_base_bounds.
  - right. rewrite hostile_cases.
    destruct (decide (2 <= freq)%N); [by right|left].
    rewrite decide_True by lia. done.
Qed.

(** The state invariant behind X6 and X7. *)
Definition well_formed (st : SimState) : Prop :=
  Forall (λ b, (1 <= frequency b)%N
               ∧ ∃ w, score b = predictReuseProb (frequency b) (recency b) w)
         (cache st)
  ∧ (confidence st = 0 ∨ 0.4 <= confidence st <= 0.95)
  ∧ (decisionMode st = ML →
       confidence st = 0.95 ∧ CONFIDENCE_THRESHOLD < confidence st)
  ∧ (decisionMode st = LRU_FALLBACK →
       0.4 <= confidence st <= 0.7 ∧ ¬ CONFIDENCE_THRESHOLD < confidence st).

Lemma access_well_formed st blockId :
  well_formed st → well_formed (access st blockId).
Proof.
  intros (Hblocks & Hconf & Hml & Hlru).
  assert (Forall (λ b, (1 <= frequency b)%N) (cache st)) as Hpos.
  { eapply Forall_impl; [exact Hblocks|]. by intros b [? _]. }
  split.
  { pose proof (access_frequency_positive st blockId Hpos) as Hpos'.
    rewrite Forall_forall in Hpos' |- *. intros b Hb. split; [by apply Hpos'|].
    exists (workload st). by apply (access_scores_fresh st blockId). }
  destruct (list_find (λ b, id b = blockId) (cache st)) as [[i hit]|] eqn:Hfind.
  { rewrite (access_hit _ _ _ _ Hfind). simpl. by split_and!. }
  apply miss_not_resident in Hfind.
  destruct (decide (length (cache st) < CAPACITY)%nat) as [Hlt|Hfull].
  { rewrite access_insert by done. simpl. by split_and!. }
  destruct (capacity_miss_outcome st blockId Hfind Hfull)
    as (m & v & victim & [Hin _] & _ & _ & ->). simpl.
  apply list_elem_of_fmap in Hin as (b & -> & Hb).
  apply list_elem_of_fmap in Hb as (b0 & -> & Hb0).
  rewrite Forall_forall in Hpos. apply Hpos in Hb0. simpl.
  destruct (score_bounds (frequency b0) (recency b0 + 1) (workload st) Hb0)
    as [[_ [Hlo Hhi]]|[[_ ->]|[_ ->]]].
  - assert (Qltb CONFIDENCE_THRESHOLD
              (predictReuseProb (frequency b0) (recency b0 + 1) (workload st))
            = false) as ->.
    { apply Qltb_ge. eapply Qle_trans; [exact Hhi|]. by unfold Qle. }
    split_and!; [|done|].
    + right. split; [by apply Qlt_le_weak|].
      eapply Qle_trans; [exact Hhi|]. by unfold Qle.
    + intros _. split; [split; [by apply Qlt_le_weak|done]|].
      apply Qle_not_lt. eapply Qle_trans; [exact Hhi|]. by unfold Qle.
  - change (Qltb CONFIDENCE_THRESHOLD 0.4) with false.
    split_and!; [right|done|intros _]; repeat split; qcompare.
  - change (Qltb CONFIDENCE_THRESHOLD 0.95) with true.
    split_and!; [right|intros _|done]; repeat split; qcompare.
Qed.

Lemma run_well_formed es : well_formed (run initial es).
Proof.
  apply (run_invariant well_formed).
  - split_and!; [by apply Forall_nil|by left|done|done].
  - apply access_well_formed.
  - done.
Qed.

(** X6. In every state that a run reaches each resident block has
    frequency at least 1 and a score between 0.4 and 0.95: the "low
    confidence" score 0.1 of line 46 (frequency 0) is never stored. *)
Theorem resident_blocks_well_formed (es : list Event) :
  Forall (λ b, (1 <= frequency b)%N
               ∧ 0.4 <= score b <= 0.95
               ∧ ¬ score b == 0.1)
         (cache (run initial es)).
Proof.
  destruct (run_well_formed es) as (Hblocks & _).
  eapply Forall_impl; [exact Hblocks|]. intros b (Hpos & w & ->).
  split; [done|].
  destruct (score_bounds (frequency b) (recency b) w Hpos)
    as [[_ [Hlo Hhi]]|[[_ ->]|[_ ->]]]; [|by vm_compute..].
  split_and!.
  - by apply Qlt_le_weak.
  - eapply Qle_trans; [exact Hhi|]. by unfold Qle.
  - intros Heq. rewrite Heq in Hlo. by vm_compute in Hlo.
Qed.

(** X7. In every state that a run reaches the confidence cell is 0 (no
    eviction yet) or lies between 0.4 and 0.95; while the mode cell says
    ML the confidence is 0.95 and above the threshold, and while it says
    LRU_FALLBACK the confidence is at most 0.7 and not above it: the
    colour of the meter (line 180) agrees with the mode label. *)
Theorem confidence_agrees_with_mode (es : list Event) :
  let st := run initial es in
  (confidence st = 0 ∨ 0.4 <= confidence st <= 0.95)
  ∧ (decisionMode st = ML →
       confidence st = 0.95 ∧ CONFIDENCE_THRESHOLD < confidence st)
  ∧ (decisionMode st = LRU_FALLBACK →
       0.4 <= confidence st <= 0.7 ∧ ¬ CONFIDENCE_THRESHOLD < confidence st).
Proof. intros st. by destruct (run_well_formed es) as (_ & ?). Qed.

(** X8. Whenever a miss on the full cache is resolved by the ML branch
    the workload is Hostile, and the evicted block has frequency at most
    1 as long as some resident block has: a block with frequency >= 2 is
    never evicted while a colder block exists, however stale it is.  If
    every resident block has frequency >= 2 the scores all tie and the
    block in slot 0 is evicted. *)
Theorem ml_eviction_spares_frequent_blocks (st : SimState) (blockId : string) :
  blockId ∉ id <$> cache st →
  length (cache st) = CAPACITY →
  decisionMode (access st blockId) = ML →
  workload st = Hostile
  ∧ ∃ v victim,
      cache st !! v = Some victim
      ∧ id <$> cache (access st blockId) = <[v := blockId]> (id <$> cache st)
      ∧ ((∃ b, b ∈ cache st ∧ (frequency b <= 1)%N) → (frequency victim <= 1)%N)
      ∧ ((∀ b, b ∈ cache st → (2 <= frequency b)%N) → v = 0%nat).
Proof.
  intros Hmiss Hlen Hmode.
  destruct (capacity_miss_outcome st blockId Hmiss)
    as (m & v & victim & [Hin _] & Hv & Hsel & Hacc); [lia|].
  rewrite Hacc in Hmode |- *. simpl in Hmode |- *.
  destruct (Qltb CONFIDENCE_THRESHOLD m) eqn:Hgate; [|done].
  assert (workload st = Hostile) as Hw.
  { destruct (workload st); [|done]. exfalso.
    apply list_elem_of_fmap in Hin as (b & -> & Hb).
    apply list_elem_of_fmap in Hb as (b0 & -> & _). simpl in Hgate.
    apply Qltb_lt in Hgate. apply (Qlt_not_le _ _ Hgate).
    eapply Qle_trans; [apply Q.le_min_l|]. qcompare. }
  rewrite Hw in *. split; [done|].
  destruct Hsel as (_ & Hmin & Hfirst).
  apply list_lookup_fmap_Some in Hv as (victim0 & -> & Hv0).
  exists v, victim0. split_and!; [done|by rewrite list_fmap_insert, age_ids| |].
  - intros (b & [j Hj]%list_elem_of_lookup & Hfreq).
    specialize (Hmin j (age Hostile b)).
    rewrite list_lookup_fmap, Hj in Hmin. specialize (Hmin eq_refl).
    unfold age, rescore, bump in Hmin. cbn [score frequency recency] in Hmin.
    rewrite !hostile_cases in Hmin.
    destruct (decide (2 <= frequency victim0)%N) as [Hge|]; [|lia].
    rewrite decide_False in Hmin by lia.
    destruct (decide (frequency b = 1%N)); by vm_compute in Hmin.
  - intros Hall. destruct v as [|v]; [done|exfalso].
    destruct (cache st !! 0%nat) as [x|] eqn:Hx.
    + specialize (Hfirst 0%nat (age Hostile x)).
      rewrite list_lookup_fmap, Hx in Hfirst.
      specialize (Hfirst ltac:(lia) eq_refl).
      unfold age, rescore, bump in Hfirst.
      cbn [score frequency recency] in Hfirst.
      rewrite !hostile_cases in Hfirst.
      rewrite !decide_True in Hfirst; [by vm_compute in Hfirst|..].
      * by eapply Hall, list_elem_of_lookup_2.
      * by eapply Hall, list_elem_of_lookup_2.
    + apply lookup_ge_None in Hx. apply lookup_lt_Some in Hv0. lia.
Qed.

Lemma ml_eviction_spares_frequent_blocks_witness :
  decisionMode (access full_hostile "E") = ML
  ∧ workload full_hostile = Hostile
  ∧ ∃ v victim,
      cache full_hostile !! v = Some victim
      ∧ id <$> cache (access full_hostile "E")
        = <[v := "E"]> (id <$> cache full_hostile)
      ∧ ((∃ b, b ∈ cache full_hostile ∧ (frequency b <= 1)%N) →
         (frequency victim <= 1)%N)
      ∧ ((∀ b, b ∈ cache full_hostile → (2 <= frequency b)%N) → v = 0%nat).
Proof.
  split; [reflexivity|].
  apply (ml_eviction_spares_frequent_blocks full_hostile "E"
           full_hostile_misses_E eq_refl eq_refl).
Defined.

(** X9. As long as a run from the initial state has not filled the
    cache, no eviction has happened: the confidence cell still holds its
    initial 0 and the mode cell is IDLE. *)
Theorem no_eviction_before_full (es : list Event) :
  (length (cache (run initial es)) < CAPACITY)%nat →
  confidence (run initial es) = 0
  ∧ decisionMode (run initial es) = IDLE.
Proof.
  induction es as [|e es IH] using rev_ind; [done|].
  rewrite run_app. simpl. intros Hlt.
  destruct e as [blockId|w]; simpl in *; [|by apply IH].
  pose proof (access_length_mono (run initial es) blockId) as Hmono.
  destruct IH as [Hconf Hmode]; [lia|].
  destruct (list_find (λ b, id b = blockId) (cache (run initial es)))
    as [[i hit]|] eqn:Hfind.
  - rewrite (access_hit _ _ _ _ Hfind). simpl. by rewrite Hconf.
  - apply miss_not_resident in Hfind.
    rewrite access_insert; [|done|lia]. simpl. by rewrite Hconf.
Qed.

Lemma no_eviction_before_full_witness :
  (length (cache (run initial (accesses ["A"; "B"; "A"]))) < CAPACITY)%nat
  ∧ confidence (run initial (accesses ["A"; "B"; "A"])) = 0
  ∧ decisionMode (run initial (accesses ["A"; "B"; "A"])) = IDLE.
Proof.
  assert (length (cache (run initial (accesses ["A"; "B"; "A"]))) < CAPACITY)%nat
    as Hlt by (vm_compute; lia).
  split; [exact Hlt|].
  apply (no_eviction_before_full (accesses ["A"; "B"; "A"]) Hlt).
Defined.

(** ** How the cache fills *)

From stdpp Require Import gmap.

Lemma accesses_snoc (ids : list string) (x : string) :
  accesses (ids ++ [x]) = accesses ids ++ [Access x].
Proof. unfold accesses. by rewrite fmap_app. Qed.

Lemma run_accesses_snoc st (ids : list string) (x : string) :
  run st (accesses (ids ++ [x])) = access (run st (accesses ids)) x.
Proof. by rewrite accesses_snoc, run_app. Qed.

(** While the cache is not full it holds exactly the ids accessed so
    far. *)
Lemma fill_invariant (ids : list string) :
  let st := run initial (accesses ids) in
  length (cache st) = (CAPACITY `min` size (list_to_set ids : gset string))%nat
  ∧ ((length (cache st) < CAPACITY)%nat →
     ∀ y, y ∈ id <$> cache st ↔ y ∈ ids).
Proof.
  induction ids as [|x ids IH] using rev_ind; [split; [done|by intros _ y]|].
  cbv zeta in IH |- *. rewrite run_accesses_snoc.
  set (st := run initial (accesses ids)) in *.
  destruct IH as [Hlen Hsame].
  pose proof (run_length_bound (accesses ids) initial) as Hbound.
  specialize (Hbound ltac:(simpl; lia)). fold st in Hbound.
  assert (NoDup (id <$> cache st)) as Hnd by apply run_ids_unique.
  rewrite list_to_set_app_L, list_to_set_singleton.
  assert (size (list_to_set ids : gset string)
          ≤ size (list_to_set ids ∪ {[x]} : gset string))%nat as Hmono
    by apply subseteq_size, union_subseteq_l.
  destruct (decide (x ∈ id <$> cache st)) as [Hhit|Hmiss].
  - pose proof Hhit as (i & hit & Hfind)%hit_resident.
    rewrite (access_hit_length _ _ _ _ Hfind), access_hit_ids by done.
    destruct (decide (length (cache st) < CAPACITY)%nat) as [Hlt|Hfull].
    + assert (x ∈ ids) as Hx by by apply (Hsame Hlt).
      assert (list_to_set ids ∪ {[x]} = (list_to_set ids : gset string)) as ->.
      { rewrite (comm_L (∪)). apply subseteq_union_1_L.
        by apply singleton_subseteq_l, elem_of_list_to_set. }
      split; [done|]. intros _ y. rewrite (Hsame Hlt y), elem_of_app.
      split; [by left|]. by intros [?| ->%list_elem_of_singleton].
    + split; [lia|]. intros ?. lia.
  - destruct (decide (length (cache st) < CAPACITY)%nat) as [Hlt|Hfull].
    + assert (x ∉ ids) as Hx by (by rewrite <- (Hsame Hlt)).
      rewrite access_insert by done. cbn [cache].
      rewrite length_app, length_fmap, fmap_app, age_ids. cbn [length fmap list_fmap].
      change (id (newBlock (workload st) x)) with x.
      rewrite size_union, size_singleton
        by (apply disjoint_singleton_r; by rewrite elem_of_list_to_set).
      split; [lia|]. intros _ y. rewrite !elem_of_app, (Hsame Hlt y). done.
    + destruct (capacity_miss_outcome st x Hmiss Hfull)
        as (m & v & victim & _ & _ & _ & ->). cbn [cache].
      rewrite length_insert, length_fmap. split; [lia|]. intros ?. lia.
Qed.

(** X10. After any sequence of accesses from the initial state the
    number of resident blocks is the number of distinct ids accessed,
    capped at CAPACITY; and until the cache is full the resident ids are
    exactly the ids accessed so far. *)
Theorem resident_count_is_distinct_ids (ids : list string) :
  let st := run initial (accesses ids) in
  length (cache st) = (CAPACITY `min` size (list_to_set ids : gset string))%nat
  ∧ ((size (list_to_set ids : gset string) < CAPACITY)%nat →
     ∀ y, y ∈ id <$> cache st ↔ y ∈ ids).
Proof.
  intros st. destruct (fill_invariant ids) as [Hlen Hsame].
  fold st in Hlen, Hsame. split; [done|].
  intros Hlt. apply Hsame. lia.
Qed.

(** ** The empty slots of the view (line 270) *)

(** [[...Array(CAPACITY - cache.length)]]: the number of EMPTY tiles;
    [Array(n)] throws a RangeError on a negative length, [None] here. *)
Definition emptySlots (st : SimState) : option nat :=
  let n := (Z.of_nat CAPACITY - Z.of_nat (length (cache st)))%Z in
  if (n <? 0)%Z then None else Some (Z.to_nat n).

(** X11. In every state that a run reaches the view can build its EMPTY
    tiles (the array length is never negative), and block tiles plus
    EMPTY tiles always number CAPACITY; a cache of more than CAPACITY
    blocks would make the view throw. *)
Theorem empty_slots_complete_the_row (es : list Event) :
  (∃ k, emptySlots (run initial es) = Some k
      ∧ (length (cache (run initial es)) + k = CAPACITY)%nat)
  ∧ (∀ st, (CAPACITY < length (cache st))%nat → emptySlots st = None).
Proof.
  split.
  - pose proof (run_length_bound es initial) as Hbound.
    specialize (Hbound ltac:(simpl; lia)). unfold emptySlots.
    destruct (Z.ltb_spec (Z.of_nat CAPACITY
                          - Z.of_nat (length (cache (run initial es)))) 0);
      [lia|].
    eexists. split; [done|]. lia.
  - intros st Hlong. unfold emptySlots.
    destruct (Z.ltb_spec (Z.of_nat CAPACITY - Z.of_nat (length (cache st))) 0);
      [done|lia].
Qed.

(** * The page shell: smooth scrolling to a section

    [smoothScroll] of the [App] component ([src/unnamed/part_000], lines
    89-123), with pixel positions and milliseconds read as exact
    rationals.  [target] is the top of the element that
    [getElementById] found ([None] when there is none), and a frame is
    one call of [animation] by [requestAnimationFrame]. *)

From Stdlib Require Import Qabs Lqa.

Record Scroll := mkScroll {
  startPosition : Q;   (* window.pageYOffset *)
  distance : Q;
  duration : Q
}.

Definition headerOffset : Q := 100.

(** [Math.min(Math.max(Math.abs(distance) * 0.5, 600), 1200)] *)
Definition scrollDuration (distance : Q) : Q :=
  Qmin (Qmax (Qabs distance * 0.5) 600) 1200.

(** Lines 105-107; [Math.pow(x, 3)] is [x ^ 3]. *)
Definition easeInOutCubic (t : Q) : Q :=
  if Qltb t 0.5 then 4 * t * t * t else 1 - (-2 * t + 2) ^ 3 / 2.

(** Lines 89-103: [None] when the target element is missing (the early
    [return]), otherwise the three values the animation closes over. *)
Definition smoothScroll (target : option Q) (pageYOffset : Q) : option Scroll :=
  match target with
  | None => None
  | Some elementPosition =>
      let startPosition := pageYOffset in
      let offsetPosition := elementPosition + startPosition - headerOffset in
      let distance := offsetPosition - startPosition in
      Some {| startPosition := startPosition;
              distance := distance;
              duration := scrollDuration distance |}
  end.

(** One frame (lines 109-120): from the [start] cell and the timestamp,
    the new [start] cell, the argument of [window.scrollTo] and whether
    another frame is requested. *)
Definition animation (p : Scroll) (start : option Q) (currentTime : Q)
    : option Q * Q * bool :=
  let start := match start with None => currentTime | Some s => s end in
  let timeElapsed := currentTime - start in
  let progress := Qmin (timeElapsed / duration p) 1 in
  let ease := easeInOutCubic progress in
  (Some start, startPosition p + distance p * ease,
   Qltb timeElapsed (duration p)).

(** The frames of one scroll: [animation] runs on each timestamp for as
    long as it requested the next frame; the result is the last scroll
    position and whether a frame is still requested. *)
Fixpoint play (p : Scroll) (start : option Q) (y : Q) (frames : list Q)
    : Q * bool :=
  match frames with
  | [] => (y, true)
  | t :: frames' =>
      let '(start', y', again) := animation p start t in
      if again then play p start' y' frames' else (y', false)
  end.

Lemma cube_mono (a b : Q) : a <= b → a * a * a <= b * b * b.
Proof.
  intros H.
  assert (0 <= (b - a) * ((a + b) * (a + b) + a * a + b * b)) as H1.
  { apply Qmult_le_0_compat; [lra|]. nra. }
  nra.
Qed.

Lemma ease_low (t : Q) : t < 0.5 → easeInOutCubic t == 4 * (t * t * t).
Proof.
  intros Ht%Qltb_lt. unfold easeInOutCubic. rewrite Ht. ring.
Qed.

Lemma ease_high (t : Q) :
  0.5 <= t → easeInOutCubic t == 1 - 4 * ((1 - t) * (1 - t) * (1 - t)).
Proof.
  intros Ht%Qltb_ge. unfold easeInOutCubic. rewrite Ht. simpl. field.
Qed.

Lemma ease_mono (s t : Q) : s <= t → easeInOutCubic s <= easeInOutCubic t.
Proof.
  intros Hst.
  destruct (Qlt_le_dec s 0.5) as [Hs|Hs], (Qlt_le_dec t 0.5) as [Ht|Ht].
  - rewrite !ease_low by done. pose proof (cube_mono s t Hst). lra.
  - rewrite ease_low, ease_high by done.
    pose proof (cube_mono s 0.5 ltac:(lra)).
    pose proof (cube_mono (1 - t) 0.5 ltac:(lra)). lra.
  - lra.
  - rewrite !ease_high by done.
    pose proof (cube_mono (1 - t) (1 - s) ltac:(lra)). lra.
Qed.

Lemma ease_ends : easeInOutCubic 0 == 0 ∧ easeInOutCubic 1 == 1.
Proof. by split. Qed.

Lemma scrollDuration_bounds (d : Q) : 600 <= scrollDuration d <= 1200.
Proof.
  unfold scrollDuration.
  destruct (Q.max_spec (Qabs d * 0.5) 600) as [[? ->]|[? ->]];
    destruct (Q.min_spec (Qabs d * 0.5) 1200) as [[? Hm]|[? Hm]];
    destruct (Q.min_spec 600 1200) as [[? Hm']|[? Hm']];
    rewrite ?Hm, ?Hm'; lra.
Qed.

(** X12. The scroll lasts between 600 and 1200 ms whatever the distance:
    600 ms up to 1200 px, half a millisecond per pixel between 1200 and
    2400 px, 1200 ms beyond; scrolling up or down by the same distance
    takes the same time. *)
Theorem scroll_duration_is_clamped (d : Q) :
  600 <= scrollDuration d <= 1200
  ∧ (Qabs d <= 1200 → scrollDuration d == 600)
  ∧ (1200 <= Qabs d <= 2400 → scrollDuration d == Qabs d * 0.5)
  ∧ (2400 <= Qabs d → scrollDuration d == 1200)
  ∧ scrollDuration (- d) == scrollDuration d.
Proof.
  split; [apply scrollDuration_bounds|]. unfold scrollDuration. split_and!.
  - intros Hd. rewrite Q.max_r by lra. apply Q.min_l. lra.
  - intros [Hlo Hhi]. rewrite Q.max_l by lra. apply Q.min_l. lra.
  - intros Hd. rewrite Q.max_l by lra. apply Q.min_r. lra.
  - by rewrite Qabs_opp.
Qed.

(** X13. The easing curve starts at 0, ends at 1, passes through 1/2 at
    the middle, is point-symmetric about the middle, never decreases,
    and maps [0, 1] into [0, 1]. *)
Theorem easing_curve_shape (s t : Q) :
  easeInOutCubic 0 == 0
  ∧ easeInOutCubic 1 == 1
  ∧ easeInOutCubic 0.5 == 0.5
  ∧ easeInOutCubic (1 - t) == 1 - easeInOutCubic t
  ∧ (s <= t → easeInOutCubic s <= easeInOutCubic t)
  ∧ (0 <= t <= 1 → 0 <= easeInOutCubic t <= 1).
Proof.
  split_and!; [done|done|done| |apply ease_mono|].
  - destruct (Qlt_le_dec t 0.5) as [Ht|Ht].
    + rewrite (ease_low t), (ease_high (1 - t)) by lra. ring.
    + destruct (Qlt_le_dec 0.5 t) as [Ht'|Ht'].
      * rewrite (ease_high t), (ease_low (1 - t)) by lra. ring.
      * assert (t == 0.5) as Heq by lra.
        rewrite (ease_high t), (ease_high (1 - t)) by lra.
        rewrite Heq. reflexivity.
  - intros [Hlo Hhi]. split.
    + apply (Qle_trans _ (easeInOutCubic 0)); [done|by apply ease_mono].
    + apply (Qle_trans _ (easeInOutCubic 1)); [by apply ease_mono|done].
Qed.

Lemma ease_compat (a b : Q) : a == b → easeInOutCubic a == easeInOutCubic b.
Proof. intros Hab. apply Qle_antisym; apply ease_mono; lra. Qed.

Lemma ease_range (t : Q) : 0 <= t <= 1 → 0 <= easeInOutCubic t <= 1.
Proof.
  intros [Hlo Hhi]. split.
  - apply (Qle_trans _ (easeInOutCubic 0)); [done|by apply ease_mono].
  - apply (Qle_trans _ (easeInOutCubic 1)); [by apply ease_mono|done].
Qed.

(** The progress of a frame, [Math.min(timeElapsed / duration, 1)]. *)
Lemma progress_spec (elapsed dur : Q) :
  0 < dur →
  (elapsed < dur ∧ Qmin (elapsed / dur) 1 == elapsed / dur)
  ∨ (dur <= elapsed ∧ Qmin (elapsed / dur) 1 == 1).
Proof.
  intros Hdur. destruct (Qlt_le_dec elapsed dur) as [Hlt|Hge].
  - left. split; [done|]. apply Q.min_l.
    apply Qle_shift_div_r; [done|lra].
  - right. split; [done|]. apply Q.min_r.
    apply Qle_shift_div_l; [done|lra].
Qed.

Lemma progress_mono (e1 e2 dur : Q) :
  0 < dur → e1 <= e2 → Qmin (e1 / dur) 1 <= Qmin (e2 / dur) 1.
Proof.
  intros Hdur Hle. apply Q.min_le_compat_r. unfold Qdiv.
  apply Qmult_le_compat_r; [done|]. apply Qlt_le_weak, Qinv_lt_0_compat, Hdur.
Qed.

Lemma progress_range (elapsed dur : Q) :
  0 < dur → 0 <= elapsed → 0 <= Qmin (elapsed / dur) 1 <= 1.
Proof.
  intros Hdur Hel. split; [|apply Q.le_min_r].
  apply Q.min_glb; [|done]. apply Qle_shift_div_l; [done|lra].
Qed.

(** X14. While a scroll to an existing target runs, a frame at time [t]
    (the first frame came at [t0 <= t]) never overshoots: the position
    lies between the start and the target; a later frame is at least as
    far along; the frame requests another one exactly while less than
    [duration] ms have elapsed.  The first frame itself scrolls to the
    start position and records its timestamp. *)
Theorem scroll_frames_never_overshoot (elementPosition pageYOffset t0 t t' : Q) :
  t0 <= t → t <= t' →
  let target := elementPosition + pageYOffset - headerOffset in
  ∃ p, smoothScroll (Some elementPosition) pageYOffset = Some p
     ∧ animation p None t0 = (Some t0, (animation p None t0).1.2, true)
     ∧ (animation p None t0).1.2 == pageYOffset
     ∧ (animation p (Some t0) t).1.1 = Some t0
     ∧ ((animation p (Some t0) t).2 = true ↔ t - t0 < duration p)
     ∧ (let y := (animation p (Some t0) t).1.2 in
        let y' := (animation p (Some t0) t').1.2 in
        (pageYOffset <= target → pageYOffset <= y ∧ y <= y' ∧ y' <= target)
        ∧ (target <= pageYOffset → target <= y' ∧ y' <= y ∧ y <= pageYOffset)).
Proof.
  intros Ht Ht' target. eexists. split; [reflexivity|].
  set (d := elementPosition + pageYOffset - headerOffset - pageYOffset).
  pose proof (scrollDuration_bounds d) as [Hdlo Hdhi].
  assert (0 < scrollDuration d) as Hdur by lra.
  pose proof (progress_range (t - t0) _ Hdur ltac:(lra)) as Hr.
  pose proof (progress_range (t' - t0) _ Hdur ltac:(lra)) as Hr'.
  pose proof (progress_mono (t - t0) (t' - t0) _ Hdur ltac:(lra)) as Hm.
  apply ease_mono in Hm. apply ease_range in Hr, Hr'.
  unfold animation. cbn [startPosition distance duration fst snd].
  split_and!.
  - f_equal. apply Qltb_lt. lra.
  - assert (Qmin ((t0 - t0) / scrollDuration d) 1 == 0) as Hp.
    { assert (t0 - t0 == 0) as -> by ring.
      unfold Qdiv. rewrite Qmult_0_l. by apply Q.min_l. }
    rewrite (ease_compat _ _ Hp), (proj1 ease_ends). ring.
  - done.
  - apply Qltb_lt.
  - intros Hdir. subst target. unfold headerOffset in *.
    set (e := easeInOutCubic (Qmin ((t - t0) / _) 1)) in *.
    set (e' := easeInOutCubic (Qmin ((t' - t0) / _) 1)) in *.
    subst d. split_and!; nra.
  - intros Hdir. subst target. unfold headerOffset in *.
    set (e := easeInOutCubic (Qmin ((t - t0) / _) 1)) in *.
    set (e' := easeInOutCubic (Qmin ((t' - t0) / _) 1)) in *.
    subst d. split_and!; nra.
Qed.

Lemma scroll_frames_never_overshoot_witness :
  ∃ p, smoothScroll (Some 900) 0 = Some p
     ∧ animation p None 10 = (Some 10, (animation p None 10).1.2, true)
     ∧ (animation p None 10).1.2 == 0
     ∧ (animation p (Some 10) 310).1.1 = Some 10
     ∧ ((animation p (Some 10) 310).2 = true ↔ 310 - 10 < duration p)
     ∧ (let y := (animation p (Some 10) 310).1.2 in
        let y' := (animation p (Some 10) 500).1.2 in
        (0 <= 900 + 0 - headerOffset →
           0 <= y ∧ y <= y' ∧ y' <= 900 + 0 - headerOffset)
        ∧ (900 + 0 - headerOffset <= 0 →
           900 + 0 - headerOffset <= y' ∧ y' <= y ∧ y <= 0)).
Proof.
  apply (scroll_frames_never_overshoot 900 0 10 310 500); by vm_compute.
Defined.

Lemma play_cons (p : Scroll) (t0 y t : Q) (frames : list Q) :
  play p (Some t0) y (t :: frames)
  = let y' := startPosition p
              + distance p * easeInOutCubic (Qmin ((t - t0) / duration p) 1) in
    if Qltb (t - t0) (duration p) then play p (Some t0) y' frames
    else (y', false).
Proof. done. Qed.

Lemma play_first (p : Scroll) (t0 y : Q) (frames : list Q) :
  0 < duration p →
  play p None y (t0 :: frames)
  = play p (Some t0)
      (startPosition p
       + distance p * easeInOutCubic (Qmin ((t0 - t0) / duration p) 1)) frames.
Proof.
  intros Hdur. cbn [play]. unfold animation.
  assert (Qltb (t0 - t0) (duration p) = true) as ->; [|done].
  apply Qltb_lt. lra.
Qed.

(** X15. A scroll to an existing target ends exactly on the target,
    [elementPosition + pageYOffset - 100]: the first frame that comes
    [duration] ms or more after the first one scrolls there and requests
    no further frame, whatever the earlier frames were; until such a
    frame comes, every frame requests the next one. *)
Theorem scroll_lands_on_target (elementPosition pageYOffset : Q) :
  let target := elementPosition + pageYOffset - headerOffset in
  ∃ p, smoothScroll (Some elementPosition) pageYOffset = Some p
     ∧ (∀ t0 frames y,
          Exists (λ t, duration p <= t - t0) frames →
          (play p None y (t0 :: frames)).1 == target
          ∧ (play p None y (t0 :: frames)).2 = false)
     ∧ (∀ t0 frames y,
          Forall (λ t, t - t0 < duration p) frames →
          (play p None y (t0 :: frames)).2 = true).
Proof.
  intros target. eexists. split; [reflexivity|].
  set (d := elementPosition + pageYOffset - headerOffset - pageYOffset).
  set (p := {| startPosition := pageYOffset; distance := d;
               duration := scrollDuration d |}).
  pose proof (scrollDuration_bounds d) as [Hdlo Hdhi].
  assert (0 < duration p) as Hdur by (simpl; lra).
  split.
  - intros t0 frames y Hex. rewrite play_first by done.
    generalize (startPosition p + distance p
                * easeInOutCubic (Qmin ((t0 - t0) / duration p) 1)).
    clear y.
    assert (∀ t, duration p <= t - t0 →
              startPosition p
              + distance p * easeInOutCubic (Qmin ((t - t0) / duration p) 1)
              == target) as Hland.
    { intros t Ht.
      destruct (progress_spec (t - t0) (duration p) Hdur)
        as [[Hlt _]|[_ Hp]]; [lra|].
      rewrite (ease_compat _ _ Hp), (proj2 ease_ends).
      subst target p d. cbn [startPosition distance]. ring. }
    induction Hex as [t frames Ht|t frames Hex IH]; intros y;
      rewrite play_cons; cbv zeta.
    + assert (Qltb (t - t0) (duration p) = false) as -> by by apply Qltb_ge.
      cbn [fst snd]. split; [by apply Hland|done].
    + destruct (Qltb (t - t0) (duration p)) eqn:Hagain; [apply IH|].
      cbn [fst snd]. split; [|done]. by apply Hland, Qltb_ge.
  - intros t0 frames y Hall. rewrite play_first by done.
    generalize (startPosition p + distance p
                * easeInOutCubic (Qmin ((t0 - t0) / duration p) 1)).
    clear y.
    induction Hall as [|t frames Ht Hall IH]; intros y; [done|].
    rewrite play_cons. cbv zeta. apply Qltb_lt in Ht. rewrite Ht. apply IH.
Qed.

(** * The other diagrams of [src/components/Diagrams.tsx] *)

Local Open Scope nat_scope.

(** ** The head-to-head storyboard (lines 304-363) *)

Record ComparisonStep := mkStep {
  title : string;
  desc : string;
  lru : list string;
  hybrid : list string;
  highlight : string;
  status : string;
  lruRes : option string;
  hybridRes : option string
}.

Definition steps : list ComparisonStep :=
  [ {| title := "Initial State";
       desc := "Both caches hold valuable block 'A'.";
       lru := ["A"; "-"; "-"; "-"];
       hybrid := ["A"; "-"; "-"; "-"];
       highlight := "";
       status := "ready";
       lruRes := None; hybridRes := None |};
    {| title := "Step 1: Access B";
       desc := "Both policies insert B. Capacity is fine.";
       lru := ["B"; "A"; "-"; "-"];
       hybrid := ["B"; "A"; "-"; "-"];
       highlight := "B";
       status := "fill";
       lruRes := None; hybridRes := None |};
    {| title := "Step 2: Access C";
       desc := "Both policies insert C.";
       lru := ["C"; "B"; "A"; "-"];
       hybrid := ["C"; "B"; "A"; "-"];
       highlight := "C";
       status := "fill";
       lruRes := None; hybridRes := None |};
    {| title := "Step 3: Access D (Full)";
       desc := "Cache is now full. 'A' is at the LRU position.";
       lru := ["D"; "C"; "B"; "A"];
       hybrid := ["D"; "C"; "B"; "A"];
       highlight := "D";
       status := "full";
       lruRes := None; hybridRes := None |};
    {| title := "Step 4: Access E (Scan)";
       desc := "CRITICAL: LRU evicts 'A' (oldest). Hybrid detects 'A' is valuable (High Freq) and evicts 'B' (low confidence) instead.";
       lru := ["E"; "D"; "C"; "B"];
       hybrid := ["E"; "D"; "C"; "A"];
       highlight := "E";
       status := "evict";
       lruRes := None; hybridRes := None |};
    {| title := "Step 5: Reuse A";
       desc := "RESULT: LRU suffers a MISS. Hybrid gets a HIT because it protected 'A'.";
       lru := ["A"; "E"; "D"; "C"];
       hybrid := ["A"; "E"; "D"; "C"];
       highlight := "A";
       status := "result";
       lruRes := Some "MISS"; hybridRes := Some "HIT" |} ].

(** [setCurrentStep(Math.min(currentStep + 1, steps.length - 1))] *)
Definition nextStep (currentStep : nat) : nat :=
  (currentStep + 1) `min` (length steps - 1).

(** [setCurrentStep(0)] *)
Definition reset (currentStep : nat) : nat := 0.

Inductive Click := Next | Reset.

Definition click (currentStep : nat) (c : Click) : nat :=
  match c with
  | Next => nextStep currentStep
  | Reset => reset currentStep
  end.

(** X16. Whatever buttons are clicked, the current step of the
    storyboard stays an index of [steps], so the row that the view reads
    is always defined and shows CAPACITY slots per cache; [k] clicks on
    Next from the start reach step [min k 5], and at the last step Next
    changes nothing (the step where its button is disabled). *)
Theorem storyboard_step_stays_in_range (clicks : list Click) (k : nat) :
  (∃ row, steps !! foldl click 0 clicks = Some row
        ∧ length (lru row) = CAPACITY ∧ length (hybrid row) = CAPACITY)
  ∧ Nat.iter k nextStep 0 = (k `min` 5)%nat
  ∧ (∀ s, nextStep s = s ↔ s = length steps - 1).
Proof.
  split_and!.
  - assert (foldl click 0 clicks < 6)%nat as Hlt.
    { induction clicks as [|c clicks IH] using rev_ind; [simpl; lia|].
      rewrite foldl_snoc. destruct c; unfold click, nextStep, reset; simpl; lia. }
    set (s := foldl click 0 clicks) in *. clearbody s.
    do 6 (destruct s as [|s]; [eexists; split; [reflexivity|by split]|]).
    lia.
  - induction k as [|k IH]; [done|].
    rewrite Nat.iter_succ, IH. unfold nextStep. simpl. lia.
  - intros s. unfold nextStep. simpl. lia.
Qed.

(** ** The architecture flow (lines 462-473) *)

Definition packetPositions : list string := ["5%"; "25%"; "50%"; "75%"; "95%"].

(** The interval callback, [setStep(s => (s + 1) % 6)]. *)
Definition flowTick (s : nat) : nat := (s + 1) `mod` 6.

(** [packetPositions[Math.min(4, step)] ?? '0%'] *)
Definition currentLeft (step : nat) : string :=
  default "0%" (packetPositions !! (4 `min` step)).

(** The caption under the flow (lines 533-537): one line per step value,
    none of which matches step 5. *)
Definition flowCaption (step : nat) : option string :=
  if decide (step = 0) then Some "Extracting Frequency & Recency features..."
  else if decide (step = 1) then Some "Model predicts reuse likelihood..."
  else if decide (step = 2)
       then Some "Checking Prediction Confidence (τ = 0.88)..."
  else if decide (step = 3) then Some "High Confidence: ML Eviction!"
  else if decide (step = 4) then Some "Low Confidence: Fallback to LRU."
  else None.

(** X17. After [n] ticks the flow is at step [n mod 6]; the packet
    position is always one of the five listed ones (the ['0%'] fallback
    is never used, for any step), it rests at 95% during steps 4 and 5,
    and step 5 is the only step of the cycle without a caption. *)
Theorem flow_step_cycles (n step : nat) :
  Nat.iter n flowTick 0 = (n `mod` 6)%nat
  ∧ packetPositions !! (4 `min` step) = Some (currentLeft step)
  ∧ currentLeft step ≠ "0%"
  ∧ currentLeft 4 = "95%" ∧ currentLeft 5 = "95%"
  ∧ (flowCaption (Nat.iter n flowTick 0) = None ↔ (n `mod` 6 = 5)%nat).
Proof.
  assert (Nat.iter n flowTick 0 = (n `mod` 6)%nat) as Hiter.
  { induction n as [|n IH]; [done|].
    rewrite Nat.iter_succ, IH. unfold flowTick.
    rewrite Nat.Div0.add_mod_idemp_l. f_equal. lia. }
  split_and!; [done| | |done|done|].
  - unfold currentLeft. do 4 (destruct step as [|step]; [done|]). done.
  - unfold currentLeft. do 4 (destruct step as [|step]; [done|]). done.
  - rewrite Hiter. pose proof (Nat.mod_upper_bound n 6 ltac:(lia)) as Hlt.
    set (s := n `mod` 6) in *. clearbody s.
    do 6 (destruct s as [|s]; [done|]). lia.
Qed.

(** ** The two-phase flow (lines 544-615) *)

(** The [label] and [detail] of each step (the icons are left out). *)
Definition offlineSteps : list (string * string) :=
  [ ("Trace", "Memory Access Trace"); ("Features", "Feature Extraction");
    ("Oracle", "Belady Labels"); ("Dataset", "Features + Labels");
    ("Training", "ML Model Training"); ("Model", "Trained Model") ].

Definition onlineSteps : list (string * string) :=
  [ ("Miss", "Cache Miss Event"); ("Set", "Candidate Blocks");
    ("Features", "Feature Extraction"); ("Predict", "ML Predictor");
    ("Confidence", "Prediction Confident?"); ("Decision", "ML Eviction / LRU") ].

(** One interval callback on the two index cells (lines 568-569). *)
Definition phaseTick (idx : nat * nat) : nat * nat :=
  ((idx.1 + 1) `mod` length offlineSteps, (idx.2 + 1) `mod` length onlineSteps).

(** [steps[activeIdx]?.detail] *)
Definition activeDetail (steps : list (string * string)) (activeIdx : nat)
    : option string :=
  snd <$> steps !! activeIdx.

(** The connectors that are drawn filled: [activeIdx >= idx + 1] among
    [idx < steps.length - 1]. *)
Definition filledConnectors (steps : list (string * string)) (activeIdx : nat)
    : list nat :=
  filter (λ idx, idx + 1 ≤ activeIdx) (seq 0 (length steps - 1)).

(** X18. The offline and the online flow advance in lockstep: after [n]
    ticks both indices are [n mod 6], so each flow always has an active
    step with a detail line, and exactly the connectors before the
    active step are filled. *)
Theorem phase_flows_in_lockstep (n : nat) :
  let idx := Nat.iter n phaseTick (0, 0)%nat in
  idx = (n `mod` 6, n `mod` 6)%nat
  ∧ is_Some (activeDetail offlineSteps idx.1)
  ∧ is_Some (activeDetail onlineSteps idx.2)
  ∧ filledConnectors offlineSteps idx.1 = seq 0 idx.1
  ∧ filledConnectors onlineSteps idx.2 = seq 0 idx.2.
Proof.
  assert (Nat.iter n phaseTick (0, 0)%nat = (n `mod` 6, n `mod` 6)%nat) as ->.
  { induction n as [|n IH]; [done|].
    rewrite Nat.iter_succ, IH. unfold phaseTick. cbn [fst snd].
    change (length offlineSteps) with 6. change (length onlineSteps) with 6.
    rewrite Nat.Div0.add_mod_idemp_l. do 2 f_equal; lia. }
  cbv zeta. cbn [fst snd].
  pose proof (Nat.mod_upper_bound n 6 ltac:(lia)) as Hlt.
  split; [done|].
  set (s := n `mod` 6) in *. clearbody s.
  do 6 (destruct s as [|s]; [by split_and!; try by eexists|]).
  lia.
Qed.

(** * The tiles of the simulator view (lines 222-266)

    What the view derives from the state for each block tile: the red
    and the yellow border (lines 231-232), the gold score text (line
    248) and the shield watermark (line 262). *)

Local Open Scope Q_scope.

(** [Math.min(...xs)]; [None] stands for [Infinity] (empty array). *)
Definition Math_min (xs : list Q) : option Q :=
  foldl (λ acc x, Some match acc with None => x | Some m => Qmin m x end) None xs.

(** [Math.max(...xs)] on the recency column; [None] is [-Infinity]. *)
Definition Math_max_recency (xs : list N) : option N :=
  foldl (λ acc x, Some match acc with None => x | Some m => N.max m x end) None xs.

(** [decisionMode === 'ML' && block.score === Math.min(...scores)] *)
Definition mlMarked (st : SimState) (block : CacheBlock) : bool :=
  match decisionMode st, Math_min (score <$> cache st) with
  | ML, Some m => Qeq_bool (score block) m
  | _, _ => false
  end.

(** [decisionMode === 'LRU_FALLBACK' &&
     block.recency === Math.max(...recencies)] *)
Definition lruMarked (st : SimState) (block : CacheBlock) : bool :=
  match decisionMode st, Math_max_recency (recency <$> cache st) with
  | LRU_FALLBACK, Some m => (recency block =? m)%N
  | _, _ => false
  end.

(** The two interpolated pieces of the tile's class name. *)
Definition tileBorder (st : SimState) (block : CacheBlock) : string * string :=
  (if mlMarked st block then "border-red-500 bg-red-900/10" else "",
   if lruMarked st block then "border-yellow-500 bg-yellow-900/10"
   else "border-stone-800 bg-stone-900").

(** [block.score > 0.5] (gold text) and [block.score > 0.8] (shield). *)
Definition goldScore (block : CacheBlock) : bool := Qltb 0.5 (score block).
Definition shieldShown (block : CacheBlock) : bool := Qltb 0.8 (score block).

Lemma Math_min_snoc xs x :
  Math_min (xs ++ [x]) =
  Some match Math_min xs with None => x | Some m => Qmin m x end.
Proof. unfold Math_min. by rewrite foldl_snoc. Qed.

Lemma Math_min_spec xs :
  xs ≠ [] → ∃ m, Math_min xs = Some m ∧ m ∈ xs ∧ ∀ x, x ∈ xs → m <= x.
Proof.
  induction xs as [|x xs IH] using rev_ind; [done|]. intros _.
  rewrite Math_min_snoc. destruct xs as [|y ys _] using rev_ind.
  - exists x. split; [done|]. split; [by apply list_elem_of_singleton|].
    intros z ->%list_elem_of_singleton. apply Qle_refl.
  - destruct IH as (m & -> & Hin & Hlb); [by destruct ys|].
    eexists. split; [done|].
    destruct (Q.min_spec m x) as [[Hlt Heq]|[Hle Heq]].
    + assert (Qmin m x = m) as ->.
      { unfold Qmin, GenericMinMax.gmin.
        by rewrite (proj1 (Qlt_alt m x) Hlt). }
      split; [apply elem_of_app; by left|].
      intros z [Hz| ->%list_elem_of_singleton]%elem_of_app; [auto|lra].
    + destruct (Qle_lt_or_eq _ _ Hle) as [Hlt|Hxm].
      * assert (Qmin m x = x) as ->.
        { unfold Qmin, GenericMinMax.gmin.
          by rewrite (proj1 (Qgt_alt m x) Hlt). }
        split; [apply elem_of_app; right; by apply list_elem_of_singleton|].
        intros z [Hz| ->%list_elem_of_singleton]%elem_of_app;
          [specialize (Hlb z Hz); lra|lra].
      * assert (Qmin m x = m) as ->.
        { unfold Qmin, GenericMinMax.gmin.
          by rewrite (proj1 (Qeq_alt m x) (Qeq_sym _ _ Hxm)). }
        split; [apply elem_of_app; by left|].
        intros z [Hz| ->%list_elem_of_singleton]%elem_of_app; [auto|lra].
Qed.

Lemma Math_max_recency_snoc xs x :
  Math_max_recency (xs ++ [x]) =
  Some match Math_max_recency xs with None => x | Some m => N.max m x end.
Proof. unfold Math_max_recency. by rewrite foldl_snoc. Qed.

Lemma Math_max_recency_spec xs :
  xs ≠ [] →
  ∃ m, Math_max_recency xs = Some m ∧ m ∈ xs ∧ ∀ x, x ∈ xs → (x <= m)%N.
Proof.
  induction xs as [|x xs IH] using rev_ind; [done|]. intros _.
  rewrite Math_max_recency_snoc. destruct xs as [|y ys _] using rev_ind.
  - exists x. split; [done|]. split; [by apply list_elem_of_singleton|].
    intros z ->%list_elem_of_singleton. lia.
  - destruct IH as (m & -> & Hin & Hub); [by destruct ys|].
    eexists. split; [done|].
    destruct (N.max_spec m x) as [[Hlt ->]|[Hle ->]]; split.
    + apply elem_of_app. right. by apply list_elem_of_singleton.
    + intros z [Hz| ->%list_elem_of_singleton]%elem_of_app;
        [specialize (Hub z Hz); lia|lia].
    + apply elem_of_app. by left.
    + intros z [Hz| ->%list_elem_of_singleton]%elem_of_app; [auto|lia].
Qed.

(** X19. After a miss on the full cache that fell back to LRU (in a
    state that a run reached), exactly one tile carries the yellow
    border and none the red one.  The yellow tile is not the slot that
    the eviction replaced: the evicted block is no longer shown, and the
    mark is on the oldest block that survived. *)
Theorem lru_mark_is_on_one_survivor (es : list Event) (blockId : string) :
  let st := run initial es in
  let st' := access st blockId in
  blockId ∉ id <$> cache st →
  length (cache st) = CAPACITY →
  decisionMode st' = LRU_FALLBACK →
  ∃ v i b,
    id <$> cache st' = <[v := blockId]> (id <$> cache st)
    ∧ i ≠ v
    ∧ cache st' !! i = Some b
    ∧ tileBorder st' b = ("", "border-yellow-500 bg-yellow-900/10")
    ∧ (∀ j b', cache st' !! j = Some b' → j ≠ i →
         tileBorder st' b' = ("", "border-stone-800 bg-stone-900")).
Proof.
  intros st st' Hmiss Hlen Hmode.
  assert (NoDup (recency <$> cache st')) as Hnd
    by apply access_recencies_distinct, resident_recencies_distinct_aux.
  destruct (capacity_miss_outcome st blockId Hmiss)
    as (m & v & victim & _ & Hv & _ & Hacc); [lia|].
  fold st' in Hacc.
  assert (cache st' = <[v := newBlock (workload st) blockId]>
                        (age (workload st) <$> cache st)) as Hcache
    by by rewrite Hacc.
  assert (length (cache st') = CAPACITY) as Hlen'
    by by rewrite Hcache, length_insert, length_fmap.
  destruct (Math_max_recency_spec (recency <$> cache st'))
    as (M & HM & [i Hi]%list_elem_of_lookup & Hub).
  { destruct (cache st'); [done|done]. }
  apply list_lookup_fmap_Some in Hi as (b & HMb & Hb).
  assert (∀ b', mlMarked st' b' = false) as Hml.
  { intros b'. unfold mlMarked. by rewrite Hmode. }
  assert (∀ b', lruMarked st' b' = true ↔ recency b' = M) as Hlru.
  { intros b'. unfold lruMarked. rewrite Hmode, HM. apply N.eqb_eq. }
  exists v, i, b. split_and!.
  - by rewrite Hcache, list_fmap_insert, age_ids.
  - intros ->. apply lookup_lt_Some in Hv. rewrite length_fmap in Hv.
    rewrite Hcache, list_lookup_insert_eq in Hb
      by (by rewrite length_fmap).
    injection Hb as <-. simpl in HMb. subst M.
    set (j := if decide (v = 0%nat) then 1%nat else 0%nat).
    assert (v ≠ j ∧ j < 2)%nat as [Hvj Hj2] by (subst j; case_decide; lia).
    destruct (cache st !! j) as [x|] eqn:Hx.
    + specialize (Hub (recency (age (workload st) x))).
      enough (recency (age (workload st) x) <= 0)%N by (simpl in *; lia).
      apply Hub. apply list_elem_of_fmap. eexists. split; [done|].
      rewrite Hcache. apply (list_elem_of_lookup_2 _ j).
      rewrite list_lookup_insert_ne by done.
      by rewrite list_lookup_fmap, Hx.
    + apply lookup_ge_None in Hx. unfold CAPACITY in *. lia.
  - done.
  - unfold tileBorder. by rewrite Hml, (proj2 (Hlru b)).
  - intros j b' Hj Hne. unfold tileBorder. rewrite Hml.
    destruct (lruMarked st' b') eqn:Hmark; [|done].
    apply Hlru in Hmark. destruct Hne.
    eapply NoDup_lookup; [exact Hnd| |].
    + by rewrite list_lookup_fmap, Hj.
    + rewrite list_lookup_fmap, Hb. simpl. congruence.
Qed.

Lemma lru_mark_is_on_one_survivor_witness :
  decisionMode (access full_friendly "E") = LRU_FALLBACK
  ∧ ∃ v i b,
      id <$> cache (access full_friendly "E")
      = <[v := "E"]> (id <$> cache full_friendly)
      ∧ i ≠ v
      ∧ cache (access full_friendly "E") !! i = Some b
      ∧ tileBorder (access full_friendly "E") b
        = ("", "border-yellow-500 bg-yellow-900/10")
      ∧ (∀ j b', cache (access full_friendly "E") !! j = Some b' → j ≠ i →
           tileBorder (access full_friendly "E") b'
           = ("", "border-stone-800 bg-stone-900")).
Proof.
  split; [reflexivity|].
  apply (lru_mark_is_on_one_survivor
           (SetWorkload Friendly :: accesses ["A"; "B"; "C"; "D"]) "E"
           full_friendly_misses_E eq_refl eq_refl).
Defined.

(** X20. After a miss on the full cache that the ML branch resolved (in
    a state that a run reached), the red border is on exactly the tiles
    whose block has frequency 1, the block just inserted among them; the
    evicted block is no longer shown.  No tile is yellow. *)
Theorem ml_mark_is_on_the_cold_blocks (es : list Event) (blockId : string) :
  let st := run initial es in
  let st' := access st blockId in
  blockId ∉ id <$> cache st →
  length (cache st) = CAPACITY →
  decisionMode st' = ML →
  (∀ j b, cache st' !! j = Some b →
     tileBorder st' b
     = (if decide (frequency b = 1%N) then "border-red-500 bg-red-900/10"
        else "",
        "border-stone-800 bg-stone-900"))
  ∧ ∃ v b, cache st' !! v = Some b ∧ id b = blockId
         ∧ id <$> cache st' = <[v := blockId]> (id <$> cache st)
         ∧ mlMarked st' b = true.
Proof.
  intros st st' Hmiss Hlen Hmode.
  destruct (capacity_miss_outcome st blockId Hmiss)
    as (m & v & victim & [Hin _] & Hv & _ & Hacc); [lia|].
  fold st' in Hacc.
  assert (Qltb CONFIDENCE_THRESHOLD m = true) as Hgate.
  { rewrite Hacc in Hmode. simpl in Hmode. by destruct (Qltb _ _). }
  assert (workload st = Hostile) as Hw.
  { destruct (workload st); [|done]. exfalso.
    apply list_elem_of_fmap in Hin as (b & -> & Hb).
    apply list_elem_of_fmap in Hb as (b0 & -> & _). simpl in Hgate.
    apply Qltb_lt in Hgate. apply (Qlt_not_le _ _ Hgate).
    eapply Qle_trans; [apply Q.le_min_l|]. qcompare. }
  assert (cache st' = <[v := newBlock Hostile blockId]>
                        (age Hostile <$> cache st)) as Hcache
    by by rewrite Hacc, Hw.
  apply lookup_lt_Some in Hv. rewrite length_fmap in Hv.
  assert (cache st' !! v = Some (newBlock Hostile blockId)) as Hnew.
  { rewrite Hcache. apply list_lookup_insert_eq. by rewrite length_fmap. }
  assert (∀ b, b ∈ cache st' →
            score b = if decide (frequency b = 1%N) then 0.4 else 0.95)
    as Hscore.
  { intros b Hb.
    pose proof (access_frequency_positive st blockId) as Hpos.
    rewrite !Forall_forall in Hpos. specialize (Hpos ltac:(
      intros x Hx; destruct (run_well_formed es) as (Hwf & _);
      rewrite Forall_forall in Hwf; by apply Hwf) b Hb).
    rewrite (access_scores_fresh st blockId b Hb), Hw, hostile_cases.
    destruct (decide (2 <= frequency b)%N).
    - by rewrite decide_False by lia.
    - by rewrite !decide_True by lia. }
  destruct (Math_min_spec (score <$> cache st')) as (lo & Hlo & Hloin & Hlb).
  { intros Hnil. apply (f_equal length) in Hnil.
    rewrite length_fmap, Hcache, length_insert, length_fmap in Hnil.
    simpl in Hnil. lia. }
  assert (lo == 0.4) as Hlo04.
  { apply Qle_antisym.
    - apply (Hlb (score (newBlock Hostile blockId))).
      apply list_elem_of_fmap. eexists. split; [done|].
      by eapply list_elem_of_lookup_2.
    - apply list_elem_of_fmap in Hloin as (b & -> & Hb).
      rewrite (Hscore b Hb). destruct (decide _); qcompare. }
  assert (∀ b, b ∈ cache st' →
            mlMarked st' b = bool_decide (frequency b = 1%N)) as Hml.
  { intros b Hb. unfold mlMarked. rewrite Hmode, Hlo, (Hscore b Hb).
    case_bool_decide.
    - rewrite decide_True by done. apply Qeq_bool_iff. by rewrite Hlo04.
    - rewrite decide_False by done. apply not_true_iff_false.
      rewrite Qeq_bool_iff, Hlo04. by intros ?. }
  split.
  - intros j b Hb%list_elem_of_lookup_2. unfold tileBorder.
    rewrite (Hml b Hb). unfold lruMarked. rewrite Hmode.
    by destruct (decide (frequency b = 1%N));
      [rewrite bool_decide_eq_true_2|rewrite bool_decide_eq_false_2].
  - exists v, (newBlock Hostile blockId). split_and!; [done|done| |].
    + by rewrite Hcache, list_fmap_insert, age_ids.
    + rewrite Hml by by eapply list_elem_of_lookup_2. done.
Qed.

Lemma ml_mark_is_on_the_cold_blocks_witness :
  decisionMode (access full_hostile "E") = ML
  ∧ (∀ j b, cache (access full_hostile "E") !! j = Some b →
       tileBorder (access full_hostile "E") b
       = (if decide (frequency b = 1%N) then "border-red-500 bg-red-900/10"
          else "",
          "border-stone-800 bg-stone-900"))
  ∧ ∃ v b, cache (access full_hostile "E") !! v = Some b ∧ id b = "E"
         ∧ id <$> cache (access full_hostile "E")
           = <[v := "E"]> (id <$> cache full_hostile)
         ∧ mlMarked (access full_hostile "E") b = true.
Proof.
  split; [reflexivity|].
  apply (ml_mark_is_on_the_cold_blocks
           (accesses ["A"; "B"; "C"; "D"; "A"; "A"]) "E"
           full_hostile_misses_E eq_refl eq_refl).
Defined.

Lemma friendly_gold (freq recency : N) :
  0.5 < predictReuseProb freq recency Friendly ↔ (recency <= 1)%N.
Proof.
  rewrite friendly_uncapped, friendly_base.
  pose proof (N.succ_pos_spec recency) as Hp.
  unfold Qlt. simpl. lia.
Qed.

(** X21. Right after any access in a state that a run reached, the
    marks on a tile follow the block's features: the shield watermark
    (score above 0.8) is shown exactly for a block with frequency >= 2
    under the Hostile workload and never under the Friendly one; the
    score is printed in gold (above 0.5) for the same Hostile blocks,
    and under the Friendly workload for the blocks with recency 0 or
    1. *)
Theorem score_marks_follow_features (es : list Event) (blockId : string) :
  let st' := access (run initial es) blockId in
  Forall (λ b,
            (shieldShown b = true
             ↔ workload st' = Hostile ∧ (2 <= frequency b)%N)
            ∧ (goldScore b = true
               ↔ (workload st' = Hostile ∧ (2 <= frequency b)%N)
                 ∨ (workload st' = Friendly ∧ (recency b <= 1)%N)))
         (cache st').
Proof.
  intros st'. apply Forall_forall. intros b Hb.
  pose proof (access_frequency_positive (run initial es) blockId) as Hpos.
  rewrite !Forall_forall in Hpos. specialize (Hpos ltac:(
    intros x Hx; destruct (run_well_formed es) as (Hwf & _);
    rewrite Forall_forall in Hwf; by apply Hwf) b Hb).
  unfold shieldShown, goldScore. rewrite !Qltb_lt.
  subst st'. rewrite access_workload.
  rewrite (access_scores_fresh _ blockId b Hb).
  destruct (workload (run initial es)).
  - split.
    + split; [|by intros [? _]]. intros Hlt. exfalso.
      pose proof (friendly_base_bounds (recency b)) as [_ Hhi].
      rewrite friendly_uncapped in Hlt. lra.
    + rewrite friendly_gold. split; [by right|].
      by intros [[? _]|[_ ?]].
  - rewrite hostile_cases.
    destruct (decide (2 <= frequency b)%N) as [Hge|Hlt].
    + split; (split; [intros _|intros _; qcompare]); [done|by left].
    + rewrite decide_True by lia.
      split; (split; [intros Hc; by vm_compute in Hc|]).
      * by intros [_ ?].
      * by intros [[_ ?]|[? _]].
Qed.

(** * Rounding and the decisions *)

(** X22. Evaluated in IEEE-754 binary64, the score of any block compares
    against the 0.88 threshold exactly as the exact score does, and two
    Hostile scores compare with each other exactly as the exact ones do:
    rounding cannot flip the gate or the ML victim search.  Whatever the
    Friendly base score rounds to (even NaN), [Math.min(0.85, .)] keeps
    it from passing the gate. *)
Theorem binary64_decisions_agree (freq recency freq' recency' : N)
    (type : WorkloadType) (x : spec_float) :
  SFltb (b64_lit 88 100) (predictReuseProb64 freq recency type)
  = Qltb CONFIDENCE_THRESHOLD (predictReuseProb freq recency type)
  ∧ SFltb (predictReuseProb64 freq recency Hostile)
          (predictReuseProb64 freq' recency' Hostile)
    = Qltb (predictReuseProb freq recency Hostile)
           (predictReuseProb freq' recency' Hostile)
  ∧ SFltb (b64_lit 88 100) (Math_min64 (b64_lit 85 100) x) = false
  ∧ SFltb (b64_lit 88 100) (predictReuseProb64 freq recency Friendly) = false.
Proof.
  split_and!.
  - apply gate_rounding_free.
  - apply hostile_order_rounding_free.
  - apply Math_min64_cap.
  - apply Math_min64_cap.
Qed.

(** * The scores as binary64 numbers

    What [predictReuseProb] returns at run time is a double.  The Hostile
    scores are the doubles of three literals; the Friendly score is
    [Math.min(0.85, 0.4 + (1 / (recency + 1)) * 0.3)] with a rounding after
    the division, the product and the sum.  This part proves what the
    rounded Friendly score is: Stdlib's [SpecFloat] operations are shown to
    round to nearest, ties to even, on positive normal doubles, and the
    three roundings of the score are then followed through.

    The counters are exact in a double below [2 ^ 53]; the statements
    about [predictReuseProb64] are for such recencies ([recency += 1] has
    no effect on a double from [2 ^ 53] on). *)

From Stdlib Require Import Qpower ZArith Lia.

Local Open Scope Z_scope.

(** ** Binary digits *)

Lemma digits2_pos_size (p : positive) : digits2_pos p = Pos.size p.
Proof. induction p; simpl; congruence. Qed.

Lemma Zdigits2_bounds (m : positive) :
  2 ^ (Zdigits2 (Zpos m) - 1) <= Zpos m < 2 ^ Zdigits2 (Zpos m).
Proof.
  simpl. rewrite digits2_pos_size.
  pose proof (Pos.size_gt m) as Hgt. pose proof (Pos.size_le m) as Hle.
  apply Pos2Z.pos_lt_pos in Hgt. apply Pos2Z.pos_le_pos in Hle.
  rewrite Pos2Z.inj_pow in Hgt, Hle.
  assert (Z.pos m~0 = 2 * Z.pos m) as Hxo by lia. rewrite Hxo in Hle. clear Hxo.
  set (s := Z.pos (Pos.size m)) in *.
  assert (2 ^ s = 2 * 2 ^ (s - 1)) as Hpow.
  { rewrite <- Z.pow_succ_r by lia. f_equal. lia. }
  split; [|exact Hgt]. lia.
Qed.

Lemma Zdigits2_pos (m : positive) : 0 < Zdigits2 (Zpos m).
Proof. simpl. lia. Qed.

(** The number of binary digits is fixed by the power-of-two bracket. *)
Lemma Zdigits2_unique (m : positive) (d : Z) :
  2 ^ (d - 1) <= Zpos m < 2 ^ d → Zdigits2 (Zpos m) = d.
Proof.
  intros [Hlo Hhi]. pose proof (Zdigits2_bounds m) as [Hlo' Hhi'].
  pose proof (Zdigits2_pos m) as Hpos.
  assert (0 < d) as Hd.
  { destruct (Z.lt_ge_cases 0 d) as [|Hle]; [done|].
    destruct (Z.eq_dec d 0) as [->|Hne]; [simpl in Hhi; lia|].
    rewrite Z.pow_neg_r in Hhi by lia. lia. }
  destruct (Z.lt_trichotomy (Zdigits2 (Zpos m)) d) as [Hlt|[Heq|Hgt]]; [|done|].
  - assert (2 ^ Zdigits2 (Z.pos m) <= 2 ^ (d - 1)) by (apply Z.pow_le_mono_r; lia). lia.
  - assert (2 ^ d <= 2 ^ (Zdigits2 (Z.pos m) - 1)) by (apply Z.pow_le_mono_r; lia). lia.
Qed.

(** ** Shifting a mantissa right keeps track of what is cut off *)

(** [mrs] holds the quotient of [a] by [b], with the round bit (the
    remainder is at least half of [b]) and the sticky bit (the remainder
    is neither zero nor exactly half). *)
Definition shr_repr (a b : Z) (mrs : shr_record) : Prop :=
  shr_m mrs = a / b
  ∧ shr_r mrs = (b <=? 2 * (a mod b))
  ∧ shr_s mrs = negb (a mod b =? 0) && negb (2 * (a mod b) =? b).

Ltac zbool :=
  repeat match goal with
         | |- context [(?x <=? ?y)%Z] => destruct (Z.leb_spec x y)
         | |- context [(?x =? ?y)%Z] => destruct (Z.eqb_spec x y)
         | H : context [(?x <=? ?y)%Z] |- _ => destruct (Z.leb_spec x y)
         | H : context [(?x =? ?y)%Z] |- _ => destruct (Z.eqb_spec x y)
         end.

Lemma shr_1_repr (a b : Z) (mrs : shr_record) :
  0 <= a → 0 < b → shr_repr a b mrs → shr_repr a (2 * b) (shr_1 mrs).
Proof.
  intros Ha Hb. destruct mrs as [m r s]. unfold shr_repr. simpl.
  intros (Hm & Hr & Hs).
  pose proof (Z.div_mod a b ltac:(lia)) as Hdm.
  pose proof (Z.mod_pos_bound a b Hb) as Hrem.
  set (q := a / b) in *. set (rem := a mod b) in *.
  assert (∀ q' rem', a = 2 * b * q' + rem' → 0 <= rem' < 2 * b →
            a / (2 * b) = q' ∧ a mod (2 * b) = rem') as Huniq.
  { intros q' rem' Heq Hbound. split.
    - symmetry. apply (Z.div_unique_pos a (2 * b) q' rem'); lia.
    - symmetry. apply (Z.mod_unique_pos a (2 * b) q' rem'); lia. }
  destruct m as [|[p|p|]|p]; simpl.
  - destruct (Huniq 0 rem) as [-> ->]; [lia|lia|].
    subst r s. split_and!; [done| |]; zbool; simpl; try reflexivity; lia.
  - destruct (Huniq (Z.pos p) (b + rem)) as [-> ->]; [lia|lia|].
    subst r s. split_and!; [done| |]; zbool; simpl; try reflexivity; lia.
  - destruct (Huniq (Z.pos p) rem) as [-> ->]; [lia|lia|].
    subst r s. split_and!; [done| |]; zbool; simpl; try reflexivity; lia.
  - destruct (Huniq 0 (b + rem)) as [-> ->]; [lia|lia|].
    subst r s. split_and!; [done| |]; zbool; simpl; try reflexivity; lia.
  - assert (0 <= q) by (apply Z.div_pos; lia). lia.
Qed.

Lemma shr_iter_repr (a : Z) (p : positive) :
  0 <= a → ∀ b mrs, 0 < b → shr_repr a b mrs →
  shr_repr a (b * 2 ^ Zpos p) (SpecFloat.iter_pos shr_1 p mrs).
Proof.
  intros Ha. induction p as [p IH|p IH|]; intros b mrs Hb Hrepr; simpl SpecFloat.iter_pos.
  - assert (b * 2 ^ Z.pos p~1 = 2 * b * 2 ^ Z.pos p * 2 ^ Z.pos p) as ->.
    { assert (Z.pos p~1 = Z.pos p + Z.pos p + 1) as -> by lia.
      rewrite !Z.pow_add_r by lia. change (2 ^ 1) with 2. ring. }
    apply IH; [pose proof (Z.pow_pos_nonneg 2 (Z.pos p)); lia|].
    apply IH; [lia|]. by apply shr_1_repr.
  - assert (b * 2 ^ Z.pos p~0 = b * 2 ^ Z.pos p * 2 ^ Z.pos p) as ->.
    { assert (Z.pos p~0 = Z.pos p + Z.pos p) as -> by lia.
      rewrite !Z.pow_add_r by lia. ring. }
    apply IH; [pose proof (Z.pow_pos_nonneg 2 (Z.pos p)); lia|].
    by apply IH.
  - change (2 ^ 1) with 2. rewrite Z.mul_comm. by apply shr_1_repr.
Qed.

(** The position of a remainder [r] of a division by [b]. *)
Definition loc_of_rem (b r : Z) : location :=
  if r =? 0 then loc_Exact else loc_Inexact (2 * r ?= b).

Lemma shr_record_of_loc_repr (a b : Z) :
  0 <= a → 0 < b →
  shr_repr a b (shr_record_of_loc (a / b) (loc_of_rem b (a mod b))).
Proof.
  intros Ha Hb. pose proof (Z.mod_pos_bound a b Hb) as Hrem.
  unfold shr_repr, loc_of_rem.
  destruct (Z.eqb_spec (a mod b) 0) as [->|Hne]; simpl.
  - split_and!; [done| |]; zbool; simpl; try reflexivity; lia.
  - destruct (Z.compare_spec (2 * (a mod b)) b); simpl;
      (split_and!; [done| |]); zbool; simpl; try reflexivity; lia.
Qed.

Lemma shr_repr_shr (a b : Z) (mrs : shr_record) (e n : Z) :
  0 <= a → 0 < b → 0 <= n → shr_repr a b mrs →
  shr_repr a (b * 2 ^ n) (shr mrs e n).1 ∧ (shr mrs e n).2 = e + n.
Proof.
  intros Ha Hb Hn Hrepr. destruct n as [|p|p]; simpl.
  - by rewrite Z.mul_1_r, Z.add_0_r.
  - split; [|done]. by apply shr_iter_repr.
  - lia.
Qed.

(** [k] is the integer nearest to [a / b], the even one on a tie. *)
Definition rne_spec (a b k : Z) : Prop :=
  Z.abs (2 * (k * b - a)) <= b
  ∧ (Z.abs (2 * (k * b - a)) = b → Z.even k = true).

Lemma round_nearest_even_spec (a b : Z) (mrs : shr_record) :
  0 <= a → 0 < b → shr_repr a b mrs →
  let k := round_nearest_even (shr_m mrs) (loc_of_shr_record mrs) in
  rne_spec a b k ∧ a / b <= k <= a / b + 1.
Proof.
  intros Ha Hb. destruct mrs as [m r s]. unfold shr_repr, rne_spec. simpl.
  intros (-> & -> & ->).
  pose proof (Z.div_mod a b ltac:(lia)) as Hdm.
  pose proof (Z.mod_pos_bound a b Hb) as Hrem.
  set (q := a / b) in *. set (rem := a mod b) in *.
  assert (∀ k, k * b - a = (k - q) * b - rem) as Hk by (intros; lia).
  destruct (Z.leb_spec b (2 * rem)), (Z.eqb_spec rem 0), (Z.eqb_spec (2 * rem) b);
    simpl; try lia.
  - destruct (Z.even q) eqn:Heven.
    + split; [|lia]. rewrite Hk. split; [lia|done].
    + split; [|lia]. rewrite Hk. split; [lia|].
      intros _. rewrite Z.add_1_r, Z.even_succ, <- Z.negb_even, Heven. done.
Qed.

(** ** Rounding to binary64 *)

(** [binary_round_aux] on the quotient [a / b] scaled by [2 ^ e], in the
    normal range: the result is the canonical double [m * 2 ^ ee] whose
    value [k * 2 ^ e0] has [k] the integer nearest to [a / (b * 2 ^ (e0 - e))],
    ties to even. *)
Lemma binary_round_aux_spec (a b e : Z) :
  0 <= a → 0 < b → 53 <= Zdigits2 (a / b) →
  let e0 := Zdigits2 (a / b) + e - 53 in
  -1074 <= e0 <= 970 →
  ∃ (m : positive) (ee k : Z),
    binary_round_aux 53 1024 false (a / b) e (loc_of_rem b (a mod b))
    = S754_finite false m ee
    ∧ 2 ^ 52 <= Zpos m < 2 ^ 53
    ∧ 2 ^ 52 <= k <= 2 ^ 53
    ∧ e0 <= ee <= e0 + 1
    ∧ Zpos m * 2 ^ (ee - e0) = k
    ∧ 2 ^ 52 * (b * 2 ^ (e0 - e)) <= a < 2 ^ 53 * (b * 2 ^ (e0 - e))
    ∧ rne_spec a (b * 2 ^ (e0 - e)) k.
Proof.
  intros Ha Hb Hd e0 He0.
  assert (0 <= a / b) as Hq0 by (apply Z.div_pos; lia).
  destruct (a / b) as [|mq|mq] eqn:Hq; [simpl in Hd; lia| |lia].
  pose proof (Zdigits2_bounds mq) as Hdig.
  set (d := Zdigits2 (Z.pos mq)) in *.
  set (n := e0 - e). assert (n = d - 53) as Hn by (unfold n, e0; lia).
  assert (0 <= n) as Hn0 by lia.
  set (B := b * 2 ^ n).
  pose proof (Z.pow_pos_nonneg 2 n ltac:(lia) Hn0) as Hpn.
  assert (0 < B) as HB by (unfold B; lia).
  (* the bracket of [a] *)
  assert (2 ^ (d - 1) = 2 ^ 52 * 2 ^ n ∧ 2 ^ d = 2 ^ 53 * 2 ^ n) as [Hp1 Hp2].
  { rewrite <- !Z.pow_add_r by lia. split; f_equal; lia. }
  assert (2 ^ 52 * B <= a < 2 ^ 53 * B) as Ha_bracket.
  { pose proof (Z.div_mod a b ltac:(lia)) as Hdm.
    pose proof (Z.mod_pos_bound a b Hb) as Hrem.
    rewrite Hq in Hdm. unfold B. rewrite Hp1, Hp2 in Hdig.
    set (P52 := 2 ^ 52) in *. set (P53 := 2 ^ 53) in *.
    set (pn := 2 ^ n) in *. clearbody P52 P53 pn. nia. }
  assert (a / B = Z.pos mq / 2 ^ n) as HaB.
  { unfold B. rewrite <- Z.div_div by lia. by rewrite Hq. }
  (* the first shift *)
  unfold binary_round_aux, shr_fexp.
  assert (fexp 53 1024 (Zdigits2 (Z.pos mq) + e) - e = n) as ->.
  { unfold fexp, emin. fold d. rewrite Z.max_l by lia. lia. }
  pose proof (shr_repr_shr a b _ e n Ha Hb Hn0
                (shr_record_of_loc_repr a b Ha Hb)) as [Hrepr He'].
  rewrite Hq in Hrepr, He'.
  destruct (shr (shr_record_of_loc (Z.pos mq) (loc_of_rem b (a mod b))) e n)
    as [mrs' e'] eqn:Hshr.
  simpl in Hrepr, He'. fold B in Hrepr.
  assert (e' = e0) as -> by (unfold n in He'; lia).
  pose proof (round_nearest_even_spec a B mrs' Ha HB Hrepr) as [Hrne Hk].
  set (k := round_nearest_even (shr_m mrs') (loc_of_shr_record mrs')) in *.
  assert (2 ^ 52 <= a / B < 2 ^ 53) as HaB_bracket.
  { split.
    - apply Z.div_le_lower_bound; lia.
    - apply Z.div_lt_upper_bound; lia. }
  (* the second shift *)
  destruct (Z.eq_dec k (2 ^ 53)) as [Hk53|Hk53].
  - exists (2 ^ 52)%positive, (e0 + 1), k.
    rewrite Hk53.
    assert (fexp 53 1024 (Zdigits2 (2 ^ 53) + e0) - e0 = 1) as Hf.
    { unfold fexp, emin. change (Zdigits2 (2 ^ 53)) with 54.
      rewrite Z.max_l by lia. lia. }
    unfold shr_fexp. rewrite Hf. simpl shr.
    change (shr_m (shr_1 _)) with (Z.pos (2 ^ 52)).
    cbv iota beta.
    assert ((e0 + 1 <=? 1024 - 53) = true) as -> by (apply Z.leb_le; lia).
    split_and!; try done; try lia.
    + replace (e0 + 1 - e0) with 1 by lia. done.
    + by rewrite <- Hk53.
  - assert (2 ^ 52 <= k < 2 ^ 53) as Hkb by lia.
    destruct k as [|mk|mk] eqn:Hkeq; [lia| |lia].
    exists mk, e0, (Z.pos mk).
    assert (Zdigits2 (Z.pos mk) = 53) as Hdk.
    { apply Zdigits2_unique. exact Hkb. }
    assert (fexp 53 1024 (Zdigits2 (Z.pos mk) + e0) - e0 = 0) as Hf.
    { unfold fexp, emin. rewrite Hdk, Z.max_l by lia. lia. }
    unfold shr_fexp. rewrite Hf. simpl shr. cbv iota beta. simpl shr_m.
    assert ((e0 <=? 1024 - 53) = true) as -> by (apply Z.leb_le; lia).
    split_and!; try done; try lia.
    rewrite Z.sub_diag. simpl. lia.
Qed.

Local Open Scope Q_scope.

(** ** The rational value of a double *)

Definition F2Q (m : positive) (e : Z) : Q := inject_Z (Zpos m) * 2 ^ e.

(** Zero stands for NaN and the infinities, which no score is. *)
Definition SF2Q (f : spec_float) : Q :=
  match f with
  | S754_finite s m e => if s then - F2Q m e else F2Q m e
  | _ => 0
  end.

(** A normal mantissa: 53 significant bits. *)
Definition canon (m : positive) : Prop := (2 ^ 52 <= Zpos m < 2 ^ 53)%Z.

(** [m * 2 ^ e] is the positive normal double nearest to [x], the one
    with the even mantissa on a tie: [x] lies in the binade of exponent
    [e0] and [k] is the integer nearest to [x / 2 ^ e0]. *)
Definition rounds (x : Q) (m : positive) (e : Z) : Prop :=
  canon m ∧
  ∃ k e0 : Z,
    (2 ^ 52 <= k <= 2 ^ 53)%Z
    ∧ F2Q m e == inject_Z k * 2 ^ e0
    ∧ inject_Z (2 ^ 52) * 2 ^ e0 <= x < inject_Z (2 ^ 53) * 2 ^ e0
    ∧ (inject_Z k - (1 # 2)) * 2 ^ e0 <= x <= (inject_Z k + (1 # 2)) * 2 ^ e0
    ∧ (x == (inject_Z k - (1 # 2)) * 2 ^ e0
       ∨ x == (inject_Z k + (1 # 2)) * 2 ^ e0 → Z.even k = true).

Lemma pow2_pos (e : Z) : 0 < 2 ^ e.
Proof. by apply Qpower_0_lt. Qed.

Lemma pow2_succ (e : Z) : 2 ^ (e + 1) == 2 * 2 ^ e.
Proof. rewrite Qpower_plus by done. change (2 ^ 1) with 2. ring. Qed.

Lemma pow2_le (e e' : Z) : (e <= e')%Z → 2 ^ e <= 2 ^ e'.
Proof. intros. by apply Qpower_le_compat_l. Qed.

Lemma pow2_inject (n : Z) : (0 <= n)%Z → inject_Z (2 ^ n) == 2 ^ n.
Proof. intros. by rewrite Zpower_Qpower. Qed.

Global Instance rounds_proper : Proper (Qeq ==> eq ==> eq ==> iff) rounds.
Proof.
  intros x x' Hx m ? <- e ? <-. unfold rounds.
  split; intros (Hc & k & e0 & Hk & Hv & Hb & Hn & Ht);
    (split; [done|]); exists k, e0.
  - rewrite <- Hx. done.
  - rewrite Hx. done.
Qed.

Lemma inject_Z_le_succ (k k' : Z) : (k < k')%Z → inject_Z k + 1 <= inject_Z k'.
Proof.
  intros Hlt. change 1 with (inject_Z 1). rewrite <- inject_Z_plus.
  rewrite <- Zle_Qle. lia.
Qed.

(** Rounding is monotone. *)
Lemma rounds_mono (x y : Q) (m m' : positive) (e e' : Z) :
  rounds x m e → rounds y m' e' → x <= y → F2Q m e <= F2Q m' e'.
Proof.
  intros (_ & k & e0 & [Hk1 Hk2] & -> & [Hb1 Hb2] & [Hn1 Hn2] & Ht)
         (_ & k' & e0' & [Hk1' Hk2'] & -> & [Hb1' Hb2'] & [Hn1' Hn2'] & Ht') Hxy.
  rewrite Zle_Qle in Hk1, Hk2, Hk1', Hk2'.
  change (inject_Z (2 ^ 52)) with 4503599627370496 in *.
  change (inject_Z (2 ^ 53)) with 9007199254740992 in *.
  pose proof (pow2_pos e0) as HP. pose proof (pow2_pos e0') as HP'.
  destruct (Z.lt_trichotomy e0 e0') as [Hlt|[<-|Hgt]].
  - pose proof (pow2_le (e0 + 1) e0' ltac:(lia)) as Hle.
    rewrite pow2_succ in Hle.
    set (P := 2 ^ e0) in *. set (P' := 2 ^ e0') in *.
    apply (Qle_trans _ (9007199254740992 * P)).
    + apply Qmult_le_compat_r; [done|]. by apply Qlt_le_weak.
    + apply (Qle_trans _ (4503599627370496 * P')); [lra|].
      apply Qmult_le_compat_r; [done|]. by apply Qlt_le_weak.
  - set (P := 2 ^ e0) in *.
    destruct (Z.le_gt_cases k k') as [Hle|Hlt].
    + apply Qmult_le_compat_r; [|by apply Qlt_le_weak]. by rewrite Zle_Qle in Hle.
    + exfalso. pose proof (inject_Z_le_succ _ _ Hlt) as Hs.
      assert ((inject_Z k' + 1) * P <= inject_Z k * P) as HsP.
      { apply Qmult_le_compat_r; [done|]. by apply Qlt_le_weak. }
      assert (x == (inject_Z k - (1 # 2)) * P) as Hx by lra.
      assert (y == (inject_Z k' + (1 # 2)) * P) as Hy by lra.
      assert (k = k' + 1)%Z as Hkk.
      { assert (inject_Z k * P <= (inject_Z k' + 1) * P) as Hle by lra.
        assert (inject_Z k <= inject_Z k' + 1) as Hle'.
        { apply Qmult_le_r in Hle; done. }
        change 1 with (inject_Z 1) in Hle'. rewrite <- inject_Z_plus in Hle'.
        rewrite <- Zle_Qle in Hle'. lia. }
      specialize (Ht (or_introl Hx)). specialize (Ht' (or_intror Hy)).
      rewrite Hkk, Z.add_1_r, Z.even_succ, <- Z.negb_even, Ht' in Ht. done.
  - exfalso. pose proof (pow2_le (e0' + 1) e0 ltac:(lia)) as Hle.
    rewrite pow2_succ in Hle.
    set (P := 2 ^ e0) in *. set (P' := 2 ^ e0') in *. lra.
Qed.

(** So the value of the rounded number is determined. *)
Lemma rounds_unique (x : Q) (m m' : positive) (e e' : Z) :
  rounds x m e → rounds x m' e' → F2Q m e == F2Q m' e'.
Proof.
  intros H H'. apply Qle_antisym.
  - apply (rounds_mono x x); [done|done|apply Qle_refl].
  - apply (rounds_mono x x); [done|done|apply Qle_refl].
Qed.

(** The relative error of rounding is at most [2 ^ -53]. *)
Lemma rounds_error (x : Q) (m : positive) (e : Z) :
  rounds x m e →
  x - (1 # 9007199254740992) * x <= F2Q m e <= x + (1 # 9007199254740992) * x.
Proof.
  intros (_ & k & e0 & _ & -> & [Hb1 Hb2] & [Hn1 Hn2] & _).
  change (inject_Z (2 ^ 52)) with 4503599627370496 in *.
  set (P := 2 ^ e0) in *. set (K := inject_Z k) in *.
  assert ((K - (1 # 2)) * P == K * P - (1 # 2) * P) as Heq1 by ring.
  assert ((K + (1 # 2)) * P == K * P + (1 # 2) * P) as Heq2 by ring.
  rewrite Heq1 in Hn1. rewrite Heq2 in Hn2. lra.
Qed.

Lemma inject_Z_twice_diff (k b a : Z) :
  inject_Z (2 * (k * b - a)) = 2 * (inject_Z k * inject_Z b - inject_Z a).
Proof.
  unfold Z.sub.
  by rewrite inject_Z_mult, inject_Z_plus, inject_Z_mult, inject_Z_opp.
Qed.

(** [binary_round_aux] rounds the number it is given. *)
Lemma binary_round_aux_rounds (x : Q) (a b e : Z) :
  (0 <= a)%Z → (0 < b)%Z → (53 <= Zdigits2 (a / b))%Z →
  (-1074 <= Zdigits2 (a / b) + e - 53 <= 970)%Z →
  x == inject_Z a / inject_Z b * 2 ^ e →
  ∃ (m : positive) (ee : Z),
    binary_round_aux 53 1024 false (a / b) e (loc_of_rem b (a mod b))
    = S754_finite false m ee
    ∧ rounds x m ee
    ∧ (Zdigits2 (a / b) + e - 53 <= ee <= Zdigits2 (a / b) + e - 52)%Z.
Proof.
  intros Ha Hb Hd He0 Hx.
  destruct (binary_round_aux_spec a b e Ha Hb Hd He0)
    as (m & ee & k & Heq & Hm & Hk & Hee & Hmk & Hbr & Hrne & Htie).
  exists m, ee. split; [exact Heq|]. split; [|lia].
  set (e0 := (Zdigits2 (a / b) + e - 53)%Z) in *.
  set (n := (e0 - e)%Z) in *.
  assert (0 <= n)%Z as Hn by (unfold n, e0; lia).
  set (B := (b * 2 ^ n)%Z) in *.
  assert (0 < B)%Z as HB.
  { pose proof (Z.pow_pos_nonneg 2 n ltac:(lia) Hn). unfold B. lia. }
  assert (0 < inject_Z B) as HBq.
  { change 0 with (inject_Z 0). by rewrite <- Zlt_Qlt. }
  assert (0 < inject_Z b) as Hbq.
  { change 0 with (inject_Z 0). by rewrite <- Zlt_Qlt. }
  pose proof (pow2_pos e0) as HP. pose proof (pow2_pos n) as HPn.
  pose proof (pow2_pos e) as HPe.
  assert (inject_Z B == inject_Z b * 2 ^ n) as HBeq.
  { unfold B. by rewrite inject_Z_mult, pow2_inject. }
  assert (2 ^ e0 == 2 ^ n * 2 ^ e) as HPeq.
  { rewrite <- Qpower_plus by done. f_equiv. unfold n. lia. }
  set (y := inject_Z a / inject_Z B).
  assert (x == y * 2 ^ e0) as Hxy.
  { rewrite Hx. unfold y. rewrite HPeq, HBeq. field. split; lra. }
  (* the integer facts, over the rationals *)
  assert (inject_Z (2 ^ 52) <= y < inject_Z (2 ^ 53)) as [Hy1 Hy2].
  { destruct Hbr as [Hb1 Hb2]. split.
    - apply Qle_shift_div_l; [done|]. rewrite <- inject_Z_mult.
      by rewrite <- Zle_Qle.
    - apply Qlt_shift_div_r; [done|]. rewrite <- inject_Z_mult.
      by rewrite <- Zlt_Qlt. }
  assert (inject_Z k - (1 # 2) <= y <= inject_Z k + (1 # 2)) as [Hn1 Hn2].
  { apply Z.abs_le in Hrne. destruct Hrne as [Hr1 Hr2].
    rewrite Zle_Qle in Hr1, Hr2.
    rewrite inject_Z_twice_diff in Hr1, Hr2. rewrite inject_Z_opp in Hr1.
    split.
    - apply Qle_shift_div_l; [done|]. lra.
    - apply Qle_shift_div_r; [done|]. lra. }
  split; [exact Hm|]. exists k, e0. split_and!.
  - lia.
  - lia.
  - unfold F2Q. rewrite <- Hmk, inject_Z_mult, pow2_inject by lia.
    rewrite <- Qmult_assoc, <- Qpower_plus by done.
    do 2 f_equiv. lia.
  - rewrite Hxy. by apply Qmult_le_r.
  - rewrite Hxy. by apply Qmult_lt_r.
  - rewrite Hxy. by apply Qmult_le_r.
  - rewrite Hxy. by apply Qmult_le_r.
  - intros Hcase. apply Htie.
    assert (y == inject_Z k - (1 # 2) ∨ y == inject_Z k + (1 # 2)) as Hy.
    { destruct Hcase as [Hc|Hc]; rewrite Hxy in Hc;
        apply Qmult_inj_r in Hc; try lra; auto. }
    assert (inject_Z a == y * inject_Z B) as Hay.
    { unfold y. field. lra. }
    assert (inject_Z (2 * (k * B - a)) == inject_Z B
            ∨ inject_Z (2 * (k * B - a)) == - inject_Z B) as Hz.
    { rewrite inject_Z_twice_diff, Hay.
      destruct Hy as [->| ->]; [left|right]; ring. }
    destruct Hz as [Hz|Hz].
    + apply (proj1 (inject_Z_injective _ _)) in Hz. lia.
    + rewrite <- inject_Z_opp in Hz.
      apply (proj1 (inject_Z_injective _ _)) in Hz. lia.
Qed.

(** ** The operations on positive normal doubles *)

Lemma Zdigits2_ge (m : positive) (j : Z) :
  (0 <= j)%Z → (2 ^ j <= Zpos m)%Z → (j + 1 <= Zdigits2 (Zpos m))%Z.
Proof.
  intros Hj Hle. pose proof (Zdigits2_bounds m) as [_ Hhi].
  pose proof (Zdigits2_pos m).
  destruct (Z.lt_ge_cases j (Zdigits2 (Z.pos m))) as [|Hge]; [lia|].
  pose proof (Z.pow_le_mono_r 2 _ _ ltac:(lia) Hge). lia.
Qed.

Lemma Zdigits2_le (m : positive) (j : Z) :
  (0 <= j)%Z → (Zpos m < 2 ^ j)%Z → (Zdigits2 (Zpos m) <= j)%Z.
Proof.
  intros Hj Hlt. pose proof (Zdigits2_bounds m) as [Hlo _].
  pose proof (Zdigits2_pos m).
  destruct (Z.le_gt_cases (Zdigits2 (Z.pos m)) j) as [|Hgt]; [done|].
  pose proof (Z.pow_le_mono_r 2 j (Zdigits2 (Z.pos m) - 1) ltac:(lia) ltac:(lia)).
  lia.
Qed.

Lemma canon_digits (m : positive) : canon m → Zdigits2 (Zpos m) = 53%Z.
Proof. intros Hm. by apply Zdigits2_unique. Qed.

Lemma Pos_iter_xO (m d : positive) :
  Zpos (Pos.iter xO m d) = (Zpos m * 2 ^ Zpos d)%Z.
Proof.
  induction d as [|d IH] using Pos.peano_ind.
  - simpl. lia.
  - rewrite Pos.iter_succ, Pos2Z.inj_xO, IH, Pos2Z.inj_succ, Z.pow_succ_r by lia.
    ring.
Qed.

(** [shl_align] brings a mantissa to a lower exponent without changing
    the value, and does nothing for a higher one. *)
Lemma shl_align_down (m : positive) (e e' : Z) :
  (e' <= e)%Z →
  ∃ m', shl_align m e e' = (m', e') ∧ Zpos m' = (Zpos m * 2 ^ (e - e'))%Z.
Proof.
  intros Hle. unfold shl_align.
  destruct (e' - e)%Z as [|d|d] eqn:Hd; [|lia|].
  - assert (e' = e) as -> by lia. exists m. rewrite Z.sub_diag. split; [done|lia].
  - exists (Pos.iter xO m d). split; [done|].
    rewrite Pos_iter_xO. do 2 f_equal. lia.
Qed.

Lemma shl_align_up (m : positive) (e e' : Z) :
  (e <= e')%Z → shl_align m e e' = (m, e).
Proof.
  intros Hle. unfold shl_align. destruct (e' - e)%Z eqn:Hd; [done|done|lia].
Qed.

Lemma F2Q_shift (m m' : positive) (e e' : Z) :
  (e' <= e)%Z → Zpos m' = (Zpos m * 2 ^ (e - e'))%Z → F2Q m' e' == F2Q m e.
Proof.
  intros Hle Hm. unfold F2Q. rewrite Hm, inject_Z_mult, pow2_inject by lia.
  rewrite <- Qmult_assoc, <- Qpower_plus by done. do 2 f_equiv. lia.
Qed.

(** Rounding an exact mantissa with at least 53 bits. *)
Lemma binary_round_aux_exact_rounds (m : positive) (e : Z) :
  (53 <= Zdigits2 (Zpos m))%Z →
  (-1074 <= Zdigits2 (Zpos m) + e - 53 <= 970)%Z →
  ∃ (m' : positive) (ee : Z),
    binary_round_aux 53 1024 false (Zpos m) e loc_Exact
    = S754_finite false m' ee
    ∧ rounds (F2Q m e) m' ee
    ∧ (Zdigits2 (Zpos m) + e - 53 <= ee <= Zdigits2 (Zpos m) + e - 52)%Z.
Proof.
  intros Hd He.
  pose proof (binary_round_aux_rounds (F2Q m e) (Zpos m) 1 e) as H.
  rewrite Z.div_1_r, Z.mod_1_r in H. apply H; try done.
  unfold F2Q. change (inject_Z 1) with 1. field.
Qed.

(** [binary_round] first normalises the mantissa, then rounds. *)
Lemma binary_round_rounds (m : positive) (e : Z) :
  (-1074 <= Zdigits2 (Zpos m) + e - 53 <= 970)%Z →
  ∃ (m' : positive) (ee : Z),
    binary_round 53 1024 false m e = S754_finite false m' ee
    ∧ rounds (F2Q m e) m' ee
    ∧ (Zdigits2 (Zpos m) + e - 53 <= ee <= Zdigits2 (Zpos m) + e - 52)%Z.
Proof.
  intros He. unfold binary_round.
  change (Z.pos (digits2_pos m)) with (Zdigits2 (Zpos m)).
  set (d := Zdigits2 (Zpos m)) in *.
  assert (fexp 53 1024 (d + e) = d + e - 53)%Z as ->.
  { unfold fexp, emin. rewrite Z.max_l by lia. done. }
  pose proof (Zdigits2_bounds m) as Hdig. fold d in Hdig.
  pose proof (Zdigits2_pos m) as Hdpos. fold d in Hdpos.
  destruct (Z.le_gt_cases 53 d) as [Hge|Hlt].
  - rewrite shl_align_up by lia.
    destruct (binary_round_aux_exact_rounds m e) as (m' & ee & Heq & Hr & Hee);
      [done|done|]. by exists m', ee.
  - destruct (shl_align_down m e (d + e - 53)) as (mz & -> & Hmz); [lia|].
    assert (Zdigits2 (Zpos mz) = 53%Z) as Hdz.
    { apply Zdigits2_unique. rewrite Hmz.
      replace (e - (d + e - 53))%Z with (53 - d)%Z by lia.
      assert (2 ^ 52 = 2 ^ (d - 1) * 2 ^ (53 - d)
              ∧ 2 ^ 53 = 2 ^ d * 2 ^ (53 - d))%Z as [Hp1 Hp2].
      { rewrite <- !Z.pow_add_r by lia. split; f_equal; lia. }
      change (53 - 1)%Z with 52%Z. rewrite Hp1, Hp2.
      pose proof (Z.pow_pos_nonneg 2 (53 - d) ltac:(lia) ltac:(lia)).
      split; [apply Z.mul_le_mono_nonneg_r|apply Z.mul_lt_mono_pos_r]; lia. }
    destruct (binary_round_aux_exact_rounds mz (d + e - 53))
      as (m' & ee & Heq & Hr & Hee); [lia|lia|].
    exists m', ee. split; [done|]. split; [|lia].
    by rewrite <- (F2Q_shift m mz e (d + e - 53)) by (done || lia).
Qed.

Lemma canon_mul_digits (m1 m2 : positive) :
  canon m1 → canon m2 →
  (105 <= Zdigits2 (Zpos (m1 * m2)) <= 106)%Z.
Proof.
  unfold canon. intros H1 H2. rewrite Pos2Z.inj_mul.
  change (2 ^ 52)%Z with 4503599627370496%Z in *.
  change (2 ^ 53)%Z with 9007199254740992%Z in *.
  split.
  - apply (Zdigits2_ge (m1 * m2) 104); [lia|]. rewrite Pos2Z.inj_mul.
    change (2 ^ 104)%Z with (4503599627370496 * 4503599627370496)%Z.
    apply Z.mul_le_mono_nonneg; lia.
  - apply (Zdigits2_le (m1 * m2) 106); [lia|]. rewrite Pos2Z.inj_mul.
    change (2 ^ 106)%Z with (9007199254740992 * 9007199254740992)%Z.
    apply Z.mul_lt_mono_nonneg; lia.
Qed.

(** The product of two positive normal doubles is the rounded product
    of their values. *)
Lemma SFmul_rounds (m1 m2 : positive) (e1 e2 : Z) :
  canon m1 → canon m2 → (-1100 <= e1 + e2 <= 900)%Z →
  ∃ (m : positive) (e : Z),
    SFmul 53 1024 (S754_finite false m1 e1) (S754_finite false m2 e2)
    = S754_finite false m e
    ∧ rounds (F2Q m1 e1 * F2Q m2 e2) m e
    ∧ (e1 + e2 + 52 <= e <= e1 + e2 + 54)%Z.
Proof.
  intros H1 H2 He. pose proof (canon_mul_digits m1 m2 H1 H2) as Hd.
  destruct (binary_round_aux_exact_rounds (m1 * m2) (e1 + e2))
    as (m & e & Heq & Hr & Hee); [lia|lia|].
  exists m, e. split; [exact Heq|]. split; [|lia].
  assert (F2Q m1 e1 * F2Q m2 e2 == F2Q (m1 * m2) (e1 + e2)) as ->; [|done].
  unfold F2Q. rewrite Pos2Z.inj_mul, inject_Z_mult, Qpower_plus by done. ring.
Qed.

Lemma new_location_loc_of_rem (b r : Z) : new_location b r = loc_of_rem b r.
Proof.
  unfold new_location, new_location_even, new_location_odd, loc_of_rem.
  destruct (Z.even b) eqn:Hev; [done|].
  destruct (r =? 0)%Z; [done|]. f_equal.
  assert (Z.odd b = true) as Hodd by (by rewrite <- Z.negb_even, Hev).
  apply Z.odd_spec in Hodd as [j ->].
  destruct (Z.compare_spec (2 * r + 1) (2 * j + 1)),
    (Z.compare_spec (2 * r) (2 * j + 1)); done || lia.
Qed.

(** The quotient of two positive normal doubles is the rounded quotient
    of their values. *)
Lemma SFdiv_rounds (m1 m2 : positive) (e1 e2 : Z) :
  canon m1 → canon m2 → (-1000 <= e1 - e2 <= 1000)%Z →
  ∃ (m : positive) (e : Z),
    SFdiv 53 1024 (S754_finite false m1 e1) (S754_finite false m2 e2)
    = S754_finite false m e
    ∧ rounds (F2Q m1 e1 / F2Q m2 e2) m e
    ∧ (e1 - e2 - 53 <= e <= e1 - e2 - 51)%Z.
Proof.
  intros H1 H2 He. unfold SFdiv, SFdiv_core_binary.
  rewrite (canon_digits m1 H1), (canon_digits m2 H2).
  assert (Z.min (fexp 53 1024 (53 + e1 - (53 + e2))) (e1 - e2)
          = e1 - e2 - 53)%Z as ->.
  { unfold fexp, emin. rewrite Z.max_l by lia. lia. }
  replace (e1 - e2 - (e1 - e2 - 53))%Z with 53%Z by lia.
  cbv iota beta. rewrite Z.shiftl_mul_pow2 by lia.
  set (a := (Z.pos m1 * 2 ^ 53)%Z).
  assert (Z.div_eucl a (Z.pos m2) = (a / Z.pos m2, a mod Z.pos m2)%Z) as ->.
  { unfold Z.div, Z.modulo. by destruct (Z.div_eucl a (Z.pos m2)). }
  rewrite new_location_loc_of_rem.
  unfold canon in H1, H2.
  assert (2 ^ 52 <= a / Z.pos m2 < 2 ^ 54)%Z as Hq.
  { unfold a. change (2 ^ 52)%Z with 4503599627370496%Z in *.
    change (2 ^ 53)%Z with 9007199254740992%Z in *.
    change (2 ^ 54)%Z with 18014398509481984%Z in *.
    split.
    - apply Z.div_le_lower_bound; lia.
    - apply Z.div_lt_upper_bound; lia. }
  destruct (a / Z.pos m2)%Z as [|mq|mq] eqn:Hmq; [lia| |lia].
  assert (53 <= Zdigits2 (Z.pos mq) <= 54)%Z as Hd.
  { split; [apply (Zdigits2_ge mq 52)|apply (Zdigits2_le mq 54)]; lia. }
  destruct (binary_round_aux_rounds (F2Q m1 e1 / F2Q m2 e2) a (Z.pos m2)
              (e1 - e2 - 53)) as (m & e & Heq & Hr & Hee).
  - unfold a. lia.
  - lia.
  - rewrite Hmq. lia.
  - rewrite Hmq. lia.
  - unfold F2Q, a. rewrite inject_Z_mult, pow2_inject by lia.
    assert (2 ^ e1 == 2 ^ (e1 - e2 - 53) * 2 ^ 53 * 2 ^ e2) as ->.
    { rewrite <- !Qpower_plus by done. f_equiv. lia. }
    pose proof (pow2_pos e2). pose proof (pow2_pos 53).
    assert (0 < inject_Z (Z.pos m2)).
    { change 0 with (inject_Z 0). rewrite <- Zlt_Qlt. lia. }
    field. split; lra.
  - rewrite Hmq in Heq, Hee. exists m, e. split; [exact Heq|]. split; [done|lia].
Qed.

(** The sum of two positive normal doubles is the rounded sum of their
    values. *)
Lemma SFadd_rounds (m1 m2 : positive) (e1 e2 : Z) :
  canon m1 → canon m2 → (-1074 <= Z.max e1 e2 <= 969)%Z →
  ∃ (m : positive) (e : Z),
    SFadd 53 1024 (S754_finite false m1 e1) (S754_finite false m2 e2)
    = S754_finite false m e
    ∧ rounds (F2Q m1 e1 + F2Q m2 e2) m e
    ∧ (Z.max e1 e2 <= e <= Z.max e1 e2 + 2)%Z.
Proof.
  intros H1 H2 He. unfold SFadd, cond_Zopp.
  set (ez := Z.min e1 e2).
  destruct (shl_align_down m1 e1 ez) as (p1 & Hs1 & Hp1); [unfold ez; lia|].
  destruct (shl_align_down m2 e2 ez) as (p2 & Hs2 & Hp2); [unfold ez; lia|].
  rewrite Hs1, Hs2. cbn [fst]. change (Z.pos p1 + Z.pos p2)%Z with (Z.pos (p1 + p2)).
  unfold binary_normalize.
  set (ex := Z.max e1 e2) in *.
  assert (0 <= ex - ez)%Z as Hdiff by (unfold ex, ez; lia).
  pose proof (Z.pow_pos_nonneg 2 (ex - ez) ltac:(lia) Hdiff) as Hpow.
  assert (2 ^ 52 * 2 ^ (ex - ez) <= Z.pos (p1 + p2)
          < 2 ^ 54 * 2 ^ (ex - ez))%Z as Hsum.
  { rewrite Pos2Z.inj_add, Hp1, Hp2. unfold canon in H1, H2.
    pose proof (Z.pow_pos_nonneg 2 (e1 - ez) ltac:(lia) ltac:(unfold ez; lia)).
    pose proof (Z.pow_pos_nonneg 2 (e2 - ez) ltac:(lia) ltac:(unfold ez; lia)).
    pose proof (Z.pow_le_mono_r 2 (e1 - ez) (ex - ez) ltac:(lia)
                  ltac:(unfold ex; lia)).
    pose proof (Z.pow_le_mono_r 2 (e2 - ez) (ex - ez) ltac:(lia)
                  ltac:(unfold ex; lia)).
    assert (2 ^ (e1 - ez) = 2 ^ (ex - ez) ∨ 2 ^ (e2 - ez) = 2 ^ (ex - ez))%Z
      as Hmax.
    { destruct (Z.max_spec e1 e2) as [[_ Hm]|[_ Hm]]; fold ex in Hm;
        rewrite Hm; auto. }
    change (2 ^ 52)%Z with 4503599627370496%Z in *.
    change (2 ^ 53)%Z with 9007199254740992%Z in *.
    change (2 ^ 54)%Z with 18014398509481984%Z in *.
    set (q1 := (2 ^ (e1 - ez))%Z) in *. set (q2 := (2 ^ (e2 - ez))%Z) in *.
    set (qx := (2 ^ (ex - ez))%Z) in *. clearbody q1 q2 qx.
    destruct Hmax; subst; nia. }
  assert (53 + (ex - ez) <= Zdigits2 (Z.pos (p1 + p2)) <= 54 + (ex - ez))%Z
    as Hd.
  { rewrite <- !Z.pow_add_r in Hsum by lia. split.
    - replace (53 + (ex - ez))%Z with (52 + (ex - ez) + 1)%Z by lia.
      apply Zdigits2_ge; lia.
    - apply Zdigits2_le; lia. }
  destruct (binary_round_rounds (p1 + p2) ez) as (m & e & Heq & Hr & Hee);
    [lia|].
  exists m, e. split; [exact Heq|]. split; [|lia].
  assert (F2Q m1 e1 + F2Q m2 e2 == F2Q (p1 + p2) ez) as ->; [|done].
  rewrite <- (F2Q_shift m1 p1 e1 ez), <- (F2Q_shift m2 p2 e2 ez)
    by (done || unfold ez; lia).
  unfold F2Q. rewrite Pos2Z.inj_add, inject_Z_plus. ring.
Qed.

(** A rounded integer of at most 53 bits is the integer itself. *)
Lemma rounds_integer (n : Z) (m : positive) (e : Z) :
  (0 < n <= 2 ^ 53)%Z → rounds (inject_Z n) m e → F2Q m e == inject_Z n.
Proof.
  intros Hn (_ & k & e0 & [Hk1 Hk2] & -> & [Hb1 Hb2] & [Hn1 Hn2] & _).
  change (inject_Z (2 ^ 52)) with 4503599627370496 in *.
  change (inject_Z (2 ^ 53)) with 9007199254740992 in *.
  pose proof (pow2_pos e0) as HP.
  assert (inject_Z n <= 9007199254740992) as HnQ.
  { change 9007199254740992 with (inject_Z (2 ^ 53)). rewrite <- Zle_Qle. lia. }
  assert (e0 <= 1)%Z as He0.
  { apply (Qpower_le_compat_l_inv 2); [|done]. change (2 ^ 1) with 2. lra. }
  destruct (Z.le_gt_cases e0 0) as [Hle|Hgt].
  - (* the binade has integer spacing at most 1 *)
    assert (inject_Z n == inject_Z (n * 2 ^ (- e0)) * 2 ^ e0) as Hscale.
    { rewrite inject_Z_mult, pow2_inject by lia.
      rewrite <- Qmult_assoc, <- Qpower_plus by done.
      replace (- e0 + e0)%Z with 0%Z by lia. change (2 ^ 0) with 1. ring. }
    set (a := (n * 2 ^ (- e0))%Z) in *. rewrite Hscale in Hn1, Hn2 |- *.
    apply Qmult_le_r in Hn1, Hn2; try done.
    assert (k = a) as ->; [|done].
    assert (inject_Z (2 * k) <= inject_Z (2 * a + 1)
            ∧ inject_Z (2 * a) <= inject_Z (2 * k + 1)) as [Hz1 Hz2].
    { rewrite !inject_Z_plus, !inject_Z_mult. change (inject_Z 2) with 2.
      change (inject_Z 1) with 1. split; lra. }
    rewrite <- Zle_Qle in Hz1, Hz2. lia.
  - assert (e0 = 1)%Z as -> by lia. change (2 ^ 1) with 2 in *.
    assert (n = 2 ^ 53)%Z as ->.
    { assert (inject_Z (2 ^ 53) <= inject_Z n) as Hle.
      { change (inject_Z (2 ^ 53)) with 9007199254740992. lra. }
      rewrite <- Zle_Qle in Hle. lia. }
    change (inject_Z (2 ^ 53)) with 9007199254740992 in *.
    assert (k = 2 ^ 52)%Z as ->.
    { assert (inject_Z (2 * k) <= inject_Z (2 * 2 ^ 52 + 1)
              ∧ inject_Z (2 * 2 ^ 52) <= inject_Z (2 * k + 1)) as [Hz1 Hz2].
      { rewrite !inject_Z_plus, !inject_Z_mult. change (inject_Z 2) with 2.
        change (inject_Z 1) with 1.
        change (inject_Z (2 ^ 52)) with 4503599627370496. split; lra. }
      rewrite <- Zle_Qle in Hz1, Hz2. lia. }
    by vm_compute.
Qed.

(** A positive integer below [2 ^ 53] is a double. *)
Lemma b64_of_N_exact (p : positive) :
  (Zpos p <= 2 ^ 53)%Z →
  ∃ (m : positive) (e : Z),
    b64_of_N (Npos p) = S754_finite false m e
    ∧ canon m ∧ F2Q m e == inject_Z (Zpos p) ∧ (-52 <= e <= 2)%Z.
Proof.
  intros Hp. unfold b64_of_N, binary_normalize. cbn [Z.of_N].
  pose proof (Zdigits2_pos p) as Hd0.
  assert (Zdigits2 (Z.pos p) <= 54)%Z as Hd54.
  { apply Zdigits2_le; [lia|]. change (2 ^ 54)%Z with (2 * 2 ^ 53)%Z. lia. }
  destruct (binary_round_rounds p 0) as (m & e & Heq & Hr & He); [lia|].
  exists m, e. split; [exact Heq|]. split; [apply Hr|]. split; [|lia].
  assert (F2Q p 0 == inject_Z (Z.pos p)) as Hv.
  { unfold F2Q. change (2 ^ 0) with 1. ring. }
  rewrite Hv in Hr. apply rounds_integer; [lia|done].
Qed.

(** [<] and [>] on positive normal doubles compare the values. *)
Lemma SFcompare_canon (m1 m2 : positive) (e1 e2 : Z) :
  canon m1 → canon m2 →
  SFcompare (S754_finite false m1 e1) (S754_finite false m2 e2)
  = Some (F2Q m1 e1 ?= F2Q m2 e2).
Proof.
  unfold canon. intros [Hl1 Hh1] [Hl2 Hh2]. simpl. f_equal.
  rewrite Zle_Qle in Hl1, Hl2. rewrite Zlt_Qlt in Hh1, Hh2.
  change (inject_Z (2 ^ 52)) with 4503599627370496 in *.
  change (inject_Z (2 ^ 53)) with 9007199254740992 in *.
  pose proof (pow2_pos e1) as HP1. pose proof (pow2_pos e2) as HP2.
  unfold F2Q. set (M1 := inject_Z (Z.pos m1)) in *.
  set (M2 := inject_Z (Z.pos m2)) in *.
  symmetry. destruct (Z.compare_spec e1 e2) as [->|Hlt|Hgt].
  - change (Pos.compare_cont Eq m1 m2) with (Z.pos m1 ?= Z.pos m2)%Z.
    destruct (Z.compare_spec (Z.pos m1) (Z.pos m2)) as [Heq|Hlt|Hgt].
    + apply Qeq_alt. unfold M1, M2. by rewrite Heq.
    + apply Qlt_alt. apply Qmult_lt_r; [done|]. unfold M1, M2.
      by rewrite <- Zlt_Qlt.
    + apply Qgt_alt. apply Qmult_lt_r; [done|]. unfold M1, M2.
      by rewrite <- Zlt_Qlt.
  - apply Qlt_alt.
    pose proof (pow2_le (e1 + 1) e2 ltac:(lia)) as Hle.
    rewrite pow2_succ in Hle. set (P1 := 2 ^ e1) in *. set (P2 := 2 ^ e2) in *.
    apply (Qlt_le_trans _ (9007199254740992 * P1)).
    + by apply Qmult_lt_r.
    + apply (Qle_trans _ (4503599627370496 * P2)); [lra|].
      by apply Qmult_le_r.
  - apply Qgt_alt.
    pose proof (pow2_le (e2 + 1) e1 ltac:(lia)) as Hle.
    rewrite pow2_succ in Hle. set (P1 := 2 ^ e1) in *. set (P2 := 2 ^ e2) in *.
    apply (Qlt_le_trans _ (9007199254740992 * P2)).
    + by apply Qmult_lt_r.
    + apply (Qle_trans _ (4503599627370496 * P1)); [lra|].
      by apply Qmult_le_r.
Qed.

(** ** The Friendly score in binary64 *)

(** [baseScore] of line 39, before the cap. *)
Definition friendlyBase64 (recency : N) : spec_float :=
  SFadd 53 1024 (b64_lit 4 10)
    (SFmul 53 1024
       (SFdiv 53 1024 (b64_of_N 1)
          (SFadd 53 1024 (b64_of_N recency) (b64_of_N 1)))
       (b64_lit 3 10)).

Lemma b64_one : b64_of_N 1 = S754_finite false 4503599627370496 (-52).
Proof. by vm_compute. Qed.

Lemma b64_lit_03 : b64_lit 3 10 = S754_finite false 5404319552844595 (-54).
Proof. by vm_compute. Qed.

Lemma b64_lit_04 : b64_lit 4 10 = S754_finite false 7205759403792794 (-54).
Proof. by vm_compute. Qed.

Lemma b64_lit_07 : b64_lit 7 10 = S754_finite false 6305039478318694 (-53).
Proof. by vm_compute. Qed.

Ltac canon_lit := unfold canon; split; [by apply Z.leb_le|by apply Z.ltb_lt].

(** The doubles [0.3] and [0.4] as rationals. *)
Definition q03 : Q := 5404319552844595 # 18014398509481984.
Definition q04 : Q := 7205759403792794 # 18014398509481984.

Lemma F2Q_03 : F2Q 5404319552844595 (-54) == q03.
Proof. by vm_compute. Qed.

Lemma F2Q_04 : F2Q 7205759403792794 (-54) == q04.
Proof. by vm_compute. Qed.

Lemma F2Q_one : F2Q 4503599627370496 (-52) == 1.
Proof. by vm_compute. Qed.

(** [recency + 1] is computed exactly. *)
Lemma recency_succ64 (recency : N) :
  (recency < 2 ^ 53)%N →
  ∃ (m : positive) (e : Z),
    SFadd 53 1024 (b64_of_N recency) (b64_of_N 1) = S754_finite false m e
    ∧ canon m ∧ F2Q m e == N2Q recency + 1 ∧ (-52 <= e <= 4)%Z.
Proof.
  intros Hr. destruct recency as [|p].
  - exists 4503599627370496%positive, (-52)%Z.
    split; [by vm_compute|]. split; [canon_lit|]. split; [by vm_compute|lia].
  - destruct (b64_of_N_exact p) as (mr & er & -> & Hmr & Hvr & Her); [lia|].
    rewrite b64_one.
    destruct (SFadd_rounds mr 4503599627370496 er (-52))
      as (m & e & -> & Hr' & He); [done|canon_lit|lia|].
    exists m, e. split; [done|]. split; [apply Hr'|]. split; [|lia].
    rewrite Hvr, F2Q_one in Hr'. unfold N2Q. cbn [Z.of_N].
    change 1 with (inject_Z 1) in *. rewrite <- inject_Z_plus in *.
    apply rounds_integer; [lia|done].
Qed.

(** The three roundings of the Friendly score. *)
Lemma friendlyBase64_rounds (recency : N) :
  (recency < 2 ^ 53)%N →
  ∃ (mq mp ms : positive) (eq ep es : Z),
    friendlyBase64 recency = S754_finite false ms es
    ∧ rounds (1 / (N2Q recency + 1)) mq eq
    ∧ rounds (F2Q mq eq * q03) mp ep
    ∧ rounds (q04 + F2Q mp ep) ms es.
Proof.
  intros Hr. unfold friendlyBase64.
  destruct (recency_succ64 recency Hr) as (mn & en & -> & Hmn & Hvn & Hen).
  rewrite b64_one, b64_lit_03, b64_lit_04.
  destruct (SFdiv_rounds 4503599627370496 mn (-52) en)
    as (mq & eq & -> & Hrq & Heq); [canon_lit|done|lia|].
  destruct (SFmul_rounds mq 5404319552844595 eq (-54))
    as (mp & ep & -> & Hrp & Hep); [apply Hrq|canon_lit|lia|].
  destruct (SFadd_rounds 7205759403792794 mp (-54) ep)
    as (ms & es & -> & Hrs & Hes); [canon_lit|apply Hrp|lia|].
  exists mq, mp, ms, eq, ep, es. split; [done|].
  rewrite F2Q_one, Hvn in Hrq. rewrite F2Q_03 in Hrp. rewrite F2Q_04 in Hrs.
  done.
Qed.

(** [f] is [0.4 + (1 / (recency + 1)) * 0.3] with a rounding to nearest,
    ties to even, after the division, after the product with the double
    [0.3] and after the sum with the double [0.4]. *)
Definition thrice_rounded (recency : N) (f : spec_float) : Prop :=
  ∃ (mq mp ms : positive) (eq ep es : Z),
    f = S754_finite false ms es
    ∧ rounds (1 / (N2Q recency + 1)) mq eq
    ∧ rounds (F2Q mq eq * SF2Q (b64_lit 3 10)) mp ep
    ∧ rounds (SF2Q (b64_lit 4 10) + F2Q mp ep) ms es.

Lemma friendlyBase64_thrice_rounded (recency : N) :
  (recency < 2 ^ 53)%N → thrice_rounded recency (friendlyBase64 recency).
Proof.
  intros Hr.
  destruct (friendlyBase64_rounds recency Hr)
    as (mq & mp & ms & eq & ep & es & Heq & Hq & Hp & Hs).
  exists mq, mp, ms, eq, ep, es. rewrite b64_lit_03, b64_lit_04. cbn [SF2Q].
  rewrite F2Q_03, F2Q_04. done.
Qed.

Lemma recency_inv_bounds (recency : N) :
  0 < 1 / (N2Q recency + 1) <= 1.
Proof.
  assert (0 <= N2Q recency) as Hr.
  { unfold N2Q. change 0 with (inject_Z 0). rewrite <- Zle_Qle. lia. }
  split.
  - apply Qlt_shift_div_l; lra.
  - apply Qle_shift_div_r; lra.
Qed.

(** The binary64 score before the cap is a positive normal double within
    [2 ^ -52] of the exact [0.4 + 0.3 / (recency + 1)]. *)
Lemma friendlyBase64_close (recency : N) :
  (recency < 2 ^ 53)%N →
  ∃ (m : positive) (e : Z),
    friendlyBase64 recency = S754_finite false m e
    ∧ canon m
    ∧ Qabs (F2Q m e - (0.4 + 0.3 / (N2Q recency + 1)))
      <= 1 # 4503599627370496.
Proof.
  intros Hr.
  destruct (friendlyBase64_rounds recency Hr)
    as (mq & mp & ms & eq & ep & es & Heq & Hq & Hp & Hs).
  exists ms, es. split; [exact Heq|]. split; [apply Hs|].
  apply rounds_error in Hq, Hp, Hs.
  pose proof (recency_inv_bounds recency) as Ht.
  assert (0.3 / (N2Q recency + 1) == 0.3 * (1 / (N2Q recency + 1))) as ->.
  { unfold Qdiv. ring. }
  set (t := 1 / (N2Q recency + 1)) in *.
  set (vq := F2Q mq eq) in *. set (vp := F2Q mp ep) in *.
  set (vs := F2Q ms es) in *. unfold q03, q04 in *.
  apply Qabs_Qle_condition. split; lra.
Qed.

(** The binary64 score does not increase with the recency. *)
Lemma friendlyBase64_mono (r r' : N) :
  (r <= r')%N → (r' < 2 ^ 53)%N →
  SF2Q (friendlyBase64 r') <= SF2Q (friendlyBase64 r).
Proof.
  intros Hle Hr'.
  destruct (friendlyBase64_rounds r ltac:(lia))
    as (mq & mp & ms & eq & ep & es & -> & Hq & Hp & Hs).
  destruct (friendlyBase64_rounds r' Hr')
    as (mq' & mp' & ms' & eq' & ep' & es' & -> & Hq' & Hp' & Hs').
  cbn [SF2Q].
  apply (rounds_mono _ _ _ _ _ _ Hs' Hs).
  apply Qplus_le_r.
  apply (rounds_mono _ _ _ _ _ _ Hp' Hp).
  apply Qmult_le_compat_r; [|by unfold q03, Qle].
  apply (rounds_mono _ _ _ _ _ _ Hq' Hq).
  assert (0 <= N2Q r) as Hr0.
  { unfold N2Q. change 0 with (inject_Z 0). rewrite <- Zle_Qle. lia. }
  assert (N2Q r <= N2Q r') as Hrr.
  { unfold N2Q. rewrite <- Zle_Qle. lia. }
  apply Qle_shift_div_l; [lra|].
  unfold Qdiv. rewrite Qmult_1_l, Qmult_comm.
  apply Qle_shift_div_r; lra.
Qed.

(** It strictly decreases while the recency is at most twenty million:
    up to there two consecutive exact scores are further apart than
    the two rounding errors. *)
Lemma friendlyBase64_strict (r r' : N) :
  (r < r')%N → (r' <= 20000000)%N →
  SF2Q (friendlyBase64 r') < SF2Q (friendlyBase64 r).
Proof.
  intros Hlt Hr'.
  destruct (friendlyBase64_close r ltac:(lia)) as (m & e & -> & _ & Hc).
  destruct (friendlyBase64_close r' ltac:(lia)) as (m' & e' & -> & _ & Hc').
  cbn [SF2Q]. apply Qabs_Qle_condition in Hc, Hc'.
  assert (0 <= N2Q r) as Hr0.
  { unfold N2Q. change 0 with (inject_Z 0). rewrite <- Zle_Qle. lia. }
  assert (N2Q r + 1 <= N2Q r') as Hrr.
  { unfold N2Q. change 1 with (inject_Z 1). rewrite <- inject_Z_plus.
    rewrite <- Zle_Qle. lia. }
  assert (N2Q r' <= 20000000) as Hbound.
  { unfold N2Q. change 20000000 with (inject_Z 20000000).
    rewrite <- Zle_Qle. lia. }
  assert (1 <= N2Q r + 1 ∧ N2Q r + 1 + 1 <= N2Q r' + 1
          ∧ N2Q r' + 1 <= 20000001) as (Ha1 & Haa & Ha2) by (split_and!; lra).
  clear Hr0 Hrr Hbound.
  set (a := N2Q r + 1) in *. set (a' := N2Q r' + 1) in *. clearbody a a'.
  assert (0.3 / a == 0.3 * (1 / a)) as Ha by (unfold Qdiv; ring).
  assert (0.3 / a' == 0.3 * (1 / a')) as Ha' by (unfold Qdiv; ring).
  rewrite Ha in Hc. rewrite Ha' in Hc'.
  assert ((1 / a) * a == 1) as Hta by (field; lra).
  assert ((1 / a') * a' == 1) as Hta' by (field; lra).
  set (t := 1 / a) in *. set (t' := 1 / a') in *.
  assert (0 < t) as Ht by (apply Qlt_shift_div_l; lra).
  assert (1 # 20000001 <= t') as Ht'.
  { apply Qle_shift_div_l; [lra|]. lra. }
  assert (t' <= t) as Htt.
  { apply Qle_shift_div_l; [lra|]. unfold t'.
    unfold Qdiv. rewrite Qmult_1_l, Qmult_comm.
    apply Qle_shift_div_r; lra. }
  assert (t - t' == (a' - a) * (t * t')) as Hdiff.
  { assert ((a' - a) * (t * t') == (t' * a') * t - (t * a) * t') as -> by ring.
    rewrite Hta, Hta'. ring. }
  assert ((1 # 20000001) * (1 # 20000001) <= t * t') as Hprod.
  { apply Qmult_le_compat_nonneg; split; lra. }
  assert (t * t' <= (a' - a) * (t * t')) as Hstep.
  { rewrite <- (Qmult_1_l (t * t')) at 1.
    apply Qmult_le_compat_r; [lra|]. apply Qmult_le_0_compat; lra. }
  assert ((1 # 20000001) * (1 # 20000001) == 1 # 400000040000001) as Hsq
    by reflexivity.
  lra.
Qed.

Lemma SFltb_canon (m1 m2 : positive) (e1 e2 : Z) :
  canon m1 → canon m2 →
  SFltb (S754_finite false m1 e1) (S754_finite false m2 e2) = true
  ↔ F2Q m1 e1 < F2Q m2 e2.
Proof.
  intros H1 H2. unfold SFltb. rewrite SFcompare_canon by done.
  rewrite Qlt_alt. by destruct (F2Q m1 e1 ?= F2Q m2 e2).
Qed.

Lemma SFleb_canon (m1 m2 : positive) (e1 e2 : Z) :
  canon m1 → canon m2 →
  SFleb (S754_finite false m1 e1) (S754_finite false m2 e2) = true
  ↔ F2Q m1 e1 <= F2Q m2 e2.
Proof.
  intros H1 H2. unfold SFleb. rewrite SFcompare_canon by done.
  rewrite Qle_alt. by destruct (F2Q m1 e1 ?= F2Q m2 e2).
Qed.

(** [Math.min(0.85, baseScore)] is [baseScore]: the cap is never active. *)
Lemma friendly_cap_inert (freq recency : N) :
  (recency < 2 ^ 53)%N →
  predictReuseProb64 freq recency Friendly = friendlyBase64 recency.
Proof.
  intros Hr. change (predictReuseProb64 freq recency Friendly)
    with (Math_min64 (b64_lit 85 100) (friendlyBase64 recency)).
  destruct (friendlyBase64_close recency Hr) as (m & e & -> & Hm & Hc).
  rewrite b64_lit_085. unfold Math_min64.
  rewrite SFcompare_canon by (done || canon_lit).
  assert (F2Q m e < F2Q 7656119366529843 (-53)) as Hlt.
  { apply Qabs_Qle_condition in Hc.
    pose proof (recency_inv_bounds recency) as Ht.
    assert (0.3 / (N2Q recency + 1) == 0.3 * (1 / (N2Q recency + 1))) as Hd.
    { unfold Qdiv. ring. }
    rewrite Hd in Hc. set (t := 1 / (N2Q recency + 1)) in *.
    assert (F2Q 7656119366529843 (-53)
            == 7656119366529843 # 9007199254740992) as -> by (by vm_compute).
    set (v := F2Q m e) in *. lra. }
  apply Qgt_alt in Hlt. by rewrite Hlt.
Qed.

(** The formula of the specification, [min(0.85, 0.4 + 0.3 / (recency + 1))],
    with each operation in binary64, for comparison with the code's
    [predictReuseProb64]. *)
Definition spec_friendly64 (recency : N) : spec_float :=
  Math_min64 (b64_lit 85 100)
    (SFadd 53 1024 (b64_lit 4 10)
       (SFdiv 53 1024 (b64_lit 3 10)
          (SFadd 53 1024 (b64_of_N recency) (b64_of_N 1)))).

(** Over the rationals the cap of the formula is never active either. *)
Lemma friendly_exact_uncapped (recency : N) :
  Qmin 0.85 (0.4 + 0.3 / (N2Q recency + 1)) == 0.4 + 0.3 / (N2Q recency + 1).
Proof.
  apply Q.min_r. pose proof (recency_inv_bounds recency) as Ht.
  assert (0.3 / (N2Q recency + 1) == 0.3 * (1 / (N2Q recency + 1))) as ->.
  { unfold Qdiv. ring. }
  lra.
Qed.

(** The Friendly score the code returns is within [2 ^ -52] of the exact
    [0.4 + 0.3 / (recency + 1)]. *)
Lemma predictReuseProb64_close (freq recency : N) :
  (recency < 2 ^ 53)%N →
  Qabs (SF2Q (predictReuseProb64 freq recency Friendly)
        - (0.4 + 0.3 / (N2Q recency + 1)))
  <= 1 # 4503599627370496.
Proof.
  intros Hr. rewrite friendly_cap_inert by done.
  by destruct (friendlyBase64_close recency Hr) as (m & e & -> & _ & Hc).
Qed.

(** The exact score of the simulator model is within [2 ^ -52] of the
    double the code computes. *)
Lemma predictReuseProb64_near_exact (freq recency : N) (type : WorkloadType) :
  (recency < 2 ^ 53)%N →
  Qabs (SF2Q (predictReuseProb64 freq recency type)
        - predictReuseProb freq recency type)
  <= 1 # 4503599627370496.
Proof.
  intros Hr. destruct type.
  - rewrite friendly_uncapped, friendly_base_div, <- N2Q_succ.
    by apply predictReuseProb64_close.
  - unfold predictReuseProb64, predictReuseProb.
    destruct (2 <=? freq)%N; [by vm_compute|].
    destruct (freq =? 1)%N; by vm_compute.
Qed.

(** C3 (amended). The scoring function is a pure, deterministic function
    of (frequency, recency, mode), computed in binary64.  In Friendly mode
    it returns the double [Math.min(0.85, 0.4 + (1 / (recency + 1)) * 0.3)],
    that is 0.4 + (1 / (recency + 1)) * 0.3 rounded to nearest after each
    of its three operations, the cap being inactive; this double is
    within 2^-52 of min(0.85, 0.4 + 0.3 / (recency + 1)); in
    Hostile mode it returns the double 0.95 when frequency >= 2, the double
    0.4 when frequency = 1 and the double 0.1 when frequency = 0, each
    within 2^-54 of the decimal; identical inputs yield the identical
    score. *)
Theorem predictReuseProb64_variants (freq recency : N) :
  (recency < 2 ^ 53)%N →
  thrice_rounded recency (predictReuseProb64 freq recency Friendly)
  ∧ Qabs (SF2Q (predictReuseProb64 freq recency Friendly)
          - Qmin 0.85 (0.4 + 0.3 / (N2Q recency + 1)))
    <= 1 # 4503599627370496
  ∧ ((2 <= freq)%N → predictReuseProb64 freq recency Hostile = b64_lit 95 100)
  ∧ (freq = 1%N → predictReuseProb64 freq recency Hostile = b64_lit 4 10)
  ∧ (freq = 0%N → predictReuseProb64 freq recency Hostile = b64_lit 1 10)
  ∧ (Qabs (SF2Q (b64_lit 95 100) - 0.95) <= 1 # 18014398509481984
     ∧ Qabs (SF2Q (b64_lit 4 10) - 0.4) <= 1 # 18014398509481984
     ∧ Qabs (SF2Q (b64_lit 1 10) - 0.1) <= 1 # 18014398509481984)
  ∧ (∀ freq' recency' mode mode',
       freq = freq' → recency = recency' → mode = mode' →
       predictReuseProb64 freq recency mode
       = predictReuseProb64 freq' recency' mode').
Proof.
  intros Hr. split_and!.
  - rewrite friendly_cap_inert by done. by apply friendlyBase64_thrice_rounded.
  - rewrite friendly_exact_uncapped. by apply predictReuseProb64_close.
  - intros Hf%N.leb_le. unfold predictReuseProb64. by rewrite Hf.
  - by intros ->.
  - by intros ->.
  - by vm_compute.
  - by vm_compute.
  - by vm_compute.
  - by intros ???? <- <- <-.
Qed.

(** The bound at recency 3, where the score is 0.47500000000000003. *)
Lemma predictReuseProb64_variants_witness :
  (3 < 2 ^ 53)%N
  ∧ thrice_rounded 3 (predictReuseProb64 1 3 Friendly)
  ∧ Qabs (SF2Q (predictReuseProb64 1 3 Friendly)
          - Qmin 0.85 (0.4 + 0.3 / (N2Q 3 + 1)))
    <= 1 # 4503599627370496.
Proof.
  split; [reflexivity|].
  pose proof (predictReuseProb64_variants 1 3 eq_refl) as H.
  split; apply H.
Defined.

(** C3 (as stated) fails on the doubles the code returns: at recency 12
    the score is not what the formula of the specification evaluates to
    in binary64, and at recency 3 its value is not the number
    min(0.85, 0.4 + 0.3 / 4) = 0.475. *)
Lemma friendly_formula_counterexample :
  predictReuseProb64 1 12 Friendly ≠ spec_friendly64 12
  ∧ ¬ SF2Q (predictReuseProb64 1 3 Friendly)
      == Qmin 0.85 (0.4 + 0.3 / (N2Q 3 + 1)).
Proof.
  split.
  - intros H. vm_compute in H. discriminate H.
  - intros H. vm_compute in H. discriminate H.
Qed.

(** C9 (amended). For every frequency and every recency below 2^53 the
    Friendly score is within 2^-52 of 0.4 + 0.3 / (recency + 1), does not
    depend on the frequency, does not increase as the recency increases
    and strictly decreases up to recency 20,000,000; as a double it is
    greater than 0.4 and at most 0.7; the min(0.85, .) cap never changes
    the value, and the greatest Friendly score is 0.7 (reached at
    recency 0), below 0.85. *)
Theorem friendly_score64_shape (freq recency : N) :
  (recency < 2 ^ 53)%N →
  let s := predictReuseProb64 freq recency Friendly in
  Qabs (SF2Q s - (0.4 + 0.3 / (N2Q recency + 1))) <= 1 # 4503599627370496
  ∧ (∀ freq', predictReuseProb64 freq' recency Friendly = s)
  ∧ (∀ recency', (recency < recency')%N → (recency' < 2 ^ 53)%N →
       SFleb (predictReuseProb64 freq recency' Friendly) s = true
       ∧ ((recency' <= 20000000)%N →
          SFltb (predictReuseProb64 freq recency' Friendly) s = true))
  ∧ SFltb (b64_lit 4 10) s = true
  ∧ SFleb s (b64_lit 7 10) = true
  ∧ s = friendlyBase64 recency
  ∧ predictReuseProb64 freq 0 Friendly = b64_lit 7 10
  ∧ SFltb s (b64_lit 85 100) = true.
Proof.
  intros Hr s.
  assert (s = friendlyBase64 recency) as Hs by (by apply friendly_cap_inert).
  destruct (friendlyBase64_close recency Hr) as (m & e & Hbase & Hm & Hc).
  pose proof (friendlyBase64_mono 0 recency ltac:(lia) Hr) as Hhi.
  pose proof (friendlyBase64_mono recency (2 ^ 53 - 1) ltac:(lia) ltac:(done))
    as Hlo.
  assert (friendlyBase64 0 = S754_finite false 6305039478318694 (-53)) as H0
    by (by vm_compute).
  assert (friendlyBase64 (2 ^ 53 - 1)
          = S754_finite false 7205759403792795 (-54)) as Hlast
    by (by vm_compute).
  rewrite H0 in Hhi. rewrite Hlast in Hlo. rewrite Hbase in Hhi, Hlo.
  cbn [SF2Q] in Hhi, Hlo.
  split_and!.
  - by apply predictReuseProb64_close.
  - done.
  - intros recency' Hlt Hr'.
    rewrite Hs, (friendly_cap_inert freq recency') by done.
    pose proof (friendlyBase64_mono recency recency' ltac:(lia) Hr') as Hmono.
    destruct (friendlyBase64_close recency' Hr') as (m' & e' & Hbase' & Hm' & _).
    split.
    + rewrite Hbase, Hbase' in Hmono |- *. by apply SFleb_canon.
    + intros Hsmall.
      pose proof (friendlyBase64_strict recency recency' Hlt Hsmall) as Hstrict.
      rewrite Hbase, Hbase' in Hstrict |- *. by apply SFltb_canon.
  - rewrite Hs, Hbase, b64_lit_04. apply SFltb_canon; [canon_lit|done|].
    eapply Qlt_le_trans; [|exact Hlo]. by vm_compute.
  - rewrite Hs, Hbase, b64_lit_07. by apply SFleb_canon; [|canon_lit|].
  - done.
  - by vm_compute.
  - rewrite Hs, Hbase, b64_lit_085. apply SFltb_canon; [done|canon_lit|].
    eapply Qle_lt_trans; [exact Hhi|]. by vm_compute.
Qed.

(** The range at recency 3, and the strict decrease from 3 to 4. *)
Lemma friendly_score64_shape_witness :
  (3 < 2 ^ 53)%N
  ∧ ((3 < 4)%N ∧ (4 < 2 ^ 53)%N ∧ (4 <= 20000000)%N)
  ∧ SFltb (predictReuseProb64 1 4 Friendly)
          (predictReuseProb64 1 3 Friendly) = true
  ∧ SFltb (b64_lit 4 10) (predictReuseProb64 1 3 Friendly) = true
  ∧ SFleb (predictReuseProb64 1 3 Friendly) (b64_lit 7 10) = true.
Proof.
  split; [reflexivity|]. split; [by split_and!|].
  pose proof (friendly_score64_shape 1 3 eq_refl) as (_ & _ & Hdec & Hlo & Hhi & _).
  split; [|by split].
  apply (Hdec 4%N); [reflexivity|reflexivity|]. by apply N.leb_le.
Defined.

(** C9 (as stated) fails on the doubles the code returns: the scores at
    recency 100,000,001 and 100,000,002 are the same double, so the score
    does not strictly decrease there; and at recency 12 the value of the
    score is not 0.4 + 0.3 / 13. *)
Lemma friendly_strict_decrease_counterexample :
  (100000001 < 100000002)%N
  ∧ predictReuseProb64 1 100000002 Friendly
    = predictReuseProb64 1 100000001 Friendly
  ∧ SFltb (predictReuseProb64 1 100000002 Friendly)
          (predictReuseProb64 1 100000001 Friendly) = false
  ∧ ¬ SF2Q (predictReuseProb64 1 12 Friendly) == 0.4 + 0.3 / (N2Q 12 + 1).
Proof.
  split_and!; by vm_compute.
Qed.
